(** * Obsidotion: the synchronisation engine between an Obsidian vault and Notion

    A shallow embedding of the TypeScript sources of the plugin (main.ts,
    sync-manager.ts, notion-api.ts, upload-service.ts, download-service.ts,
    markdown-converter.ts, validator.ts, sync-status-modal.ts and the
    uploader and converter of the first version, Upload2Notion.ts and
    DownloadFromNotion.ts) together with the properties that the
    specification states about them.

    Conventions.
    - A JavaScript string is the list of its UTF-16 code units ([jsstring]).
    - Asynchronous functions are embedded sequentially: every [await] is a
      plain call, one invocation runs from its first to its last statement.
    - What a function receives from the outside world (the answer of the
      Notion service, the outcome of executing a queued operation) is an
      explicit oracle that may depend on everything that happened before.
    - A JavaScript exception is a value: fallible functions return a
      [result]. *)

From Stdlib Require Import ZArith Lia String Ascii.
From stdpp Require Import base list list_numbers.
From Equations Require Import Equations.

Local Open Scope Z_scope.

(** ** JavaScript strings *)

Module Js.

Abbreviation jsstring := (list N).

(** A literal of the source, as code units. *)
Definition lit (s : string) : jsstring :=
  map N_of_ascii (list_ascii_of_string s).

(** [s.startsWith(p)] *)
Fixpoint startsWith (p s : jsstring) : bool :=
  match p, s with
  | [], _ => true
  | _ :: _, [] => false
  | a :: p', b :: s' => N.eqb a b && startsWith p' s'
  end.

(** [s.includes(p)] *)
Fixpoint includes (p s : jsstring) : bool :=
  startsWith p s ||
  match s with
  | [] => false
  | _ :: s' => includes p s'
  end.

(** [s.endsWith(p)] *)
Definition endsWith (p s : jsstring) : bool :=
  startsWith (rev p) (rev s).

(** [s.lastIndexOf(c)] for a one-unit search string [c]; -1 when absent.
    [i] is the index of the head of [s], [found] the best index so far. *)
Fixpoint lastIndexOf_from (c : N) (s : jsstring) (i found : Z) : Z :=
  match s with
  | [] => found
  | x :: s' => lastIndexOf_from c s' (i + 1) (if N.eqb x c then i else found)
  end.

Definition lastIndexOf (c : N) (s : jsstring) : Z :=
  lastIndexOf_from c s 0 (-1).

(** [s.substring(a, b)]: both ends are clamped to [0, length] and swapped
    when [a > b]. *)
Definition clamp (s : jsstring) (i : Z) : nat :=
  Z.to_nat (Z.min (Z.max i 0) (Z.of_nat (length s))).

Definition substring (s : jsstring) (a b : Z) : jsstring :=
  let a' := clamp s a in
  let b' := clamp s b in
  take (Nat.max a' b' - Nat.min a' b') (drop (Nat.min a' b') s).

(** [s.substring(a)] *)
Definition substring_from (s : jsstring) (a : Z) : jsstring :=
  substring s a (Z.of_nat (length s)).

(** [s.repeat(n)] *)
Fixpoint repeat (s : jsstring) (n : nat) : jsstring :=
  match n with
  | O => []
  | S n' => s ++ repeat s n'
  end.

(** Truthiness of a string: the empty string is falsy. *)
Definition truthy (s : jsstring) : bool :=
  match s with [] => false | _ => true end.

(** Truthiness of a possibly missing string ([undefined], [null]). *)
Definition truthy_opt (s : option jsstring) : bool :=
  match s with Some s' => truthy s' | None => false end.

(** Decimal digits of a non-negative integer, as [String(n)] prints them.
    A number has at most as many decimal digits as binary ones. *)
Definition digit (d : N) : N := (48 + d)%N.

Fixpoint digits_fuel (fuel : nat) (n : N) (acc : jsstring) : jsstring :=
  match fuel with
  | O => acc
  | S fuel' =>
      let acc' := digit (n mod 10)%N :: acc in
      if (n / 10 =? 0)%N then acc' else digits_fuel fuel' (n / 10)%N acc'
  end.

Definition of_N (n : N) : jsstring :=
  digits_fuel (S (N.to_nat (N.log2 n))) n [].

Definition of_nat (n : nat) : jsstring := of_N (N.of_nat n).

(** [String(z)] for an integer. *)
Definition of_Z (z : Z) : jsstring :=
  if z <? 0 then 45%N :: of_N (Z.to_N (- z)) else of_N (Z.to_N z).

Definition colon : N := 58%N.
Definition newline : N := 10%N.

(** A thrown [Error]: its message and, for Node errors, its code. *)
Record Error := mkError { message : jsstring; code : option jsstring }.

Definition newError (msg : jsstring) : Error :=
  {| message := msg; code := None |}.

(** The outcome of a call that may throw. [OutOfFuel] is not an outcome of
    the program: a loop of the embedding was given too few turns. *)
Inductive result (A : Type) : Type :=
| Ok (a : A)
| Throw (e : Error)
| OutOfFuel.
Arguments Ok {A} a.
Arguments Throw {A} e.
Arguments OutOfFuel {A}.

End Js.

Import Js.

(** ** The sync queue (sync-manager.ts) *)

Module SyncQueue.

Inductive OpType := upload | download | delete.

Record TFile := mkFile {
  path : jsstring;
  name : jsstring;
  basename : jsstring
}.

(** The optional [data] of an operation: the Notion payload of a download
    or the page to archive of a delete. *)
Inductive OpData :=
| NotionData (id : jsstring)
| DeleteData (notionId : jsstring).

Record SyncOperation := mkOp {
  type : OpType;
  file : TFile;
  data : option OpData;
  timestamp : Z;
  retries : nat
}.

Inductive Status := synced | syncing | offline | conflicts.

(** How one call of [executeOperation] ended. A rejection is taken to be
    an object with a string [message]; module [Rejections] below follows
    the loop for every value. *)
Inductive Outcome :=
| Resolved
| Rejected (e : Error).

(** What the queue did, in order: each call of [executeOperation] with the
    operation as it was passed, and each terminal report
    ("Failed to sync ... after 3 retries"). *)
Inductive Event :=
| Executed (op : SyncOperation) (o : Outcome)
| TerminalFailure (op : SyncOperation).

Record State := mkState {
  syncQueue : list SyncOperation;
  isOnline : bool;
  status : Status;
  log : list Event
}.

#[global] Instance OpType_eq_dec : EqDecision OpType.
Proof. solve_decision. Defined.
#[global] Instance TFile_eq_dec : EqDecision TFile.
Proof. solve_decision. Defined.

(** [isNetworkError] *)
Definition isNetworkError (error : Error) : bool :=
  includes (lit "network") (message error) ||
  includes (lit "fetch") (message error) ||
  includes (lit "timeout") (message error) ||
  bool_decide (code error = Some (lit "ENOTFOUND")).

(** The operation [queueOperation] builds. *)
Definition newOperation (t : OpType) (f : TFile) (d : option OpData) (now : Z)
  : SyncOperation :=
  {| type := t; file := f; data := d; timestamp := now; retries := 0 |}.

Definition withRetries (op : SyncOperation) (n : nat) : SyncOperation :=
  {| type := type op; file := file op; data := data op;
     timestamp := timestamp op; retries := n |}.

Section Queue.

(** The outcome of executing an operation is decided by the world; it may
    depend on everything the queue did so far. *)
Variable executeOperation : list Event -> SyncOperation -> Outcome.

(** The status left by the [finally] block of [executeOperation]. *)
Definition statusAfterExecute (q : list SyncOperation) : Status :=
  match q with [] => synced | _ => syncing end.

(** One turn of the [while] loop of [processQueue], entered with the
    queue [operation :: rest]. The boolean is [true] when the turn ends
    in [break]. *)
Definition iteration (st : State) (operation : SyncOperation)
    (rest : list SyncOperation) : State * bool :=
  match executeOperation (log st) operation with
  | Resolved =>
      ({| syncQueue := rest; isOnline := isOnline st;
          status := statusAfterExecute rest;
          log := log st ++ [Executed operation Resolved] |}, false)
  | Rejected error =>
      if isNetworkError error then
        ({| syncQueue := operation :: rest; isOnline := false;
            status := offline;
            log := log st ++ [Executed operation (Rejected error)] |}, true)
      else
        let operation' := withRetries operation (retries operation + 1) in
        if (retries operation' <? 3)%nat then
          ({| syncQueue := rest ++ [operation']; isOnline := isOnline st;
              status := statusAfterExecute rest;
              log := log st ++ [Executed operation (Rejected error)] |}, false)
        else
          ({| syncQueue := rest; isOnline := isOnline st;
              status := statusAfterExecute rest;
              log := log st ++ [Executed operation (Rejected error);
                                TerminalFailure operation'] |}, false)
  end.

(** The [while (this.syncQueue.length > 0 && this.isOnline)] loop.
    [None] only when [fuel] turns were not enough. *)
Fixpoint processLoop (fuel : nat) (st : State) : option State :=
  match syncQueue st, isOnline st with
  | operation :: rest, true =>
      match fuel with
      | O => None
      | S fuel' =>
          let '(st', stop) := iteration st operation rest in
          if stop then Some st' else processLoop fuel' st'
      end
  | _, _ => Some st
  end.

Definition setStatus (st : State) (s : Status) : State :=
  {| syncQueue := syncQueue st; isOnline := isOnline st;
     status := s; log := log st |}.

(** [processQueue] *)
Definition processQueue (fuel : nat) (st : State) : option State :=
  match syncQueue st with
  | [] => Some (setStatus st synced)
  | _ :: _ =>
      match processLoop fuel (setStatus st syncing) with
      | Some st' =>
          Some (setStatus st'
                  (match syncQueue st' with [] => synced | _ => offline end))
      | None => None
      end
  end.

(** [queueOperation]: push, then process when online. *)
Definition queueOperation (fuel : nat) (st : State) (t : OpType) (f : TFile)
    (d : option OpData) (now : Z) : option State :=
  let st1 := {| syncQueue := syncQueue st ++ [newOperation t f d now];
                isOnline := isOnline st; status := status st;
                log := log st |} in
  if isOnline st1 then processQueue fuel st1 else Some st1.

(** [onlineHandler]: the connectivity-restored signal. *)
Definition onlineHandler (fuel : nat) (st : State) : option State :=
  processQueue fuel
    (setStatus {| syncQueue := syncQueue st; isOnline := true;
                  status := status st; log := log st |} syncing).

(** [offlineHandler] *)
Definition offlineHandler (st : State) : State :=
  {| syncQueue := syncQueue st; isOnline := false;
     status := offline; log := log st |}.

(** How many more times an operation can be executed before it is
    dropped. *)
Definition attemptsLeft (op : SyncOperation) : nat :=
  Nat.max 1 (3 - retries op).

Definition totalAttempts (q : list SyncOperation) : nat :=
  sum_list_with attemptsLeft q.

(** The four ways one turn of the loop can go. *)
Inductive turn (st : State) (op : SyncOperation) (rest : list SyncOperation)
  : State -> bool -> Prop :=
| turn_resolved :
    executeOperation (log st) op = Resolved ->
    turn st op rest
      {| syncQueue := rest; isOnline := isOnline st;
         status := statusAfterExecute rest;
         log := log st ++ [Executed op Resolved] |} false
| turn_network e :
    executeOperation (log st) op = Rejected e ->
    isNetworkError e = true ->
    turn st op rest
      {| syncQueue := op :: rest; isOnline := false; status := offline;
         log := log st ++ [Executed op (Rejected e)] |} true
| turn_retry e :
    executeOperation (log st) op = Rejected e ->
    isNetworkError e = false ->
    (retries op + 1 < 3)%nat ->
    turn st op rest
      {| syncQueue := rest ++ [withRetries op (retries op + 1)];
         isOnline := isOnline st; status := statusAfterExecute rest;
         log := log st ++ [Executed op (Rejected e)] |} false
| turn_dropped e :
    executeOperation (log st) op = Rejected e ->
    isNetworkError e = false ->
    (3 <= retries op + 1)%nat ->
    turn st op rest
      {| syncQueue := rest; isOnline := isOnline st;
         status := statusAfterExecute rest;
         log := log st ++ [Executed op (Rejected e);
                           TerminalFailure (withRetries op (retries op + 1))] |}
      false.

(** The loop as a relation: [runs st st'] when the loop entered in [st]
    leaves in [st']. *)
Inductive runs : State -> State -> Prop :=
| runs_exit st :
    (syncQueue st = [] \/ isOnline st = false) -> runs st st
| runs_break st op rest st' :
    syncQueue st = op :: rest -> isOnline st = true ->
    turn st op rest st' true -> runs st st'
| runs_turn st op rest st1 st' :
    syncQueue st = op :: rest -> isOnline st = true ->
    turn st op rest st1 false -> runs st1 st' -> runs st st'.

End Queue.

(** *** Vocabulary for the properties of the queue *)

(** An operation as [queueOperation] first built it. *)
Definition asEnqueued (op : SyncOperation) : SyncOperation := withRetries op 0.

(** The operations the queue is done with: those whose execution resolved
    and those reported as terminal failures. *)
Fixpoint settled (l : list Event) : list SyncOperation :=
  match l with
  | [] => []
  | Executed op Resolved :: l' => op :: settled l'
  | Executed _ (Rejected _) :: l' => settled l'
  | TerminalFailure op :: l' => op :: settled l'
  end.

Definition isTerminalOf (f : TFile) (ev : Event) : bool :=
  match ev with
  | Executed _ _ => false
  | TerminalFailure op => bool_decide (file op = f)
  end.

Definition countIf {A : Type} (p : A -> bool) (l : list A) : nat :=
  length (List.filter p l).

(** Terminal reports recorded for the document [f]. *)
Definition terminalsOf (f : TFile) (l : list Event) : nat :=
  countIf (isTerminalOf f) l.

(** An execution counts against the retry budget unless it failed with a
    network-class error. *)
Definition isCountedExecutionOf (f : TFile) (ev : Event) : bool :=
  match ev with
  | Executed op Resolved => bool_decide (file op = f)
  | Executed op (Rejected e) => bool_decide (file op = f) && negb (isNetworkError e)
  | TerminalFailure _ => false
  end.

Definition countedExecutionsOf (f : TFile) (l : list Event) : nat :=
  countIf (isCountedExecutionOf f) l.

(** The queued operations of the document [f]. *)
Definition queuedFor (f : TFile) (q : list SyncOperation) : list SyncOperation :=
  List.filter (fun op => bool_decide (file op = f)) q.

(** *** Sample data *)

(** A world in which every execution is refused by the service. *)
Definition demoFile : TFile :=
  {| path := lit "notes/a.md"; name := lit "a.md"; basename := lit "a" |}.

Definition demoOp : SyncOperation := newOperation upload demoFile None 0.

Definition refused : Error :=
  newError (lit "Request failed, status 400: validation_error").

Definition unreachable : Error :=
  newError (lit "net::ERR_INTERNET_DISCONNECTED network request failed").

Definition demoState (q : list SyncOperation) : State :=
  {| syncQueue := q; isOnline := true; status := synced; log := [] |}.

End SyncQueue.

(** ** The sync queue and what a rejection can be (sync-manager.ts)

    [catch (error)] in [processQueue] receives whatever [executeOperation]
    rejects with, and [isNetworkError] takes it as [any]. The queue above
    follows the rejections that are objects with a string [message]; this
    one follows every rejection. *)

Module Rejections.

Abbreviation SyncOperation := SyncQueue.SyncOperation.
Abbreviation Status := SyncQueue.Status.
Abbreviation retries := SyncQueue.retries.
Abbreviation withRetries := SyncQueue.withRetries.
Abbreviation statusAfterExecute := SyncQueue.statusAfterExecute.

(** What [executeOperation] rejects with, as [isNetworkError] sees it: an
    object with a string [message], or any other value (a string or a
    number thrown as it is, an object without that property), for which
    [error.message.includes] is not a function. *)
Inductive Rejection :=
| WithMessage (e : Error)
| WithoutMessage.

(** How one call of [executeOperation] ended. *)
Inductive Outcome :=
| Resolved
| Rejected (error : Rejection).

Inductive Event :=
| Executed (op : SyncOperation) (o : Outcome)
| TerminalFailure (op : SyncOperation).

Record State := mkState {
  syncQueue : list SyncOperation;
  isOnline : bool;
  status : Status;
  log : list Event
}.

(** The [TypeError] of calling [includes] on what is not a string. *)
Definition notAString : Error :=
  newError (lit "Cannot read properties of undefined (reading 'includes')").

(** [isNetworkError]: the answer, or the exception it throws. *)
Definition isNetworkError (error : Rejection) : Error + bool :=
  match error with
  | WithMessage e => inr (SyncQueue.isNetworkError e)
  | WithoutMessage => inl notAString
  end.

(** How one turn of the [while] loop ends: at its last statement, in
    [break], or in an exception that nothing in [processQueue] catches. *)
Inductive Flow :=
| next
| break
| thrown (e : Error).

Section Queue.

Variable executeOperation : list Event -> SyncOperation -> Outcome.

(** One turn of the loop, entered with the queue [operation :: rest]. An
    exception of [isNetworkError] is thrown inside the [catch] block: it
    leaves [processQueue] with the operation already taken from the queue
    by [shift]; the status is the one the [finally] block of
    [executeOperation] has set. *)
Definition iteration (st : State) (operation : SyncOperation)
    (rest : list SyncOperation) : State * Flow :=
  match executeOperation (log st) operation with
  | Resolved =>
      ({| syncQueue := rest; isOnline := isOnline st;
          status := statusAfterExecute rest;
          log := log st ++ [Executed operation Resolved] |}, next)
  | Rejected error =>
      match isNetworkError error with
      | inl e =>
          ({| syncQueue := rest; isOnline := isOnline st;
              status := statusAfterExecute rest;
              log := log st ++ [Executed operation (Rejected error)] |},
           thrown e)
      | inr true =>
          ({| syncQueue := operation :: rest; isOnline := false;
              status := SyncQueue.offline;
              log := log st ++ [Executed operation (Rejected error)] |}, break)
      | inr false =>
          let operation' := withRetries operation (retries operation + 1) in
          if (retries operation' <? 3)%nat then
            ({| syncQueue := rest ++ [operation']; isOnline := isOnline st;
                status := statusAfterExecute rest;
                log := log st ++ [Executed operation (Rejected error)] |}, next)
          else
            ({| syncQueue := rest; isOnline := isOnline st;
                status := statusAfterExecute rest;
                log := log st ++ [Executed operation (Rejected error);
                                  TerminalFailure operation'] |}, next)
      end
  end.

(** The [while (this.syncQueue.length > 0 && this.isOnline)] loop: how it
    ends and the state it leaves. *)
Fixpoint processLoop (fuel : nat) (st : State) : result unit * State :=
  match syncQueue st, isOnline st with
  | operation :: rest, true =>
      match fuel with
      | O => (OutOfFuel, st)
      | S fuel' =>
          match iteration st operation rest with
          | (st', next) => processLoop fuel' st'
          | (st', break) => (Ok tt, st')
          | (st', thrown e) => (Throw e, st')
          end
      end
  | _, _ => (Ok tt, st)
  end.

Definition setStatus (st : State) (s : Status) : State :=
  {| syncQueue := syncQueue st; isOnline := isOnline st;
     status := s; log := log st |}.

(** [processQueue]: [Ok] when its promise is fulfilled, [Throw] when it is
    rejected; the statements after the loop are not reached then. *)
Definition processQueue (fuel : nat) (st : State) : result unit * State :=
  match syncQueue st with
  | [] => (Ok tt, setStatus st SyncQueue.synced)
  | _ :: _ =>
      match processLoop fuel (setStatus st SyncQueue.syncing) with
      | (Ok _, st') =>
          (Ok tt,
           setStatus st'
             (match syncQueue st' with
              | [] => SyncQueue.synced
              | _ => SyncQueue.offline
              end))
      | (Throw e, st') => (Throw e, st')
      | (OutOfFuel, st') => (OutOfFuel, st')
      end
  end.

(** The five ways one turn of the loop can go. *)
Inductive turn (st : State) (op : SyncOperation) (rest : list SyncOperation)
  : State -> Flow -> Prop :=
| turn_resolved :
    executeOperation (log st) op = Resolved ->
    turn st op rest
      {| syncQueue := rest; isOnline := isOnline st;
         status := statusAfterExecute rest;
         log := log st ++ [Executed op Resolved] |} next
| turn_network e :
    executeOperation (log st) op = Rejected (WithMessage e) ->
    SyncQueue.isNetworkError e = true ->
    turn st op rest
      {| syncQueue := op :: rest; isOnline := false;
         status := SyncQueue.offline;
         log := log st ++ [Executed op (Rejected (WithMessage e))] |} break
| turn_retry e :
    executeOperation (log st) op = Rejected (WithMessage e) ->
    SyncQueue.isNetworkError e = false ->
    (retries op + 1 < 3)%nat ->
    turn st op rest
      {| syncQueue := rest ++ [withRetries op (retries op + 1)];
         isOnline := isOnline st; status := statusAfterExecute rest;
         log := log st ++ [Executed op (Rejected (WithMessage e))] |} next
| turn_dropped e :
    executeOperation (log st) op = Rejected (WithMessage e) ->
    SyncQueue.isNetworkError e = false ->
    (3 <= retries op + 1)%nat ->
    turn st op rest
      {| syncQueue := rest; isOnline := isOnline st;
         status := statusAfterExecute rest;
         log := log st ++ [Executed op (Rejected (WithMessage e));
                           TerminalFailure (withRetries op (retries op + 1))] |}
      next
| turn_lost :
    executeOperation (log st) op = Rejected WithoutMessage ->
    turn st op rest
      {| syncQueue := rest; isOnline := isOnline st;
         status := statusAfterExecute rest;
         log := log st ++ [Executed op (Rejected WithoutMessage)] |}
      (thrown notAString).

(** The loop as a relation: [runs st r st'] when the loop entered in [st]
    ends as [r] says and leaves [st']. *)
Inductive runs : State -> result unit -> State -> Prop :=
| runs_exit st :
    (syncQueue st = [] \/ isOnline st = false) -> runs st (Ok tt) st
| runs_break st op rest st' :
    syncQueue st = op :: rest -> isOnline st = true ->
    turn st op rest st' break -> runs st (Ok tt) st'
| runs_thrown st op rest st' e :
    syncQueue st = op :: rest -> isOnline st = true ->
    turn st op rest st' (thrown e) -> runs st (Throw e) st'
| runs_turn st op rest st1 r st' :
    syncQueue st = op :: rest -> isOnline st = true ->
    turn st op rest st1 next -> runs st1 r st' -> runs st r st'.

End Queue.

(** *** Vocabulary for the properties of the queue *)

(** The operations the queue is done with: those whose execution resolved
    and those reported as terminal failures. *)
Fixpoint settled (l : list Event) : list SyncOperation :=
  match l with
  | [] => []
  | Executed op Resolved :: l' => op :: settled l'
  | Executed _ (Rejected _) :: l' => settled l'
  | TerminalFailure op :: l' => op :: settled l'
  end.


(** Outcomes, events and states of the queue above, as outcomes, events and
    states of this one. *)
Definition ofOutcome (o : SyncQueue.Outcome) : Outcome :=
  match o with
  | SyncQueue.Resolved => Resolved
  | SyncQueue.Rejected e => Rejected (WithMessage e)
  end.

Definition ofEvent (ev : SyncQueue.Event) : Event :=
  match ev with
  | SyncQueue.Executed op o => Executed op (ofOutcome o)
  | SyncQueue.TerminalFailure op => TerminalFailure op
  end.

Definition ofState (st : SyncQueue.State) : State :=
  {| syncQueue := SyncQueue.syncQueue st; isOnline := SyncQueue.isOnline st;
     status := SyncQueue.status st; log := map ofEvent (SyncQueue.log st) |}.

(** *** Sample data *)



Definition demoState (q : list SyncOperation) : State :=
  {| syncQueue := q; isOnline := true; status := SyncQueue.synced; log := [] |}.


End Rejections.

(** ** Notion blocks and the Markdown codec (markdown-converter.ts) *)

Module Codec.

(** [annotations] of a rich-text item; a missing flag is [false]. *)
Record Annotations := mkAnnotations {
  bold : bool;
  italic : bool;
  code : bool;
  strikethrough : bool
}.

Record Link := mkLink { url : option jsstring }.

Record TextObject := mkText {
  content : option jsstring;
  link : option Link
}.

Record RichTextItem := mkItem {
  text : option TextObject;
  annotations : option Annotations
}.

(** What stands where a rich-text array is expected: a truthy value that is
    not an array, or an array whose entries are items or [null]. A missing
    or falsy value is [None] at the place of use. *)
Inductive RichTextField :=
| NotAnArray
| RichTextArray (items : list (option RichTextItem)).

Record UrlHolder := mkUrlHolder { holder_url : option jsstring }.

(** The object under the key named after the block type
    ([block.paragraph], [block.code], [block.image], ...). *)
Record Payload := mkPayload {
  rich_text : option RichTextField;
  language : option jsstring;
  checked : bool;
  file : option UrlHolder;
  external : option UrlHolder;
  caption : option RichTextField
}.

Inductive PropValue :=
| Primitive (isTruthy : bool)
| Object (o : Payload).

(** [NotionBlock]: its three declared fields and, in the order of
    [Object.entries], every other property. *)
Record NotionBlock := mkBlock {
  id : jsstring;
  type : jsstring;
  has_children : bool;
  props : list (jsstring * PropValue)
}.

(** [block[key]] *)
Fixpoint prop (entries : list (jsstring * PropValue)) (key : jsstring)
  : option PropValue :=
  match entries with
  | [] => None
  | (k, v) :: entries' => if bool_decide (k = key) then Some v else prop entries' key
  end.

(** [block[key]?.f] for a field [f] of the payload. *)
Definition payloadOf (block : NotionBlock) (key : jsstring) : option Payload :=
  match prop (props block) key with
  | Some (Object o) => Some o
  | _ => None
  end.

Definition richTextOf (block : NotionBlock) (key : jsstring)
  : option RichTextField :=
  match payloadOf block key with
  | Some o => rich_text o
  | None => None
  end.

(** The [TypeError] of reading a property of [null]. *)
Definition typeError : Error :=
  newError (lit "Cannot read properties of null (reading 'text')").

(** The callback of [richTextArray.map] in [extractRichText]. *)
Definition formatItem (item : RichTextItem) : jsstring :=
  let text0 :=
    match text item with
    | Some t => match content t with Some c => c | None => [] end
    | None => []
    end in
  let flag (f : Annotations -> bool) :=
    match annotations item with Some a => f a | None => false end in
  let text1 := if flag bold then lit "**" ++ text0 ++ lit "**" else text0 in
  let text2 := if flag italic then lit "*" ++ text1 ++ lit "*" else text1 in
  let text3 := if flag code then lit "`" ++ text2 ++ lit "`" else text2 in
  let text4 := if flag strikethrough then lit "~~" ++ text3 ++ lit "~~" else text3 in
  match text item with
  | Some {| link := Some {| url := Some u |} |} =>
      if truthy u then lit "[" ++ text4 ++ lit "](" ++ u ++ lit ")" else text4
  | _ => text4
  end.

Fixpoint mapItems (items : list (option RichTextItem)) : result (list jsstring) :=
  match items with
  | [] => Ok []
  | None :: _ => Throw typeError
  | Some item :: items' =>
      match mapItems items' with
      | Ok texts => Ok (formatItem item :: texts)
      | Throw e => Throw e
      | OutOfFuel => OutOfFuel
      end
  end.

(** [extractRichText] *)
Definition extractRichText (richTextArray : option RichTextField)
  : result jsstring :=
  match richTextArray with
  | None => Ok []
  | Some NotAnArray => Ok []
  | Some (RichTextArray items) =>
      match mapItems items with
      | Ok texts => Ok (concat texts)
      | Throw e => Throw e
      | OutOfFuel => OutOfFuel
      end
  end.

(** [extractAnyRichText]: the rich text of the first property that is an
    object with a truthy [rich_text]. *)
Fixpoint extractAnyRichText_entries (entries : list (jsstring * PropValue))
  : result jsstring :=
  match entries with
  | [] => Ok []
  | (_, Object {| rich_text := Some rt |}) :: _ => extractRichText (Some rt)
  | _ :: entries' => extractAnyRichText_entries entries'
  end.

Definition extractAnyRichText (block : NotionBlock) : result jsstring :=
  extractAnyRichText_entries (props block).

(** [convertTableToMarkdown] *)
Definition convertTableToMarkdown (block : NotionBlock) : jsstring :=
  match prop (props block) (lit "table") with
  | Some (Object _) | Some (Primitive true) =>
      lit "| Table content needs to be fetched from child blocks |"
        ++ [newline] ++ lit "|---|" ++ [newline]
  | _ => []
  end.

(** The [numbering] array. Reading it is always [numbering[i] || 1], for
    which a hole, [undefined] and 0 are the same: a hole is kept as 0. *)
Abbreviation Numbering := (list nat).

Definition currentNumberAt (numbering : Numbering) (i : nat) : nat :=
  match numbering !! i with
  | Some (S n) => S n
  | _ => 1%nat
  end.

(** [numbering[i] = v]: an assignment past the end extends the array. *)
Definition assign (numbering : Numbering) (i v : nat) : Numbering :=
  if (i <? length numbering)%nat then <[i := v]> numbering
  else numbering ++ replicate (i - length numbering) 0%nat ++ [v].

Definition indentOf (indentLevel : nat) : jsstring :=
  Js.repeat (lit "    ") indentLevel.

Definition hasType (block : NotionBlock) (t : string) : bool :=
  bool_decide (type block = lit t).

(** The block types the [switch] of [blockToMarkdown] has a [case] for. *)
Definition handledTypes : list string :=
  ["paragraph"; "heading_1"; "heading_2"; "heading_3"; "bulleted_list_item";
   "numbered_list_item"; "code"; "quote"; "divider"; "table"; "image";
   "to_do"]%string.

Definition handled (block : NotionBlock) : bool :=
  existsb (hasType block) handledTypes.

(** A line made of a prefix, a rich text and a suffix. *)
Definition withText (numbering : Numbering) (before : jsstring)
    (rt : option RichTextField) (after : jsstring)
  : result (jsstring * Numbering) :=
  match extractRichText rt with
  | Ok t => Ok (before ++ t ++ after, numbering)
  | Throw e => Throw e
  | OutOfFuel => OutOfFuel
  end.

(** The [try] block of [blockToMarkdown]: the text appended to [markdown]
    and the numbering array after it. *)
Definition blockToMarkdown_try (block : NotionBlock) (indentLevel : nat)
    (numbering : Numbering) : result (jsstring * Numbering) :=
  let indent := indentOf indentLevel in
  if hasType block "paragraph" then
    withText numbering indent (richTextOf block (lit "paragraph")) [newline]
  else if hasType block "heading_1" then
    withText numbering (lit "# ") (richTextOf block (lit "heading_1")) [newline]
  else if hasType block "heading_2" then
    withText numbering (lit "## ") (richTextOf block (lit "heading_2")) [newline]
  else if hasType block "heading_3" then
    withText numbering (lit "### ") (richTextOf block (lit "heading_3")) [newline]
  else if hasType block "bulleted_list_item" then
    withText numbering (indent ++ lit "- ")
      (richTextOf block (lit "bulleted_list_item")) [newline]
  else if hasType block "numbered_list_item" then
    let currentNumber := currentNumberAt numbering indentLevel in
    match extractRichText (richTextOf block (lit "numbered_list_item")) with
    | Ok t =>
        Ok (indent ++ Js.of_nat currentNumber ++ lit ". " ++ t ++ [newline],
            assign numbering indentLevel (currentNumber + 1))
    | Throw e => Throw e
    | OutOfFuel => OutOfFuel
    end
  else if hasType block "code" then
    let language :=
      match payloadOf block (lit "code") with
      | Some o => match language o with
                  | Some l => l
                  | None => []
                  end
      | None => []
      end in
    withText numbering (lit "```" ++ language ++ [newline])
      (richTextOf block (lit "code")) ([newline] ++ lit "```" ++ [newline])
  else if hasType block "quote" then
    withText numbering (lit "> ") (richTextOf block (lit "quote")) [newline]
  else if hasType block "divider" then
    Ok (lit "---" ++ [newline], numbering)
  else if hasType block "table" then
    Ok (convertTableToMarkdown block ++ [newline], numbering)
  else if hasType block "image" then
    let image := payloadOf block (lit "image") in
    let urlOf (h : option UrlHolder) : option jsstring :=
      match h with
      | Some {| holder_url := Some u |} => if truthy u then Some u else None
      | _ => None
      end in
    let imageUrl :=
      match image with
      | Some o => match urlOf (file o) with
                  | Some u => Some u
                  | None => urlOf (external o)
                  end
      | None => None
      end in
    match extractRichText (match image with Some o => caption o | None => None end) with
    | Ok caption =>
        match imageUrl with
        | Some u =>
            Ok (lit "![" ++ caption ++ lit "](" ++ u ++ lit ")" ++ [newline],
                numbering)
        | None => Ok ([], numbering)
        end
    | Throw e => Throw e
    | OutOfFuel => OutOfFuel
    end
  else if hasType block "to_do" then
    let checked :=
      match payloadOf block (lit "to_do") with
      | Some o => if checked o then lit "[x]" else lit "[ ]"
      | None => lit "[ ]"
      end in
    withText numbering (indent ++ lit "- " ++ checked ++ lit " ")
      (richTextOf block (lit "to_do")) [newline]
  else
    match extractAnyRichText block with
    | Ok [] => Ok ([], numbering)
    | Ok fallbackText => Ok (indent ++ fallbackText ++ [newline], numbering)
    | Throw e => Throw e
    | OutOfFuel => OutOfFuel
    end.

(** The line the [catch] block of [blockToMarkdown] writes. *)
Definition errorLine (block : NotionBlock) (indentLevel : nat) : jsstring :=
  indentOf indentLevel ++ lit "[Error converting block of type: "
    ++ type block ++ lit "]" ++ [newline].

(** [blockToMarkdown] *)
Definition blockToMarkdown (block : NotionBlock) (indentLevel : nat)
    (numbering : Numbering) : result (jsstring * Numbering) :=
  match blockToMarkdown_try block indentLevel numbering with
  | Ok r => Ok r
  | Throw _ => Ok (errorLine block indentLevel, numbering)
  | OutOfFuel => OutOfFuel
  end.

(** [notionBlocksToMarkdown]; the array [numbering] is shared by all the
    blocks of the call. *)
Fixpoint notionBlocksToMarkdown (blocks : list NotionBlock) (indentLevel : nat)
    (numbering : Numbering) : result (jsstring * Numbering) :=
  match blocks with
  | [] => Ok ([], numbering)
  | block :: blocks' =>
      match blockToMarkdown block indentLevel numbering with
      | Ok (md, numbering') =>
          match notionBlocksToMarkdown blocks' indentLevel numbering' with
          | Ok (md', numbering'') => Ok (md ++ md', numbering'')
          | Throw e => Throw e
          | OutOfFuel => OutOfFuel
          end
      | Throw e => Throw e
      | OutOfFuel => OutOfFuel
      end
  end.

Section MarkdownToBlocks.

(** [markdownToBlocks] of the package @tryfabric/martian: the blocks, or
    the exception it throws. *)
Variable markdownToBlocks : jsstring -> Error + list NotionBlock.

(** The block the [catch] of [markdownToNotionBlocks] builds. *)
Definition fallbackBlock (markdown : jsstring) : NotionBlock :=
  {| id := []; type := lit "paragraph"; has_children := false;
     props :=
       [(lit "object", Primitive true);
        (lit "paragraph",
         Object {| rich_text :=
                     Some (RichTextArray
                             [Some {| text := Some {| content := Some markdown;
                                                      link := None |};
                                      annotations := None |}]);
                   language := None; checked := false; file := None;
                   external := None; caption := None |})] |}.

(** [markdownToNotionBlocks] *)
Definition markdownToNotionBlocks (markdown : jsstring)
  : result (list NotionBlock) :=
  match markdownToBlocks markdown with
  | inr blocks => Ok blocks
  | inl _ => Ok [fallbackBlock markdown]
  end.

End MarkdownToBlocks.

(** *** Vocabulary for the properties of the codec *)

(** A numbered item whose line is written (its rich text is extracted
    without an exception). *)
Definition rendersNumber (block : NotionBlock) : bool :=
  hasType block "numbered_list_item" &&
  match extractRichText (richTextOf block (lit "numbered_list_item")) with
  | Ok _ => true
  | _ => false
  end.

Definition renderedNumbers (blocks : list NotionBlock) : nat :=
  length (List.filter rendersNumber blocks).

(** A list item holding the plain text [t]. *)
Definition plainItem (t : jsstring) : option RichTextItem :=
  Some {| text := Some {| content := Some t; link := None |};
          annotations := None |}.

Definition listItem (kind : string) (t : jsstring) : NotionBlock :=
  {| id := []; type := lit kind; has_children := false;
     props := [(lit kind,
                Object {| rich_text := Some (RichTextArray [plainItem t]);
                          language := None; checked := false; file := None;
                          external := None; caption := None |})] |}.

Definition numbered : jsstring -> NotionBlock := listItem "numbered_list_item".
Definition bulleted : jsstring -> NotionBlock := listItem "bulleted_list_item".

(** A text made of whole lines: empty, or ended by a line break. *)
Definition closed (md : jsstring) : Prop :=
  md = [] \/ exists t, md = t ++ [newline].

(** Lines of text, each closed by a newline. *)
Definition lines (ls : list string) : jsstring :=
  concat (map (fun l => lit l ++ [newline]) ls).

(** *** Sample data *)

(** A block of a type the converter has no case for. *)
Definition callout (t : jsstring) : NotionBlock := listItem "callout" t.

End Codec.

(** ** The codec on an array as it arrives (markdown-converter.ts)

    The parameter type [NotionBlock[]] is an annotation: at run time an
    entry of the array handed to [notionBlocksToMarkdown] can be [null] or
    [undefined]. *)

Module Nullable.
Import Codec.

(** The [TypeError] of reading [type] of [null]. *)
Definition nullBlock : Error :=
  newError (lit "Cannot read properties of null (reading 'type')").

(** [blockToMarkdown] on an entry. For [null] or [undefined] the [switch]
    throws on [block.type]; the [catch] block reads [block.type] again, for
    its log entry and for the error line, and this second exception leaves
    the function. *)
Definition blockToMarkdown (block : option NotionBlock) (indentLevel : nat)
    (numbering : Numbering) : result (jsstring * Numbering) :=
  match block with
  | Some block => Codec.blockToMarkdown block indentLevel numbering
  | None => Throw nullBlock
  end.

(** [notionBlocksToMarkdown] on such an array. *)
Fixpoint notionBlocksToMarkdown (blocks : list (option NotionBlock))
    (indentLevel : nat) (numbering : Numbering)
  : result (jsstring * Numbering) :=
  match blocks with
  | [] => Ok ([], numbering)
  | block :: blocks' =>
      match blockToMarkdown block indentLevel numbering with
      | Ok (md, numbering') =>
          match notionBlocksToMarkdown blocks' indentLevel numbering' with
          | Ok (md', numbering'') => Ok (md ++ md', numbering'')
          | Throw e => Throw e
          | OutOfFuel => OutOfFuel
          end
      | Throw e => Throw e
      | OutOfFuel => OutOfFuel
      end
  end.

End Nullable.

(** ** The first converter (DownloadFromNotion.ts) *)

Module Legacy.
Import Codec.

(** [rich_text?.map((text) => text.text.content)] *)
Fixpoint contents (items : list (option RichTextItem)) : result (list jsstring) :=
  match items with
  | [] => Ok []
  | Some {| text := Some t |} :: items' =>
      match contents items' with
      | Ok texts =>
          Ok (match content t with Some c => c | None => [] end :: texts)
      | Throw e => Throw e
      | OutOfFuel => OutOfFuel
      end
  | _ :: _ => Throw typeError
  end.

(** [block[key]?.rich_text?.map(...).join('') || ''] *)
Definition plainText (rt : option RichTextField) : result jsstring :=
  match rt with
  | None => Ok []
  | Some NotAnArray => Throw (newError (lit "rich_text.map is not a function"))
  | Some (RichTextArray items) =>
      match contents items with
      | Ok texts => Ok (concat texts)
      | Throw e => Throw e
      | OutOfFuel => OutOfFuel
      end
  end.

Section Converter.

(** The children the service lists for a block ([getBlockChildren]). *)
Variable getBlockChildren : jsstring -> result (list NotionBlock).

(** [convertTable], whose text comes from the package markdown-table. *)
Variable convertTable : NotionBlock -> result jsstring.

Abbreviation Rendered := (result (jsstring * Numbering)).

Definition line (numbering : Numbering) (before : jsstring)
    (rt : option RichTextField) : Rendered :=
  match plainText rt with
  | Ok t => Ok (before ++ t ++ [newline], numbering)
  | Throw e => Throw e
  | OutOfFuel => OutOfFuel
  end.

(** The children of a list item, rendered one level deeper by [render]. *)
Definition withChildren
    (render : list NotionBlock -> nat -> Numbering -> Rendered)
    (block : NotionBlock) (indentLevel : nat) (own : Rendered) : Rendered :=
  match own with
  | Ok (md, numbering) =>
      if has_children block then
        match getBlockChildren (id block) with
        | Ok childBlocks =>
            match render childBlocks (indentLevel + 1)%nat numbering with
            | Ok (md', numbering') => Ok (md ++ md', numbering')
            | other => other
            end
        | Throw e => Throw e
        | OutOfFuel => OutOfFuel
        end
      else Ok (md, numbering)
  | other => other
  end.

(** [blockToMarkdown]; [render] is [blocksToMarkdown] for the children. *)
Definition blockToMarkdown
    (render : list NotionBlock -> nat -> Numbering -> Rendered)
    (block : NotionBlock) (indentLevel : nat) (numbering : Numbering)
  : Rendered :=
  let indent := indentOf indentLevel in
  if hasType block "paragraph" then
    line numbering indent (richTextOf block (lit "paragraph"))
  else if hasType block "heading_1" then
    line numbering (lit "# ") (richTextOf block (lit "heading_1"))
  else if hasType block "heading_2" then
    line numbering (lit "## ") (richTextOf block (lit "heading_2"))
  else if hasType block "heading_3" then
    line numbering (lit "### ") (richTextOf block (lit "heading_3"))
  else if hasType block "bulleted_list_item" then
    withChildren render block indentLevel
      (line numbering (indent ++ lit "- ")
         (richTextOf block (lit "bulleted_list_item")))
  else if hasType block "numbered_list_item" then
    let currentNumber := currentNumberAt numbering indentLevel in
    withChildren render block indentLevel
      (line (assign numbering indentLevel (currentNumber + 1))
         (indent ++ Js.of_nat currentNumber ++ lit ". ")
         (richTextOf block (lit "numbered_list_item")))
  else if hasType block "table" then
    match convertTable block with
    | Ok t => Ok (t ++ [newline], numbering)
    | Throw e => Throw e
    | OutOfFuel => OutOfFuel
    end
  else Ok ([], numbering).

Fixpoint blocksToMarkdown_each
    (one : NotionBlock -> nat -> Numbering -> Rendered)
    (blocks : list NotionBlock) (indentLevel : nat) (numbering : Numbering)
  : Rendered :=
  match blocks with
  | [] => Ok ([], numbering)
  | block :: blocks' =>
      match one block indentLevel numbering with
      | Ok (md, numbering') =>
          match blocksToMarkdown_each one blocks' indentLevel numbering' with
          | Ok (md', numbering'') => Ok (md ++ md', numbering'')
          | other => other
          end
      | other => other
      end
  end.

(** [blocksToMarkdown], for block trees of depth at most [depth]. *)
Fixpoint blocksToMarkdown (depth : nat) (blocks : list NotionBlock)
    (indentLevel : nat) (numbering : Numbering) : Rendered :=
  blocksToMarkdown_each
    (blockToMarkdown
       (match depth with
        | O => fun _ _ _ => OutOfFuel
        | S depth' => blocksToMarkdown depth'
        end))
    blocks indentLevel numbering.

End Converter.

End Legacy.

(** ** The Notion client (notion-api.ts, validator.ts) *)

Module Page.

Record NameProperty := mkName { title : option Codec.RichTextField }.

Record Properties := mkProperties { Name : option NameProperty }.

(** An entry of a database query, before [isValidNotionPage] has looked at
    it: every field may be missing. *)
Record NotionPage := mkPage {
  id : option jsstring;
  properties : option Properties
}.

End Page.

Module Notion.
Import Codec.

(** [Validator.isValidNotionPage], on an entry that may be [null]. *)
Definition isValidNotionPage (page : option Page.NotionPage) : bool :=
  match page with
  | None => false
  | Some p =>
      truthy_opt (Page.id p) &&
      match Page.properties p with
      | None => false
      | Some ps =>
          match Page.Name ps with
          | None => false
          | Some n =>
              match Page.title n with
              | Some (RichTextArray _) => true
              | _ => false
              end
          end
      end
  end.

(** The requests [makeRequest] sends, by method and resource. *)
Inductive Request :=
| GET_page (pageId : jsstring)
| GET_database (databaseId : jsstring)
| POST_page (databaseId titleProperty title : jsstring)
            (children : list NotionBlock)
| PATCH_page_title (pageId titleProperty title : jsstring)
| GET_children (blockId : jsstring) (start_cursor : option jsstring)
| DELETE_block (blockId : jsstring)
| PATCH_children (parentId : jsstring) (children : list NotionBlock)
| POST_query (databaseId : jsstring) (start_cursor : option jsstring)
| PATCH_archive (pageId : jsstring).

(** A request that changes the remote document. *)
Definition mutates (r : Request) : bool :=
  match r with
  | GET_page _ | GET_database _ | GET_children _ _ | POST_query _ _ => false
  | _ => true
  end.

(** The body of a list answer. *)
Record ListBody (A : Type) := mkList {
  results : option (list A);
  next_cursor : option jsstring
}.
Arguments mkList {A} results next_cursor.
Arguments results {A} l.
Arguments next_cursor {A} l.

Record PageBody := mkPageBody {
  id : option jsstring;
  parent_database_id : option jsstring
}.

(** The schema of a database: the type of each property, by name. *)
Record DatabaseBody := mkDatabaseBody {
  properties : list (jsstring * jsstring)
}.

(** What comes back for a request: the transport fails, or the service
    answers with a status, the message [makeRequest] reads from an error
    body, and a body. *)
Inductive Reply (A : Type) :=
| Unreachable (e : Error)
| Answer (status : Z) (errorMessage : jsstring) (json : option A).
Arguments Unreachable {A} e.
Arguments Answer {A} status errorMessage json.

Record Response (A : Type) := mkResponse {
  status : Z;
  json : option A
}.
Arguments mkResponse {A} status json.
Arguments status {A} r.
Arguments json {A} r.

(** The service. Each answer may depend on the requests sent before. *)
Record Server := mkServer {
  page : list Request -> jsstring -> Reply PageBody;
  database : list Request -> jsstring -> Reply DatabaseBody;
  created : list Request -> Reply PageBody;
  updated : list Request -> jsstring -> Reply unit;
  listed : list Request -> jsstring -> option jsstring
           -> Reply (ListBody NotionBlock);
  deleted : list Request -> jsstring -> Reply unit;
  appended : list Request -> jsstring -> Reply unit;
  queried : list Request -> jsstring -> option jsstring
            -> Reply (ListBody (option Page.NotionPage));
  archived : list Request -> jsstring -> Reply unit
}.

(** A computation that sends requests: from the requests sent so far to an
    outcome and the requests sent after it. *)
Definition M (A : Type) : Type := list Request -> result A * list Request.

Definition ret {A : Type} (a : A) : M A := fun sent => (Ok a, sent).

Definition throw {A : Type} (e : Error) : M A := fun sent => (Throw e, sent).

Definition outOfFuel {A : Type} : M A := fun sent => (OutOfFuel, sent).

Definition bind {A B : Type} (m : M A) (k : A -> M B) : M B :=
  fun sent =>
    match m sent with
    | (Ok a, sent') => k a sent'
    | (Throw e, sent') => (Throw e, sent')
    | (OutOfFuel, sent') => (OutOfFuel, sent')
    end.

(** [try { m } catch (error) { handler }] *)
Definition tryCatch {A : Type} (m : M A) (handler : Error -> M A) : M A :=
  fun sent =>
    match m sent with
    | (Throw e, sent') => handler e sent'
    | other => other
    end.

Notation "x <- m ;; k" := (bind m (fun x => k))
  (at level 100, m at next level, right associativity).

(** [for (const x of l) { await body(x) }] *)
Fixpoint forEach {A : Type} (l : list A) (body : A -> M unit) : M unit :=
  match l with
  | [] => ret tt
  | x :: l' => _ <- body x ;; forEach l' body
  end.

(** [makeRequest]: the request is sent; a transport failure and a status
    from 400 on are thrown. ([Validator.isValidNotionResponse] holds of
    every answer that has a status.) *)
Definition makeRequest {A : Type} (request : Request)
    (reply : list Request -> Reply A) : M (Response A) :=
  fun sent =>
    let sent' := sent ++ [request] in
    match reply sent with
    | Unreachable e => (Throw e, sent')
    | Answer status errorMessage json =>
        if 400 <=? status then
          (Throw (newError (lit "Request failed, status " ++ Js.of_Z status
                              ++ lit ": " ++ errorMessage)), sent')
        else (Ok (mkResponse status json), sent')
    end.

Definition failed (what : string) (status : Z) : Error :=
  newError (lit what ++ Js.of_Z status).

(** [blocks.slice(a, b)] for [0 <= a <= b]. *)
Definition slice {A : Type} (l : list A) (a b : nat) : list A :=
  take (b - a) (drop a l).

Definition batchSize : nat := 10.

Section Client.

Variable server : Server.

(** [cursor ? cursor : undefined]: what goes into the request. *)
Definition sentCursor (cursor : option jsstring) : option jsstring :=
  if truthy_opt cursor then cursor else None.

(** The [do ... while (cursor)] loop of [getPageBlocks]. *)
Fixpoint getPageBlocks_loop (fuel : nat) (pageId : jsstring)
    (allBlocks : list NotionBlock) (cursor : option jsstring)
  : M (list NotionBlock) :=
  match fuel with
  | O => outOfFuel
  | S fuel' =>
      response <- makeRequest (GET_children pageId (sentCursor cursor))
                    (fun sent => listed server sent pageId (sentCursor cursor)) ;;
      match status response =? 200, json response with
      | true, Some {| results := Some rs; next_cursor := next |} =>
          if truthy_opt next
          then getPageBlocks_loop fuel' pageId (allBlocks ++ rs) next
          else ret (allBlocks ++ rs)
      | _, _ => throw (failed "Failed to get page blocks: " (status response))
      end
  end.

(** [getPageBlocks] *)
Definition getPageBlocks (fuel : nat) (pageId : jsstring) : M (list NotionBlock) :=
  getPageBlocks_loop fuel pageId [] None.

(** The [do ... while (cursor)] loop of [queryDatabase]. *)
Fixpoint queryDatabase_loop (fuel : nat) (databaseId : jsstring)
    (allPages : list (option Page.NotionPage)) (cursor : option jsstring)
  : M (list (option Page.NotionPage)) :=
  match fuel with
  | O => outOfFuel
  | S fuel' =>
      response <- makeRequest (POST_query databaseId (sentCursor cursor))
                    (fun sent => queried server sent databaseId (sentCursor cursor)) ;;
      match status response =? 200, json response with
      | true, Some {| results := Some rs; next_cursor := next |} =>
          let validPages := List.filter isValidNotionPage rs in
          if truthy_opt next
          then queryDatabase_loop fuel' databaseId (allPages ++ validPages) next
          else ret (allPages ++ validPages)
      | _, _ => throw (failed "Failed to query database: " (status response))
      end
  end.

(** [queryDatabase] *)
Definition queryDatabase (fuel : nat) (databaseId : jsstring)
  : M (list (option Page.NotionPage)) :=
  queryDatabase_loop fuel databaseId [] None.

(** [deleteBlock] *)
Definition deleteBlock (blockId : jsstring) : M unit :=
  response <- makeRequest (DELETE_block blockId)
                (fun sent => deleted server sent blockId) ;;
  if status response =? 200 then ret tt
  else throw (failed "Failed to delete block: " (status response)).

(** [clearPageBlocks] *)
Definition clearPageBlocks (fuel : nat) (pageId : jsstring) : M unit :=
  blocks <- getPageBlocks fuel pageId ;;
  forEach (rev blocks) (fun block => deleteBlock (Codec.id block)).

(** The [for] loop of [appendBlocks], from index [i] on. *)
Equations? appendBlocks_from (parentId : jsstring) (blocks : list NotionBlock)
    (i : nat) (sent : list Request) : result unit * list Request
    by wf (length blocks - i)%nat lt :=
appendBlocks_from parentId blocks i sent with lt_dec i (length blocks) := {
  | right _ => (Ok tt, sent)
  | left _
      with makeRequest (PATCH_children parentId (slice blocks i (i + batchSize)))
             (fun sent => appended server sent parentId) sent := {
      | (Ok response, sent') with Z.eq_dec (status response) 200 := {
          | left _ => appendBlocks_from parentId blocks (i + batchSize)%nat sent'
          | right _ =>
              (Throw (failed "Failed to append blocks: " (status response)), sent') }
      | (Throw e, sent') => (Throw e, sent')
      | (OutOfFuel, sent') => (OutOfFuel, sent') } }.
Proof. unfold batchSize. lia. Qed.

(** [appendBlocks] *)
Definition appendBlocks (parentId : jsstring) (blocks : list NotionBlock) : M unit :=
  appendBlocks_from parentId blocks 0.

(** [getDatabaseSchema] *)
Definition getDatabaseSchema (databaseId : jsstring) : M DatabaseBody :=
  response <- makeRequest (GET_database databaseId)
                (fun sent => database server sent databaseId) ;;
  match status response =? 200, json response with
  | true, Some schema => ret schema
  | _, _ => throw (failed "Failed to get database schema: " (status response))
  end.

Fixpoint typeOfProperty (schema : list (jsstring * jsstring)) (name : jsstring)
  : option jsstring :=
  match schema with
  | [] => None
  | (n, t) :: schema' =>
      if bool_decide (n = name) then Some t else typeOfProperty schema' name
  end.

Fixpoint findTitleProperty (schema : list (jsstring * jsstring))
  : option jsstring :=
  match schema with
  | [] => None
  | (n, t) :: schema' =>
      if bool_decide (t = lit "title") then Some n else findTitleProperty schema'
  end.

(** The property that receives the title: [Name], [Title], the first
    property of type title, or [Name] again. *)
Definition titlePropertyOf (schema : option DatabaseBody) : jsstring :=
  match schema with
  | None => lit "Name"
  | Some db =>
      if bool_decide (typeOfProperty (properties db) (lit "Name")
                      = Some (lit "title")) then lit "Name"
      else if bool_decide (typeOfProperty (properties db) (lit "Title")
                           = Some (lit "title")) then lit "Title"
      else match findTitleProperty (properties db) with
           | Some n => n
           | None => lit "Name"
           end
  end.

(** The [try] of [updatePage]: the schema of the database the page is in,
    [undefined] when it cannot be had. *)
Definition pageSchema (pageId : jsstring) : M (option DatabaseBody) :=
  tryCatch
    (pageResponse <- makeRequest (GET_page pageId)
                       (fun sent => page server sent pageId) ;;
     match json pageResponse with
     | Some {| parent_database_id := Some databaseId |} =>
         if truthy databaseId
         then (db <- getDatabaseSchema databaseId ;; ret (Some db))
         else ret None
     | _ => ret None
     end)
    (fun _ => ret None).

(** [updatePage] *)
Definition updatePage (pageId title : jsstring) : M unit :=
  schema <- pageSchema pageId ;;
  response <- makeRequest (PATCH_page_title pageId (titlePropertyOf schema) title)
                (fun sent => updated server sent pageId) ;;
  if status response =? 200 then ret tt
  else throw (failed "Failed to update page: " (status response)).

(** [createPage] *)
Definition createPage (databaseId title : jsstring) (blocks : list NotionBlock)
  : M jsstring :=
  schema <- tryCatch (db <- getDatabaseSchema databaseId ;; ret (Some db))
              (fun _ => ret None) ;;
  response <- makeRequest
                (POST_page databaseId (titlePropertyOf schema) title blocks)
                (fun sent => created server sent) ;;
  match status response =? 200, json response with
  | true, Some {| id := Some newId |} =>
      if truthy newId then ret newId
      else throw (failed "Failed to create page: " (status response))
  | _, _ => throw (failed "Failed to create page: " (status response))
  end.

(** [deletePage]: the page is archived. *)
Definition deletePage (pageId : jsstring) : M unit :=
  response <- makeRequest (PATCH_archive pageId)
                (fun sent => archived server sent pageId) ;;
  if status response =? 200 then ret tt
  else throw (failed "Failed to archive page: " (status response)).

End Client.

(** *** Vocabulary for the properties of the client *)

(** The pages a list endpoint hands out when its cursors are followed from
    [cursor] on, the requests sent so far being [sent]: every answer has
    status 200 and a [results] array, every answer but the last a truthy
    [next_cursor]. [sent'] is [sent] with one request per page added. *)
Inductive follows {A : Type}
    (reply : list Request -> option jsstring -> Reply (ListBody A))
    (request : option jsstring -> Request)
  : list Request -> option jsstring -> list (list A) -> list Request -> Prop :=
| follows_last sent cursor rs next msg :
    reply sent (sentCursor cursor) = Answer 200 msg (Some (mkList (Some rs) next)) ->
    truthy_opt next = false ->
    follows reply request sent cursor [rs] (sent ++ [request (sentCursor cursor)])
| follows_next sent cursor rs next msg pages sent' :
    reply sent (sentCursor cursor) = Answer 200 msg (Some (mkList (Some rs) next)) ->
    truthy_opt next = true ->
    follows reply request (sent ++ [request (sentCursor cursor)]) next pages sent' ->
    follows reply request sent cursor (rs :: pages) sent'.

(** A computation only adds to the requests sent. *)
Definition extends {A : Type} (m : M A) : Prop :=
  forall sent, exists more, (m sent).2 = sent ++ more.

(** *** Sample data *)

(** A service with two pages of everything, which accepts every change. *)
Definition twoPages {A : Type} (first second : list A)
    (cursor : option jsstring) : Reply (ListBody A) :=
  match cursor with
  | None => Answer 200 [] (Some (mkList (Some first) (Some (lit "cursor-2"))))
  | Some _ => Answer 200 [] (Some (mkList (Some second) None))
  end.

Definition titled (pageId title : string) : option Page.NotionPage :=
  Some {| Page.id := Some (lit pageId);
          Page.properties :=
            Some {| Page.Name :=
                      Some {| Page.title :=
                                Some (RichTextArray [plainItem (lit title)]) |} |} |}.

Definition untitled (pageId : string) : option Page.NotionPage :=
  Some {| Page.id := Some (lit pageId); Page.properties := None |}.

Definition child (blockId : string) : NotionBlock :=
  {| Codec.id := lit blockId; type := lit "paragraph"; has_children := false;
     props := [] |}.

Definition demoServer : Server :=
  {| page := fun _ _ => Answer 200 [] (Some (mkPageBody None None));
     database := fun _ _ => Answer 404 (lit "object_not_found") None;
     created := fun _ => Answer 200 [] (Some (mkPageBody (Some (lit "new")) None));
     updated := fun _ _ => Answer 200 [] None;
     listed := fun _ _ => twoPages [child "b1"; child "b2"] [child "b3"];
     deleted := fun _ _ => Answer 200 [] None;
     appended := fun _ _ => Answer 200 [] None;
     queried := fun _ _ =>
       twoPages [titled "p1" "a.md:a"; None; untitled "p2"] [titled "p3" "b.md:b"];
     archived := fun _ _ => Answer 200 [] None |}.


End Notion.

(** ** Download and upload (download-service.ts, sync-manager.ts) *)

Module Services.
Import Codec Notion.

(** [Validator.validateFilePath]: none of the characters of the class
    [invalidChars] (less-than, greater-than, colon, double quote, bar,
    question mark, star), and the extension [.md]. *)
Definition invalidChars : jsstring :=
  lit "<>:" ++ [34%N] ++ lit "|?*".

Definition validateFilePath (filePath : jsstring) : bool :=
  negb (existsb (fun c => existsb (N.eqb c) invalidChars) filePath)
  && endsWith (lit ".md") filePath.

(** [s.replace(/-/g, '')] *)
Definition withoutDashes (s : jsstring) : jsstring :=
  List.filter (fun c => negb (N.eqb c 45)) s.

(** White space and line terminators, as [trim] sees them. *)
Definition isSpace (c : N) : bool :=
  existsb (N.eqb c)
    [9; 10; 11; 12; 13; 32; 160; 5760; 8232; 8233; 8239; 8287; 12288; 65279]%N
  || ((8192 <=? c) && (c <=? 8202))%N.

Fixpoint trimStart (s : jsstring) : jsstring :=
  match s with
  | c :: s' => if isSpace c then trimStart s' else s
  | [] => []
  end.

(** [s.trim()] *)
Definition trim (s : jsstring) : jsstring :=
  rev (trimStart (rev (trimStart s))).

(** [ToInt32], the integer a bitwise operator works on. *)
Definition toInt32 (z : Z) : Z :=
  let m := z mod 2 ^ 32 in
  if m <? 2 ^ 31 then m else m - 2 ^ 32.

(** [simpleHash]: [hash = ((hash << 5) - hash) + char; hash = hash & hash]
    over the code units, printed in decimal. *)
Definition simpleHash_step (hash : Z) (char : N) : Z :=
  toInt32 (toInt32 (hash * 32) - hash + Z.of_N char).

Definition simpleHash (str : jsstring) : jsstring :=
  Js.of_Z (fold_left simpleHash_step str 0).

(** The title of the remote page of a file: [`${file.path}:${file.basename}`]. *)
Definition titleOf (file : SyncQueue.TFile) : jsstring :=
  SyncQueue.path file ++ [colon] ++ SyncQueue.basename file.

(** What the vault is asked to do. *)
Inductive VaultWrite :=
| Mkdir (dirPath : jsstring)
| Modify (path fileContent : jsstring)
| Create (path fileContent : jsstring).

(** What the vault answers, given what was written so far:
    [adapter.exists(path)] and whether [getAbstractFileByPath(path)] is a
    file. *)
Record Vault := mkVault {
  adapter_exists : list VaultWrite -> jsstring -> bool;
  isFile : list VaultWrite -> jsstring -> bool
}.

Record SyncResult := mkResult {
  success : bool;
  fileName : jsstring;
  notionId : option jsstring;
  error : option jsstring;
  operation : jsstring
}.

(** [page.properties.Name] followed by
    [titleProperty?.title?.[0]?.text?.content]; reading [Name] of missing
    [properties] throws. *)
Definition fullTitleOf (page : Page.NotionPage) : result jsstring :=
  match Page.properties page with
  | None => Throw typeError
  | Some ps =>
      match Page.Name ps with
      | Some {| Page.title :=
                  Some (RichTextArray
                          (Some {| text := Some {| content := Some c |} |} :: _)) |} =>
          if truthy c then Ok c
          else Throw (newError (lit "Page has no valid title"))
      | _ => Throw (newError (lit "Page has no valid title"))
      end
  end.

(** The split of the title at its last colon, and the check of the path. *)
Definition splitTitle (fullTitle : jsstring) : result (jsstring * jsstring) :=
  let separatorIndex := lastIndexOf colon fullTitle in
  if separatorIndex =? -1 then
    Throw (newError (lit "Page title does not contain path separator"))
  else
    let filePath := substring fullTitle 0 separatorIndex in
    let fileName := substring_from fullTitle (separatorIndex + 1) in
    if negb (validateFilePath filePath) then
      Throw (newError (lit "Invalid file path: " ++ filePath))
    else Ok (filePath, fileName).

(** The [catch] block of [downloadPage]. *)
Definition downloadFailure (e : Error) : SyncResult :=
  {| success := false; fileName := lit "unknown"; notionId := None;
     error := Some (message e); operation := lit "download" |}.

(** A note as [parseMarkdownWithFrontmatter] reads it: the fields of the
    header (their values as strings) and the body. *)
Record Note := mkNote {
  frontmatter : list (jsstring * jsstring);
  noteContent : jsstring
}.

(** [frontmatter[key]] *)
Fixpoint field (fm : list (jsstring * jsstring)) (key : jsstring)
  : option jsstring :=
  match fm with
  | [] => None
  | (k, v) :: fm' => if bool_decide (k = key) then Some v else field fm' key
  end.

(** [{ ...frontmatter, key: value }]: a field that is there keeps its place,
    a new one goes last. *)
Fixpoint setField (fm : list (jsstring * jsstring)) (key value : jsstring)
  : list (jsstring * jsstring) :=
  match fm with
  | [] => [(key, value)]
  | (k, v) :: fm' =>
      if bool_decide (k = key) then (k, value) :: fm'
      else (k, v) :: setField fm' key value
  end.

Definition linkOf (pageId : jsstring) : jsstring :=
  lit "https://www.notion.so/" ++ withoutDashes pageId.

Section Sync.

Variable server : Server.
Variable vault : Vault.

(** [normalizePath] and [stringifyYaml] of the Obsidian API. *)
Variable normalizePath : jsstring -> jsstring.
Variable stringifyYaml : list (jsstring * jsstring) -> jsstring.

(** [new Date().toISOString()] *)
Variable now : jsstring.

(** [markdownToBlocks] of the package @tryfabric/martian. *)
Variable markdownToBlocks : jsstring -> Error + list NotionBlock.

(** [JSON.stringify] of a list of blocks. *)
Variable stringify : list NotionBlock -> jsstring.

(** [this.plugin.settings.databaseID] *)
Variable databaseID : jsstring.

(** The [try] block of [DownloadService.downloadPage], from the requests
    sent and the writes done so far. What is written to the vault is
    recorded and taken to succeed. *)
Definition downloadPage_try (fuel : nat) (page : Page.NotionPage)
    (sent : list Request) (written : list VaultWrite)
  : result SyncResult * list Request * list VaultWrite :=
  match fullTitleOf page with
  | Throw e => (Throw e, sent, written)
  | OutOfFuel => (OutOfFuel, sent, written)
  | Ok fullTitle =>
      match splitTitle fullTitle with
      | Throw e => (Throw e, sent, written)
      | OutOfFuel => (OutOfFuel, sent, written)
      | Ok (filePath, fileName) =>
          let requested :=
            match Page.id page with Some i => i | None => lit "undefined" end in
          match getPageBlocks server fuel requested sent with
          | (Throw e, sent') => (Throw e, sent', written)
          | (OutOfFuel, sent') => (OutOfFuel, sent', written)
          | (Ok blocks, sent') =>
              match notionBlocksToMarkdown blocks 0 [], Page.id page with
              | Ok (content, _), Some pageId =>
                  let frontmatter :=
                    [(lit "notionID", pageId); (lit "link", linkOf pageId);
                     (lit "lastSync", now); (lit "filePath", filePath)] in
                  let yamlHeader := trim (stringifyYaml frontmatter) in
                  let fileContent :=
                    lit "---" ++ [newline] ++ yamlHeader ++ [newline]
                      ++ lit "---" ++ [newline] ++ content in
                  let normalizedPath := normalizePath filePath in
                  let dirPath :=
                    substring normalizedPath 0 (lastIndexOf 47%N normalizedPath) in
                  let written1 :=
                    if truthy dirPath && negb (adapter_exists vault written dirPath)
                    then written ++ [Mkdir dirPath] else written in
                  let written2 :=
                    if isFile vault written1 normalizedPath
                    then written1 ++ [Modify normalizedPath fileContent]
                    else written1 ++ [Create normalizedPath fileContent] in
                  (Ok {| success := true; fileName := fileName;
                         notionId := Some pageId; error := None;
                         operation := lit "download" |}, sent', written2)
              | Ok _, None => (Throw typeError, sent', written)
              | Throw e, _ => (Throw e, sent', written)
              | OutOfFuel, _ => (OutOfFuel, sent', written)
              end
          end
      end
  end.

(** [DownloadService.downloadPage] *)
Definition downloadPage (fuel : nat) (page : Page.NotionPage)
    (sent : list Request) (written : list VaultWrite)
  : result SyncResult * list Request * list VaultWrite :=
  match downloadPage_try fuel page sent written with
  | (Throw e, sent', written') => (Ok (downloadFailure e), sent', written')
  | other => other
  end.

(** [getNotionPageData]: the blocks of the page, [null] when the request
    fails. *)
Definition getNotionPageData (fuel : nat) (notionId : jsstring)
  : M (option (list NotionBlock)) :=
  tryCatch (blocks <- getPageBlocks server fuel notionId ;; ret (Some blocks))
    (fun _ => ret None).

(** [getNotionContentHash] *)
Definition getNotionContentHash (notionData : option (list NotionBlock))
  : jsstring :=
  match notionData with
  | Some blocks => simpleHash (stringify blocks)
  | None => []
  end.

(** [updateSyncMetadata]: the note it writes back to the file. *)
Definition updateSyncMetadata (fuel : nat) (note : Note) (notionId : jsstring)
  : M Note :=
  let currentHash := simpleHash (noteContent note) in
  notionData <- getNotionPageData fuel notionId ;;
  let notionHash := getNotionContentHash notionData in
  let fm1 := setField (frontmatter note) (lit "notionID") notionId in
  let fm2 := setField fm1 (lit "lastSync") now in
  let fm3 := setField fm2 (lit "localChecksum") currentHash in
  let fm4 := setField fm3 (lit "notionChecksum") notionHash in
  let fm5 := setField fm4 (lit "link") (linkOf notionId) in
  ret {| frontmatter := fm5; noteContent := noteContent note |}.

(** [SyncManager.uploadFile], for a file whose text parses to [note]. The
    result is the note that [updateSyncMetadata] writes back to the file. *)
Definition uploadFile (fuel : nat) (file : SyncQueue.TFile) (note : Note)
  : M Note :=
  let blocks :=
    match markdownToNotionBlocks markdownToBlocks (noteContent note) with
    | Ok blocks => blocks
    | _ => []
    end in
  let title := titleOf file in
  notionId <-
    match field (frontmatter note) (lit "notionID") with
    | Some (c :: existing) =>
        _ <- updatePage server (c :: existing) title ;;
        _ <- clearPageBlocks server fuel (c :: existing) ;;
        _ <- appendBlocks server (c :: existing) blocks ;;
        ret (c :: existing)
    | _ => createPage server databaseID title blocks
    end ;;
  updateSyncMetadata fuel note notionId.

End Sync.

(** *** Sample data *)

(** A vault with nothing in it, and stand-ins for the functions of the
    Obsidian API and of the JavaScript runtime. *)
Definition emptyVault : Vault :=
  {| adapter_exists := fun _ _ => false; isFile := fun _ _ => false |}.

Definition yamlLines (fm : list (jsstring * jsstring)) : jsstring :=
  concat (map (fun kv => kv.1 ++ lit ": " ++ kv.2 ++ [newline]) fm).

Definition oneParagraph (markdown : jsstring) : Error + list NotionBlock :=
  inr [listItem "paragraph" markdown].

Definition countBlocks (blocks : list NotionBlock) : jsstring :=
  Js.of_nat (length blocks).

Definition timestamp : jsstring := lit "2024-05-25T10:00:00.000Z".

Definition projectFile : SyncQueue.TFile :=
  {| SyncQueue.path := lit "projects/x.md"; SyncQueue.name := lit "x.md";
     SyncQueue.basename := lit "x" |}.

(** A note that says it is in sync: bound to the page [page], with the hash
    of its body ([simpleHash] of [hello] is 99162322) and its own path. *)
Definition syncedNote : Note :=
  {| frontmatter :=
       [(lit "notionID", lit "page");
        (lit "localChecksum", lit "99162322");
        (lit "contentHash", lit "99162322");
        (lit "filePath", lit "notes/a.md")];
     noteContent := lit "hello" |}.

End Services.

(** ** Sequences of calls on the queue *)

Module QueueRuns.
Import SyncQueue.

(** What [queueOperation] is called with. *)
Record Enqueue := mkEnqueue {
  enqType : OpType;
  enqFile : TFile;
  enqData : option OpData;
  enqTime : Z
}.

Definition operationOf (e : Enqueue) : SyncOperation :=
  newOperation (enqType e) (enqFile e) (enqData e) (enqTime e).

Section Calls.

Variable executeOperation : list Event -> SyncOperation -> Outcome.

(** One call of [queueOperation] after the other. *)
Fixpoint queueOperations (fuel : nat) (st : State) (calls : list Enqueue)
  : option State :=
  match calls with
  | [] => Some st
  | e :: calls' =>
      match queueOperation executeOperation fuel st
              (enqType e) (enqFile e) (enqData e) (enqTime e) with
      | Some st' => queueOperations fuel st' calls'
      | None => None
      end
  end.

End Calls.

(** The terminal reports among the events. *)
Fixpoint reported (l : list Event) : list SyncOperation :=
  match l with
  | [] => []
  | TerminalFailure op :: l' => op :: reported l'
  | Executed _ _ :: l' => reported l'
  end.

End QueueRuns.

(** ** Vocabulary for further properties of hashes and requests *)

Module Criteria.
Import Notion Services.

(** The polynomial of the code units with base 31, not reduced. *)
Definition polyHash_step (h : Z) (c : N) : Z := 31 * h + Z.of_N c.

Definition polyHash (str : jsstring) : Z := fold_left polyHash_step str 0.

(** Every request a computation adds satisfies [P]. *)
Definition sendsOnly {A : Type} (P : Request -> Prop) (m : M A) : Prop :=
  forall sent, exists more, (m sent).2 = sent ++ more /\ Forall P more.

(** A request that leaves the remote documents as they are. *)
Definition reads (r : Request) : Prop := mutates r = false.

(** The search strings of [isNetworkError]. *)
Definition networkWords (msg : jsstring) : bool :=
  includes (lit "network") msg || includes (lit "fetch") msg
  || includes (lit "timeout") msg.

(** The messages the client puts before a status of its own errors. *)
Definition clientFailures : list string :=
  ["Failed to get page blocks: "; "Failed to query database: ";
   "Failed to delete block: "; "Failed to append blocks: ";
   "Failed to get database schema: "; "Failed to update page: ";
   "Failed to create page: "; "Failed to archive page: "]%string.

End Criteria.

(** ** The manual passes of the plugin (main.ts) *)

Module Main.
Import Codec Notion Services.

(** [calculateContentHash]: the loop of [simpleHash] once more. *)
Definition calculateContentHash (content : jsstring) : jsstring :=
  Js.of_Z (fold_left simpleHash_step content 0).

(** A markdown file of the vault: [vault.read] throws ([None]) or gives a
    text that [parseMarkdownWithFrontmatter] reads as a note. *)
Record VaultFile := mkVaultFile {
  tfile : SyncQueue.TFile;
  readNote : option Note
}.

(** The three tests of [filterFilesForUpload] on one file. *)
Definition needsUpload (file : SyncQueue.TFile) (note : Note) : bool :=
  let currentContentHash := calculateContentHash (noteContent note) in
  if negb (truthy_opt (field (frontmatter note) (lit "notionID"))) then true
  else if negb (bool_decide (field (frontmatter note) (lit "contentHash")
                             = Some currentContentHash)) then true
  else if negb (bool_decide (field (frontmatter note) (lit "filePath")
                             = Some (SyncQueue.path file))) then true
  else false.

(** [filterFilesForUpload]; a file that cannot be read is left out. *)
Fixpoint filterFilesForUpload_from (files : list VaultFile)
    (filesToUpload : list SyncQueue.TFile) : list SyncQueue.TFile :=
  match files with
  | [] => filesToUpload
  | f :: files' =>
      match readNote f with
      | Some note =>
          if needsUpload (tfile f) note
          then filterFilesForUpload_from files' (filesToUpload ++ [tfile f])
          else filterFilesForUpload_from files' filesToUpload
      | None => filterFilesForUpload_from files' filesToUpload
      end
  end.

Definition filterFilesForUpload (files : list VaultFile)
  : list SyncQueue.TFile :=
  filterFilesForUpload_from files [].

(** The first loop of [cleanupDeletedFiles]: the remote ids that a local
    file carries. *)
Fixpoint currentNotionIds (currentFiles : list VaultFile) : list jsstring :=
  match currentFiles with
  | [] => []
  | f :: files' =>
      match readNote f with
      | Some note =>
          match field (frontmatter note) (lit "notionID") with
          | Some notionID =>
              if truthy notionID then notionID :: currentNotionIds files'
              else currentNotionIds files'
          | None => currentNotionIds files'
          end
      | None => currentNotionIds files'
      end
  end.

(** The second loop: the ids of the pages that no local file carries.
    Reading [id] of a [null] entry throws. *)
Fixpoint pagesToDelete (ids : list jsstring)
    (allNotionPages : list (option Page.NotionPage)) : result (list jsstring) :=
  match allNotionPages with
  | [] => Ok []
  | None :: _ => Throw typeError
  | Some page :: pages' =>
      match pagesToDelete ids pages' with
      | Ok rest =>
          match Page.id page with
          | Some notionId =>
              if bool_decide (notionId ∈ ids) then Ok rest
              else Ok (notionId :: rest)
          | None => Ok (lit "undefined" :: rest)
          end
      | other => other
      end
  end.

(** The result of [uploadSingleFile]. *)
Record SingleResult := mkSingleResult {
  succeeded : bool;
  uploadedName : jsstring;
  failure : option jsstring
}.

(** A file found by [filterFilesForDownload]. [localNote] is what the file
    reads as, in the filter and again in [pullFromNotion]. *)
Record Download := mkDownload {
  file : SyncQueue.TFile;
  localNote : Note;
  notionId : jsstring;
  notionContent : jsstring
}.

(** The test of [filterFilesForDownload] once the page is rendered. *)
Definition needsDownload (note : Note) (notionContent : jsstring) : bool :=
  let localContentHash := calculateContentHash (noteContent note) in
  let notionContentHash := calculateContentHash notionContent in
  negb (bool_decide (field (frontmatter note) (lit "contentHash")
                     = Some notionContentHash))
  && negb (bool_decide (localContentHash = notionContentHash)).

Section Passes.

Variable server : Server.

(** [new Date().toISOString()] *)
Variable now : jsstring.

(** [markdownToBlocks] of the package @tryfabric/martian. *)
Variable markdownToBlocks : jsstring -> Error + list NotionBlock.

(** [this.settings.databaseID] *)
Variable databaseID : jsstring.

(** [cleanupDeletedFiles] *)
Definition cleanupDeletedFiles (fuel : nat) (currentFiles : list VaultFile)
  : M unit :=
  let ids := currentNotionIds currentFiles in
  tryCatch
    (allNotionPages <- queryDatabase server fuel databaseID ;;
     match pagesToDelete ids allNotionPages with
     | Ok orphaned =>
         forEach orphaned
           (fun notionId =>
              tryCatch (deletePage server notionId) (fun _ => ret tt))
     | Throw e => throw e
     | OutOfFuel => outOfFuel
     end)
    (fun _ => ret tt).

(** [updateFileMetadata]: the note written to the file; the write is taken
    to succeed. *)
Definition updateFileMetadata (file : SyncQueue.TFile) (notionId : jsstring)
    (existingFrontmatter : list (jsstring * jsstring)) (content : jsstring)
  : Note :=
  let contentHash := calculateContentHash content in
  let fm1 := setField existingFrontmatter (lit "notionID") notionId in
  let fm2 := setField fm1 (lit "link") (linkOf notionId) in
  let fm3 := setField fm2 (lit "lastSync") now in
  let fm4 := setField fm3 (lit "filePath") (SyncQueue.path file) in
  let fm5 := setField fm4 (lit "contentHash") contentHash in
  {| frontmatter := fm5; noteContent := content |}.

(** [uploadSingleFile], for a file whose text reads as [note]: the result
    and the note written to the file, if one is. *)
Definition uploadSingleFile (fuel : nat) (file : SyncQueue.TFile) (note : Note)
  : M (SingleResult * option Note) :=
  let blocks :=
    match markdownToNotionBlocks markdownToBlocks (noteContent note) with
    | Ok blocks => blocks
    | _ => []
    end in
  let title := titleOf file in
  tryCatch
    (notionId <-
       match field (frontmatter note) (lit "notionID") with
       | Some (c :: existing) =>
           _ <- updatePage server (c :: existing) title ;;
           _ <- clearPageBlocks server fuel (c :: existing) ;;
           _ <- appendBlocks server (c :: existing) blocks ;;
           ret (c :: existing)
       | _ => createPage server databaseID title blocks
       end ;;
     ret ({| succeeded := true; uploadedName := SyncQueue.name file;
             failure := None |},
          Some (updateFileMetadata file notionId (frontmatter note)
                  (noteContent note))))
    (fun error =>
       ret ({| succeeded := false; uploadedName := SyncQueue.name file;
               failure := Some (if truthy (message error) then message error
                                else lit "Unknown error occurred") |},
            None)).

(** The body of the loop of [filterFilesForDownload]. *)
Definition checkForDownload (fuel : nat) (f : VaultFile) : M (option Download) :=
  match readNote f with
  | None => ret None
  | Some note =>
      match field (frontmatter note) (lit "notionID") with
      | Some (c :: notionID) =>
          tryCatch
            (notionBlocks <- getPageBlocks server fuel (c :: notionID) ;;
             match notionBlocksToMarkdown notionBlocks 0 [] with
             | Ok (notionContent, _) =>
                 if needsDownload note notionContent
                 then ret (Some {| file := tfile f; localNote := note;
                                   notionId := c :: notionID;
                                   notionContent := notionContent |})
                 else ret None
             | Throw e => throw e
             | OutOfFuel => outOfFuel
             end)
            (fun _ => ret None)
      | _ => ret None
      end
  end.

(** [filterFilesForDownload] *)
Fixpoint filterFilesForDownload (fuel : nat) (files : list VaultFile)
  : M (list Download) :=
  match files with
  | [] => ret []
  | f :: files' =>
      found <- checkForDownload fuel f ;;
      rest <- filterFilesForDownload fuel files' ;;
      ret (match found with Some d => d :: rest | None => rest end)
  end.

(** What [pullFromNotion] writes to the file of a download. *)
Definition pulledNote (d : Download) : Note :=
  let contentHash := calculateContentHash (notionContent d) in
  let fm1 := setField (frontmatter (localNote d)) (lit "lastSync") now in
  let fm2 := setField fm1 (lit "contentHash") contentHash in
  {| frontmatter := fm2; noteContent := notionContent d |}.

(** [pullFromNotion]: the files it writes, with what it writes to them.
    [confirmed] is the answer to the dialog. *)
Definition pullFromNotion (fuel : nat) (markdownFiles : list VaultFile)
    (confirmed : bool) : M (list (SyncQueue.TFile * Note)) :=
  filesToUpdate <- filterFilesForDownload fuel markdownFiles ;;
  if (length filesToUpdate =? 0)%nat then ret []
  else if negb confirmed then ret []
  else ret (map (fun d => (file d, pulledNote d)) filesToUpdate).

End Passes.

(** *** Vocabulary for the properties of the passes *)

(** The id of an entry of a database query; a valid page has one. *)
Definition idOf (page : option Page.NotionPage) : jsstring :=
  match page with
  | Some {| Page.id := Some notionId |} => notionId
  | _ => []
  end.

(** The entries of a query that are valid pages with an id that is not
    among [ids]. *)
Definition unbound (ids : list jsstring)
    (pages : list (option Page.NotionPage)) : list (option Page.NotionPage) :=
  List.filter (fun page => isValidNotionPage page && negb (bool_decide (idOf page ∈ ids)))
    pages.

(** *** Sample data *)

(** A file that was never uploaded, and a file that says it is in sync. *)
Definition draft : VaultFile :=
  {| tfile := projectFile;
     readNote := Some {| frontmatter := []; noteContent := lit "hello" |} |}.

Definition kept : VaultFile :=
  {| tfile := SyncQueue.demoFile; readNote := Some syncedNote |}.

End Main.

(** ** The header of a note as text (markdown-converter.ts, sync-manager.ts) *)

Module Yaml.
Import Services.

(** The values a header holds: [parseSimpleYaml] produces strings and
    arrays of strings, and the passes add strings. *)
Inductive YamlValue :=
| Scalar (s : jsstring)
| Items (items : list jsstring).

(** The entries of the object, as [Object.entries] lists them. *)
Abbreviation Header := (list (jsstring * YamlValue)).

(** [s.split(sep)] for a one-unit separator. *)
Fixpoint split (sep : N) (s : jsstring) : list jsstring :=
  match s with
  | [] => [[]]
  | c :: s' =>
      if N.eqb c sep then [] :: split sep s'
      else match split sep s' with
           | w :: ws => (c :: w) :: ws
           | [] => [[c]]
           end
  end.

(** [l.join(sep)] *)
Fixpoint join (sep : jsstring) (l : list jsstring) : jsstring :=
  match l with
  | [] => []
  | [x] => x
  | x :: l' => x ++ sep ++ join sep l'
  end.

(** [s.replace] of every apostrophe (unit 39) and every double quote
    (unit 34) by nothing. *)
Definition unquote (s : jsstring) : jsstring :=
  List.filter (fun c => negb (N.eqb c 39 || N.eqb c 34)) s.

(** [s.slice(1, -1)] *)
Definition inner (s : jsstring) : jsstring := removelast (tail s).

(** [header[key]] *)
Fixpoint entry (h : Header) (key : jsstring) : option YamlValue :=
  match h with
  | [] => None
  | (k, v) :: h' => if bool_decide (k = key) then Some v else entry h' key
  end.

Fixpoint setEntry (h : Header) (key : jsstring) (value : YamlValue) : Header :=
  match h with
  | [] => [(key, value)]
  | (k, v) :: h' =>
      if bool_decide (k = key) then (k, value) :: h'
      else (k, v) :: setEntry h' key value
  end.

(** [result[key] = value] on a plain object: an assignment to [__proto__]
    creates no property. *)
Definition assignKey (result : Header) (key : jsstring) (value : YamlValue)
  : Header :=
  if bool_decide (key = lit "__proto__") then result
  else setEntry result key value.

(** The body of the loop of [parseSimpleYaml]. *)
Definition parseLine (result : Header) (line : jsstring) : Header :=
  let trimmed := trim line in
  if truthy trimmed && includes [colon] trimmed then
    match split colon trimmed with
    | key :: valueParts =>
        let value := trim (join [colon] valueParts) in
        if startsWith (lit "[") value && endsWith (lit "]") value then
          assignKey result (trim key)
            (Items (map (fun v => unquote (trim v)) (split 44%N (inner value))))
        else assignKey result (trim key) (Scalar (unquote value))
    | [] => result
    end
  else result.

(** [parseSimpleYaml] *)
Definition parseSimpleYaml (yamlString : jsstring) : Header :=
  fold_left parseLine (split newline yamlString) [].

(** The lines [stringifyYaml] pushes for one entry. *)
Definition entryLines (kv : jsstring * YamlValue) : list jsstring :=
  match kv.2 with
  | Items items => (kv.1 ++ lit ":") :: map (fun item => lit "  - " ++ item) items
  | Scalar value => [kv.1 ++ lit ": " ++ value]
  end.

(** [stringifyYaml] of sync-manager.ts, and of main.ts. *)
Definition stringifyYaml (obj : Header) : jsstring :=
  join [newline] (concat (map entryLines obj)).

(** *** The header block of a file (parseMarkdownWithFrontmatter)

    The regular expression of the function: at the start of the text,
    three dashes, white space (greedy), a line break, the header (a lazy
    group of any characters), a line break, three dashes, white space
    (greedy), a line break, and the content (everything up to the end).
    It is read as the backtracking matcher reads it: a greedy white space
    tries the longest first, the lazy group the shortest text first. *)









(** *** Vocabulary for the properties of the header *)

(** The string neither begins nor ends with white space. *)
Definition tight (s : jsstring) : bool :=
  match s with [] => true | c :: _ => negb (isSpace c) end
  && match rev s with [] => true | c :: _ => negb (isSpace c) end.

Definition without (c : N) (s : jsstring) : bool :=
  negb (existsb (N.eqb c) s).

(** A key that [parseSimpleYaml] can read back. *)
Definition plainKey (key : jsstring) : bool :=
  truthy key && tight key && without colon key && without newline key
  && negb (bool_decide (key = lit "__proto__")).

(** A string value that [parseSimpleYaml] reads as one string. *)
Definition plainScalar (value : jsstring) : bool :=
  tight value && without newline value
  && negb (startsWith (lit "[") value && endsWith (lit "]") value).

Definition plainValue (v : YamlValue) : bool :=
  match v with
  | Scalar value => plainScalar value
  | Items items =>
      forallb (fun item => without colon item && without newline item) items
  end.

(** What is read back for a value that was written. *)
Definition readBack (v : YamlValue) : YamlValue :=
  match v with
  | Scalar value => Scalar (unquote value)
  | Items _ => Scalar []
  end.




(** A header of strings, as an object. *)
Definition headerOf (fm : list (jsstring * jsstring)) : Header :=
  map (fun kv => (kv.1, Scalar kv.2)) fm.

(** The strings of a header, by key. *)
Fixpoint strings (h : Header) : list (jsstring * jsstring) :=
  match h with
  | [] => []
  | (k, Scalar value) :: h' => (k, value) :: strings h'
  | (_, Items _) :: h' => strings h'
  end.

(** The fields [removeSyncMetadata] deletes. *)
Definition syncKeys : list jsstring :=
  [lit "notionID"; lit "lastSync"; lit "localChecksum";
   lit "notionChecksum"; lit "link"].

(** *** Sample data *)

(** A file in a folder whose name has an apostrophe. *)
Definition quotedFile : SyncQueue.TFile :=
  {| SyncQueue.path := lit "Ann's notes/a.md"; SyncQueue.name := lit "a.md";
     SyncQueue.basename := lit "a" |}.

Definition taggedHeader : Header :=
  [(lit "notionID", Scalar (lit "1f0c-22"));
   (lit "link", Scalar (lit "https://www.notion.so/1f0c22"));
   (lit "tags", Items [lit "work"; lit "draft"]);
   (lit "lastSync", Scalar (lit "2024-05-25T10:00:00.000Z"))].

End Yaml.

(** ** File names (validator.ts) *)

Module Validation.
Import Services.

(** The first [replace] of [sanitizeFileName]: every character of the class
    [invalidChars] becomes an underscore. *)
Definition replaceInvalid (fileName : jsstring) : jsstring :=
  map (fun c => if existsb (N.eqb c) invalidChars then 95%N else c) fileName.

(** The second: every run of white space becomes one space. [inRun] says
    that the unit before was white space. *)
Fixpoint collapseSpaces (inRun : bool) (s : jsstring) : jsstring :=
  match s with
  | [] => []
  | c :: s' =>
      if isSpace c then
        if inRun then collapseSpaces true s' else 32%N :: collapseSpaces true s'
      else c :: collapseSpaces false s'
  end.

(** [Validator.sanitizeFileName] *)
Definition sanitizeFileName (fileName : jsstring) : jsstring :=
  trim (collapseSpaces false (replaceInvalid fileName)).

(** *** Vocabulary *)

(** A unit outside the class [invalidChars]. *)
Definition valid (c : N) : Prop := existsb (N.eqb c) invalidChars = false.

(** White space occurs only as single spaces; [prev] says that the unit
    before was white space. *)
Fixpoint single (prev : bool) (s : jsstring) : bool :=
  match s with
  | [] => true
  | c :: s' =>
      if isSpace c then N.eqb c 32 && negb prev && single true s'
      else single false s'
  end.

End Validation.

(** ** The list of operations shown to the user (sync-status-modal.ts) *)

Module StatusModal.

Inductive OperationStatus := pending | processing | completed | failed.

#[global] Instance OperationStatus_eq_dec : EqDecision OperationStatus.
Proof. solve_decision. Defined.

Record Operation := mkOperation {
  type : SyncQueue.OpType;
  fileName : jsstring;
  status : OperationStatus;
  error : option jsstring
}.

(** [addOperation] *)
Definition addOperation (operations : list Operation) (t : SyncQueue.OpType)
    (name : jsstring) : list Operation :=
  operations ++ [{| type := t; fileName := name; status := pending;
                    error := None |}].

(** [updateOperation]: [find] gives the first operation of that name. *)
Fixpoint updateOperation (operations : list Operation) (name : jsstring)
    (s : OperationStatus) (e : option jsstring) : list Operation :=
  match operations with
  | [] => []
  | op :: operations' =>
      if bool_decide (fileName op = name) then
        {| type := type op; fileName := fileName op; status := s;
           error := if truthy_opt e then e else error op |} :: operations'
      else op :: updateOperation operations' name s e
  end.

Definition isPending (op : Operation) : bool :=
  bool_decide (status op = pending) || bool_decide (status op = processing).

Definition isFailed (op : Operation) : bool :=
  bool_decide (status op = failed).

Record CurrentStatus := mkCurrentStatus {
  text : jsstring;
  hasOperations : bool;
  pendingCount : nat
}.

(** [getCurrentStatus], without the icon. *)
Definition getCurrentStatus (operations : list Operation) : CurrentStatus :=
  let pendingOps := List.filter isPending operations in
  let failedOps := List.filter isFailed operations in
  if (0 <? length pendingOps)%nat then
    {| text := lit "Syncing " ++ Js.of_nat (length pendingOps);
       hasOperations := true; pendingCount := length pendingOps |}
  else if (0 <? length failedOps)%nat then
    {| text := Js.of_nat (length failedOps) ++ lit " error"
               ++ (if (1 <? length failedOps)%nat then lit "s" else []);
       hasOperations := true; pendingCount := 0 |}
  else if (0 <? length operations)%nat then
    {| text := lit "Synced"; hasOperations := true; pendingCount := 0 |}
  else {| text := lit "Notion"; hasOperations := false; pendingCount := 0 |}.

(** The callback of [cleanupOldOperations]. *)
Definition cleanupOldOperations (operations : list Operation)
  : list Operation :=
  List.filter (fun op => isPending op || isFailed op) operations.

(** What [SyncManager.executeOperation] does to the list around one
    execution with the given outcome. *)
Definition executeOperation (operations : list Operation)
    (op : SyncQueue.SyncOperation) (outcome : SyncQueue.Outcome)
  : list Operation :=
  let name := SyncQueue.name (SyncQueue.file op) in
  let added := addOperation operations (SyncQueue.type op) name in
  let started := updateOperation added name processing None in
  match outcome with
  | SyncQueue.Resolved => updateOperation started name completed None
  | SyncQueue.Rejected e => updateOperation started name failed (Some (message e))
  end.

End StatusModal.

(** ** The uploader of the first version (Upload2Notion.ts) *)

Module LegacyUpload.
Import Codec Notion.

(** [requestUrl]: it throws or it returns a response; the functions below
    look at no status. *)
Definition requestUrl {A : Type} (request : Request)
    (reply : list Request -> Reply A) : M (Response A) :=
  fun sent =>
    match reply sent with
    | Unreachable e => (Throw e, sent ++ [request])
    | Answer status _ json => (Ok (mkResponse status json), sent ++ [request])
    end.

Section Uploader.

Variable server : Server.

(** [clearChildrenBlocks]: reading [results] of a missing body, or
    iterating over missing [results], throws. *)
Definition clearChildrenBlocks (block_id : jsstring) : M unit :=
  response <- requestUrl (GET_children block_id None)
                (fun sent => listed server sent block_id None) ;;
  match json response with
  | Some {| results := Some blocks |} =>
      forEach blocks
        (fun block =>
           _ <- requestUrl (DELETE_block (Codec.id block))
                  (fun sent => deleted server sent (Codec.id block)) ;;
           ret tt)
  | _ => throw typeError
  end.

(** [appendChildrenBlocks] *)
Definition appendChildrenBlocks (block_id : jsstring)
    (blocks : list NotionBlock) : M unit :=
  forEach blocks
    (fun block =>
       _ <- requestUrl (PATCH_children block_id [block])
              (fun sent => appended server sent block_id) ;;
       ret tt).

End Uploader.

(** *** Vocabulary *)

(** The service answers every deletion and every addition. *)
Definition accepting (server : Server) : Prop :=
  (forall sent blockId, exists status msg body,
      deleted server sent blockId = Answer status msg body) /\
  (forall sent parentId, exists status msg body,
      appended server sent parentId = Answer status msg body).

End LegacyUpload.

(** ** The count of a batch upload (upload-service.ts) *)

Module Batches.
Import Notion Services.

(** An entry of the array [Promise.allSettled] resolves to. *)
Inductive Settled :=
| Fulfilled (value : SyncResult)
| RejectedWith (reason : jsstring).

Record SyncStats := mkStats {
  totalFiles : nat;
  successful : nat;
  failed : nat;
  errors : list jsstring
}.

(** The text of an optional string in a template. *)
Definition shown (s : option jsstring) : jsstring :=
  match s with Some s' => s' | None => lit "undefined" end.

(** The body of the loop over the results of a batch. *)
Definition count (stats : SyncStats) (result : Settled) : SyncStats :=
  match result with
  | Fulfilled syncResult =>
      if success syncResult then
        {| totalFiles := totalFiles stats; successful := successful stats + 1;
           failed := failed stats; errors := errors stats |}
      else
        {| totalFiles := totalFiles stats; successful := successful stats;
           failed := failed stats + 1;
           errors := errors stats
                     ++ [fileName syncResult ++ lit ": " ++ shown (error syncResult)] |}
  | RejectedWith reason =>
      {| totalFiles := totalFiles stats; successful := successful stats;
         failed := failed stats + 1;
         errors := errors stats ++ [lit "Unexpected error: " ++ reason] |}
  end.

Definition batchSize : nat := 5.

Section UploadAll.

(** The batch started at index [i], once all its uploads have settled. *)
Variable allSettled : nat -> list SyncQueue.TFile -> list Settled.

(** The [for] loop of [uploadAllFiles], from index [i] on. *)
Equations? uploadAllFiles_from (files : list SyncQueue.TFile) (i : nat)
    (stats : SyncStats) : SyncStats by wf (length files - i)%nat lt :=
uploadAllFiles_from files i stats with lt_dec i (length files) := {
  | right _ => stats
  | left _ =>
      let batch := slice files i (i + batchSize) in
      let results := allSettled i batch in
      uploadAllFiles_from files (i + batchSize)%nat (fold_left count results stats) }.
Proof. unfold batchSize. lia. Qed.

(** [uploadAllFiles] *)
Definition uploadAllFiles (files : list SyncQueue.TFile) : SyncStats :=
  uploadAllFiles_from files 0
    {| totalFiles := length files; successful := 0; failed := 0; errors := [] |}.

End UploadAll.

End Batches.

(** * Properties *)

(** ** The sync queue *)

Module SyncQueueFacts.
Import SyncQueue.

Lemma countIf_app {A : Type} (p : A -> bool) (l1 l2 : list A) :
  countIf p (l1 ++ l2) = (countIf p l1 + countIf p l2)%nat.
Proof. unfold countIf. now rewrite List.filter_app, length_app. Qed.

Lemma settled_app (l1 l2 : list Event) :
  settled (l1 ++ l2) = settled l1 ++ settled l2.
Proof.
  induction l1 as [|ev l1 IH]; simpl; [reflexivity|].
  destruct ev as [op [|e]|op]; simpl; now rewrite IH.
Qed.

Lemma totalAttempts_app (q1 q2 : list SyncOperation) :
  totalAttempts (q1 ++ q2) = (totalAttempts q1 + totalAttempts q2)%nat.
Proof. unfold totalAttempts. now rewrite sum_list_with_app. Qed.

Lemma queuedFor_app (f : TFile) (q1 q2 : list SyncOperation) :
  queuedFor f (q1 ++ q2) = queuedFor f q1 ++ queuedFor f q2.
Proof. apply List.filter_app. Qed.

Lemma attemptsLeft_pos (op : SyncOperation) : (1 <= attemptsLeft op)%nat.
Proof. unfold attemptsLeft. lia. Qed.

Lemma attemptsLeft_retry (op : SyncOperation) :
  (retries op + 1 < 3)%nat ->
  (attemptsLeft (withRetries op (retries op + 1)) + 1 = attemptsLeft op)%nat.
Proof. unfold attemptsLeft. simpl. lia. Qed.

Section Facts.

Variable executeOperation : list Event -> SyncOperation -> Outcome.

Local Abbreviation iteration := (iteration executeOperation).
Local Abbreviation processLoop := (processLoop executeOperation).
Local Abbreviation processQueue := (processQueue executeOperation).
Local Abbreviation onlineHandler := (onlineHandler executeOperation).
Local Abbreviation turn := (turn executeOperation).
Local Abbreviation runs := (runs executeOperation).

Lemma iteration_turn st op rest :
  turn st op rest (iteration st op rest).1 (iteration st op rest).2.
Proof.
  unfold SyncQueue.iteration.
  destruct (executeOperation (log st) op) as [|e] eqn:Hex.
  - now constructor.
  - destruct (isNetworkError e) eqn:Hnet.
    + now constructor.
    + simpl retries. destruct (Nat.ltb_spec (retries op + 1) 3).
      * now apply turn_retry.
      * now apply turn_dropped.
Qed.

Lemma processLoop_runs fuel : forall st st',
  processLoop fuel st = Some st' -> runs st st'.
Proof.
  induction fuel as [|fuel IH]; intros st st' H; simpl in H.
  - destruct (syncQueue st) as [|op rest] eqn:Hq.
    + inversion H; subst. apply runs_exit. now left.
    + destruct (isOnline st) eqn:Ho; [discriminate|].
      inversion H; subst. apply runs_exit. now right.
  - destruct (syncQueue st) as [|op rest] eqn:Hq.
    + inversion H; subst. apply runs_exit. now left.
    + destruct (isOnline st) eqn:Ho.
      * pose proof (iteration_turn st op rest) as Ht.
        destruct (iteration st op rest) as [st1 stop]. simpl in Ht.
        destruct stop.
        -- inversion H; subst. eapply runs_break; eauto.
        -- eapply runs_turn; eauto.
      * inversion H; subst. apply runs_exit. now right.
Qed.

(** Enough fuel: the attempts the queued operations have left. *)
Lemma processLoop_total fuel : forall st,
  (totalAttempts (syncQueue st) <= fuel)%nat ->
  exists st', processLoop fuel st = Some st'.
Proof.
  induction fuel as [|fuel IH]; intros st Hfuel; simpl.
  - destruct (syncQueue st) as [|op rest] eqn:Hq; [eauto|].
    exfalso. unfold totalAttempts in Hfuel. simpl in Hfuel.
    pose proof (attemptsLeft_pos op). lia.
  - destruct (syncQueue st) as [|op rest] eqn:Hq; [eauto|].
    destruct (isOnline st) eqn:Ho; [|eauto].
    pose proof (iteration_turn st op rest) as Ht.
    destruct (iteration st op rest) as [st1 stop]. simpl in Ht.
    destruct stop; [eauto|].
    apply IH.
    assert (Hcons : totalAttempts (op :: rest)
                    = (attemptsLeft op + totalAttempts rest)%nat) by reflexivity.
    rewrite Hcons in Hfuel. pose proof (attemptsLeft_pos op).
    inversion Ht; subst; simpl.
    + lia.
    + rewrite totalAttempts_app.
      pose proof (attemptsLeft_retry op ltac:(assumption)) as Hr.
      unfold totalAttempts at 2. simpl. lia.
    + lia.
Qed.

Lemma runs_exit_condition st st' :
  runs st st' -> syncQueue st' = [] \/ isOnline st' = false.
Proof.
  induction 1 as [st Hex|st op rest st' Hq Ho Ht|]; auto.
  inversion Ht; subst. now right.
Qed.

Lemma turn_log st op rest st' stop :
  turn st op rest st' stop ->
  exists evs, log st' = log st ++ Executed op (executeOperation (log st) op) :: evs.
Proof.
  intros Ht. inversion Ht as [Hex|e Hex|e Hex|e Hex]; subst; simpl;
    rewrite Hex; eauto.
Qed.

Lemma runs_log_extends st st' :
  runs st st' -> exists evs, log st' = log st ++ evs.
Proof.
  induction 1 as [st _|st op rest st' _ _ Ht|st op rest st1 st' _ _ Ht _ IH].
  - exists []. now rewrite app_nil_r.
  - destruct (turn_log _ _ _ _ _ Ht) as [evs ->]. eauto.
  - destruct (turn_log _ _ _ _ _ Ht) as [evs Hevs]. destruct IH as [evs' ->].
    rewrite Hevs, <- app_assoc. eauto.
Qed.

Lemma runs_first_event st st' op rest :
  syncQueue st = op :: rest -> isOnline st = true -> runs st st' ->
  exists evs, log st' = log st ++ Executed op (executeOperation (log st) op) :: evs.
Proof.
  intros Hq Ho Hrun.
  destruct Hrun as [st [Hex|Hex]|st op0 rest0 st' Hq0 _ Ht
                   |st op0 rest0 st1 st' Hq0 _ Ht Hrun]; try congruence.
  - rewrite Hq in Hq0. inversion Hq0; subst. eapply turn_log; eauto.
  - rewrite Hq in Hq0. inversion Hq0; subst.
    destruct (turn_log _ _ _ _ _ Ht) as [evs Hevs].
    destruct (runs_log_extends _ _ Hrun) as [evs' ->].
    rewrite Hevs, <- app_assoc. simpl. eauto.
Qed.

(** Nothing is lost: the queued and the settled operations stay the same
    collection, whatever the turn. *)
Lemma turn_conservation st op rest st' stop :
  syncQueue st = op :: rest ->
  turn st op rest st' stop ->
  map asEnqueued (syncQueue st' ++ settled (log st'))
    ≡ₚ map asEnqueued (syncQueue st ++ settled (log st)).
Proof.
  intros Hq Ht. rewrite Hq.
  inversion Ht as [Hex|e Hex|e Hex|e Hex]; subst; simpl;
    rewrite ?settled_app; simpl; rewrite ?app_nil_r.
  - rewrite app_assoc, map_app. simpl. symmetry. apply Permutation_cons_append.
  - reflexivity.
  - rewrite <- app_assoc, !map_app. simpl.
    change (asEnqueued (withRetries op (retries op + 1))) with (asEnqueued op).
    symmetry. apply Permutation_middle.
  - rewrite app_assoc, map_app. simpl.
    change (asEnqueued (withRetries op (retries op + 1))) with (asEnqueued op).
    symmetry. apply Permutation_cons_append.
Qed.

Lemma turn_budget f st op rest st' stop :
  syncQueue st = op :: rest ->
  turn st op rest st' stop ->
  (countedExecutionsOf f (log st') + totalAttempts (queuedFor f (syncQueue st'))
   <= countedExecutionsOf f (log st) + totalAttempts (queuedFor f (syncQueue st)))%nat
  /\ (terminalsOf f (log st') + length (queuedFor f (syncQueue st'))
      <= terminalsOf f (log st) + length (queuedFor f (syncQueue st)))%nat.
Proof.
  intros Hq Ht. rewrite Hq.
  unfold countedExecutionsOf, terminalsOf.
  pose proof (attemptsLeft_pos op) as Hpos.
  inversion Ht as [Hex|e Hex Hnet|e Hex Hnet Hlt|e Hex Hnet Hge]; subst; simpl;
    rewrite ?countIf_app, ?queuedFor_app, ?totalAttempts_app, ?length_app;
    unfold countIf, totalAttempts; simpl; rewrite ?Hnet; simpl;
    destruct (bool_decide (file op = f)); simpl; try lia.
  pose proof (attemptsLeft_retry op Hlt). lia.
Qed.

Lemma runs_conservation st st' :
  runs st st' ->
  map asEnqueued (syncQueue st' ++ settled (log st'))
    ≡ₚ map asEnqueued (syncQueue st ++ settled (log st)).
Proof.
  induction 1 as [st _|st op rest st' Hq _ Ht|st op rest st1 st' Hq _ Ht _ IH].
  - reflexivity.
  - eapply turn_conservation; eauto.
  - rewrite IH. eapply turn_conservation; eauto.
Qed.

Lemma runs_budget f st st' :
  runs st st' ->
  (countedExecutionsOf f (log st') + totalAttempts (queuedFor f (syncQueue st'))
   <= countedExecutionsOf f (log st) + totalAttempts (queuedFor f (syncQueue st)))%nat
  /\ (terminalsOf f (log st') + length (queuedFor f (syncQueue st'))
      <= terminalsOf f (log st) + length (queuedFor f (syncQueue st)))%nat.
Proof.
  induction 1 as [st _|st op rest st' Hq _ Ht|st op rest st1 st' Hq _ Ht _ IH].
  - lia.
  - eapply turn_budget; eauto.
  - pose proof (turn_budget f _ _ _ _ _ Hq Ht). lia.
Qed.

(** [processQueue] is its loop, up to the status shown. *)
Lemma processQueue_runs fuel st st' :
  processQueue fuel st = Some st' ->
  exists st1, runs (setStatus st syncing) st1 /\
              syncQueue st' = syncQueue st1 /\ isOnline st' = isOnline st1 /\
              log st' = log st1.
Proof.
  unfold SyncQueue.processQueue. intros H.
  destruct (syncQueue st) as [|op rest] eqn:Hq.
  - inversion H; subst. exists (setStatus st syncing). split; [|now simpl].
    apply runs_exit. now left.
  - destruct (processLoop fuel (setStatus st syncing)) as [st1|] eqn:Hl;
      [|discriminate].
    inversion H; subst. exists st1. split; [|now simpl].
    eapply processLoop_runs; eauto.
Qed.

Lemma processQueue_total fuel st :
  (totalAttempts (syncQueue st) <= fuel)%nat ->
  exists st', processQueue fuel st = Some st'.
Proof.
  intros Hfuel. unfold SyncQueue.processQueue.
  destruct (syncQueue st) as [|op rest] eqn:Hq; [eauto|].
  destruct (processLoop_total fuel (setStatus st syncing)) as [st1 ->]; [|eauto].
  simpl. now rewrite Hq.
Qed.

Lemma processLoop_unfold fuel st op rest :
  syncQueue st = op :: rest -> isOnline st = true ->
  processLoop (S fuel) st =
    (let '(st', stop) := iteration st op rest in
     if stop then Some st' else processLoop fuel st').
Proof. intros Hq Ho. simpl. now rewrite Hq, Ho. Qed.

Lemma iteration_nonNetwork st op rest e :
  executeOperation (log st) op = Rejected e ->
  isNetworkError e = false ->
  iteration st op rest =
    if (retries op + 1 <? 3)%nat then
      ({| syncQueue := rest ++ [withRetries op (retries op + 1)];
          isOnline := isOnline st; status := statusAfterExecute rest;
          log := log st ++ [Executed op (Rejected e)] |}, false)
    else
      ({| syncQueue := rest; isOnline := isOnline st;
          status := statusAfterExecute rest;
          log := log st ++ [Executed op (Rejected e);
                            TerminalFailure (withRetries op (retries op + 1))] |},
       false).
Proof. intros Hex Hnet. unfold SyncQueue.iteration. now rewrite Hex, Hnet. Qed.

Lemma fresh_totalAttempts (q : list SyncOperation) :
  Forall (fun op => retries op = 0%nat) q ->
  totalAttempts q = (3 * length q)%nat.
Proof.
  induction 1 as [|op q Hop _ IH]; [reflexivity|].
  change (totalAttempts (op :: q)) with (attemptsLeft op + totalAttempts q)%nat.
  unfold attemptsLeft. rewrite IH, Hop. simpl. lia.
Qed.

Lemma fresh_queuedFor f (q : list SyncOperation) :
  Forall (fun op => retries op = 0%nat) q ->
  Forall (fun op => retries op = 0%nat) (queuedFor f q).
Proof.
  intros H. apply List.Forall_forall. intros op Hin.
  apply List.filter_In in Hin as [Hin _].
  rewrite List.Forall_forall in H. now apply H.
Qed.

(** C1: an execution that fails with a non-network error increments the
    retry counter of the operation; below 3 the operation goes to the back
    of the queue, at 3 it leaves the queue with exactly one terminal report.
    Over a whole run a document is executed (network failures apart) at most
    3 times per operation queued for it and reported at most once per
    operation; an operation that keeps failing is executed exactly 3 times,
    reported once, and is gone. *)
Theorem nonNetwork_failure_retry_budget :
  (forall st op rest e,
      executeOperation (log st) op = Rejected e ->
      isNetworkError e = false ->
      let op' := withRetries op (retries op + 1) in
      retries op' = (retries op + 1)%nat /\
      iteration st op rest =
        if (retries op' <? 3)%nat then
          ({| syncQueue := rest ++ [op']; isOnline := isOnline st;
              status := statusAfterExecute rest;
              log := log st ++ [Executed op (Rejected e)] |}, false)
        else
          ({| syncQueue := rest; isOnline := isOnline st;
              status := statusAfterExecute rest;
              log := log st ++ [Executed op (Rejected e); TerminalFailure op'] |},
           false))
  /\ (forall fuel st st' f,
        Forall (fun op => retries op = 0%nat) (syncQueue st) ->
        processQueue fuel st = Some st' ->
        (countedExecutionsOf f (log st')
         <= countedExecutionsOf f (log st)
            + 3 * length (queuedFor f (syncQueue st)))%nat /\
        (terminalsOf f (log st')
         <= terminalsOf f (log st) + length (queuedFor f (syncQueue st)))%nat)
  /\ (forall fuel st t f d now,
        let op := newOperation t f d now in
        syncQueue st = [op] -> isOnline st = true -> (3 <= fuel)%nat ->
        (forall h n, exists e,
            executeOperation h (withRetries op n) = Rejected e /\
            isNetworkError e = false) ->
        exists st' e1 e2 e3,
          processQueue fuel st = Some st' /\
          syncQueue st' = [] /\ isOnline st' = true /\
          log st' = log st ++ [Executed op (Rejected e1);
                               Executed (withRetries op 1) (Rejected e2);
                               Executed (withRetries op 2) (Rejected e3);
                               TerminalFailure (withRetries op 3)]).
Proof.
  split; [|split].
  - intros st op rest e Hex Hnet op'. split; [reflexivity|].
    unfold SyncQueue.iteration. now rewrite Hex, Hnet.
  - intros fuel st st' f Hfresh H.
    destruct (processQueue_runs _ _ _ H) as (st1 & Hrun & Hq & _ & Hlog).
    destruct (runs_budget f _ _ Hrun) as [Hb Ht]. simpl in Hb, Ht.
    rewrite Hlog.
    rewrite (fresh_totalAttempts _ (fresh_queuedFor f _ Hfresh)) in Hb. lia.
  - intros fuel st t f d now op Hq Ho Hfuel Hfail.
    destruct (Hfail (log st) 0%nat) as (e1 & H1 & N1).
    destruct (Hfail (log st ++ [Executed op (Rejected e1)]) 1%nat)
      as (e2 & H2 & N2).
    destruct (Hfail ((log st ++ [Executed op (Rejected e1)])
                       ++ [Executed (withRetries op 1) (Rejected e2)]) 2%nat)
      as (e3 & H3 & N3).
    exists {| syncQueue := []; isOnline := true; status := synced;
              log := log st ++ [Executed op (Rejected e1);
                                Executed (withRetries op 1) (Rejected e2);
                                Executed (withRetries op 2) (Rejected e3);
                                TerminalFailure (withRetries op 3)] |}.
    exists e1, e2, e3. split; [|now simpl].
    destruct fuel as [|[|[|fuel]]]; try lia.
    unfold SyncQueue.processQueue. rewrite Hq.
    change (withRetries op 0) with op in H1.
    rewrite (processLoop_unfold _ _ op []); [|assumption|assumption].
    rewrite (iteration_nonNetwork _ _ _ e1); [|assumption|assumption].
    cbn [retries withRetries Nat.ltb Nat.leb Nat.add op newOperation app].
    rewrite (processLoop_unfold _ _ (withRetries op 1) []);
      [|reflexivity|assumption].
    rewrite (iteration_nonNetwork _ _ _ e2); [|assumption|assumption].
    cbn [retries withRetries Nat.ltb Nat.leb Nat.add op newOperation app].
    rewrite (processLoop_unfold _ _ (withRetries op 2) []);
      [|reflexivity|assumption].
    rewrite (iteration_nonNetwork _ _ _ e3); [|assumption|assumption].
    cbn [retries withRetries Nat.ltb Nat.leb Nat.add op newOperation app].
    destruct fuel; simpl; rewrite Ho, <- !app_assoc; reflexivity.
Qed.

(** C2: an execution that fails with a network-class error ends the loop at
    once: the operation is back at the front with its retry counter as it
    was, the queue is offline, and the operations behind it are exactly those
    that were there. When connectivity returns the next execution is that of
    this very operation. *)
Theorem network_failure_halts_and_resumes :
  forall st op rest e,
    syncQueue st = op :: rest -> isOnline st = true ->
    executeOperation (log st) op = Rejected e ->
    isNetworkError e = true ->
    let halted :=
      {| syncQueue := op :: rest; isOnline := false; status := offline;
         log := log st ++ [Executed op (Rejected e)] |} in
    (forall fuel, processLoop (S fuel) st = Some halted) /\
    (forall fuel, processQueue (S fuel) st = Some halted) /\
    (forall fuel, (totalAttempts (op :: rest) <= fuel)%nat ->
       exists st' evs,
         onlineHandler fuel halted = Some st' /\
         log st' = log halted
                     ++ Executed op (executeOperation (log halted) op) :: evs).
Proof.
  intros st op rest e Hq Ho Hex Hnet halted.
  assert (Hloop : forall fuel s, syncQueue s = op :: rest -> isOnline s = true ->
                    log s = log st ->
                    SyncQueue.processLoop executeOperation (S fuel) s = Some halted).
  { intros fuel s Hsq Hso Hsl. simpl. rewrite Hsq, Hso.
    unfold SyncQueue.iteration. now rewrite Hsl, Hex, Hnet. }
  split; [|split].
  - intros fuel. now apply Hloop.
  - intros fuel. unfold SyncQueue.processQueue. rewrite Hq.
    rewrite (Hloop fuel (setStatus st syncing)); simpl; auto.
  - intros fuel Hfuel.
    destruct (processQueue_total fuel
                (setStatus {| syncQueue := op :: rest; isOnline := true;
                              status := offline; log := log halted |} syncing)
                Hfuel) as [st' Hst'].
    destruct (processQueue_runs _ _ _ Hst') as (st1 & Hrun & _ & _ & Hlog).
    destruct (fun Hq' Ho' => runs_first_event _ _ op rest Hq' Ho' Hrun)
      as [evs Hevs]; [reflexivity|reflexivity|].
    exists st', evs. split; [exact Hst'|]. now rewrite Hlog, Hevs.
Qed.

End Facts.

Lemma nonNetwork_failure_retry_budget_witness :
  exists st' e1 e2 e3,
    processQueue (fun _ _ => Rejected refused) 3 (demoState [demoOp]) = Some st' /\
    syncQueue st' = [] /\ isOnline st' = true /\
    log st' = [Executed demoOp (Rejected e1);
               Executed (withRetries demoOp 1) (Rejected e2);
               Executed (withRetries demoOp 2) (Rejected e3);
               TerminalFailure (withRetries demoOp 3)].
Proof.
  destruct (nonNetwork_failure_retry_budget (fun _ _ => Rejected refused))
    as (_ & _ & H).
  apply (H 3%nat (demoState [demoOp]) upload demoFile None 0).
  - reflexivity.
  - reflexivity.
  - lia.
  - intros h n. exists refused. split; reflexivity.
Defined.

Lemma network_failure_halts_and_resumes_witness :
  processQueue (fun _ _ => Rejected unreachable) 1 (demoState [demoOp; demoOp])
  = Some {| syncQueue := [demoOp; demoOp]; isOnline := false; status := offline;
            log := [Executed demoOp (Rejected unreachable)] |}.
Proof.
  destruct (network_failure_halts_and_resumes (fun _ _ => Rejected unreachable)
              (demoState [demoOp; demoOp]) demoOp [demoOp] unreachable)
    as (_ & H & _).
  - reflexivity.
  - reflexivity.
  - reflexivity.
  - vm_compute. reflexivity.
  - apply (H 0%nat).
Defined.

End SyncQueueFacts.

(** ** The sync queue, for every rejection *)

Module RejectionsFacts.
Import Rejections.


Section Facts.

Variable executeOperation : list Event -> SyncOperation -> Outcome.

Local Abbreviation iteration := (iteration executeOperation).
Local Abbreviation processLoop := (processLoop executeOperation).
Local Abbreviation processQueue := (processQueue executeOperation).
Local Abbreviation turn := (turn executeOperation).
Local Abbreviation runs := (runs executeOperation).












End Facts.

(** On the rejections that carry a message, the loop is the one of the
    queue above. *)
Lemma iteration_agrees exec exec' st op rest :
  (forall h o, exec' (map ofEvent h) o = ofOutcome (exec h o)) ->
  iteration exec' (ofState st) op rest
  = (ofState (SyncQueue.iteration exec st op rest).1,
     if (SyncQueue.iteration exec st op rest).2 then break else next).
Proof.
  intros Hsame. unfold iteration, SyncQueue.iteration. cbn [ofState log].
  rewrite Hsame.
  destruct (exec (SyncQueue.log st) op) as [|e]; cbn [ofOutcome isNetworkError].
  - unfold ofState. simpl. now rewrite map_app.
  - destruct (SyncQueue.isNetworkError e).
    + unfold ofState. simpl. now rewrite map_app.
    + destruct (_ <? 3)%nat; unfold ofState; simpl; now rewrite map_app.
Qed.

Lemma processLoop_agrees exec exec' :
  (forall h o, exec' (map ofEvent h) o = ofOutcome (exec h o)) ->
  forall fuel st st',
    SyncQueue.processLoop exec fuel st = Some st' ->
    processLoop exec' fuel (ofState st) = (Ok tt, ofState st').
Proof.
  intros Hsame. induction fuel as [|fuel IH]; intros st st' H; simpl in *.
  - destruct (SyncQueue.syncQueue st) as [|op rest]; [now inversion H|].
    destruct (SyncQueue.isOnline st); [discriminate|now inversion H].
  - destruct (SyncQueue.syncQueue st) as [|op rest] eqn:Hq; [now inversion H|].
    destruct (SyncQueue.isOnline st) eqn:Ho; [|now inversion H].
    change (iteration exec' {| syncQueue := SyncQueue.syncQueue st;
                               isOnline := SyncQueue.isOnline st;
                               status := SyncQueue.status st;
                               log := map ofEvent (SyncQueue.log st) |} op rest)
      with (iteration exec' (ofState st) op rest).
    rewrite (iteration_agrees exec exec' st op rest Hsame).
    destruct (SyncQueue.iteration exec st op rest) as [st1 [|]]; simpl.
    + now inversion H.
    + now apply IH.
Qed.

Lemma processQueue_agrees exec exec' :
  (forall h o, exec' (map ofEvent h) o = ofOutcome (exec h o)) ->
  forall fuel st st',
    SyncQueue.processQueue exec fuel st = Some st' ->
    processQueue exec' fuel (ofState st) = (Ok tt, ofState st').
Proof.
  intros Hsame fuel st st' H.
  unfold processQueue, SyncQueue.processQueue in *. cbn [ofState syncQueue].
  destruct (SyncQueue.syncQueue st) as [|op rest] eqn:Hq; [now inversion H|].
  destruct (SyncQueue.processLoop exec fuel (SyncQueue.setStatus st SyncQueue.syncing))
    as [st1|] eqn:Hl; [|discriminate].
  inversion H; subst.
  pose proof (processLoop_agrees exec exec' Hsame _ _ _ Hl) as Hl'.
  change (setStatus _ SyncQueue.syncing)
    with (ofState (SyncQueue.setStatus st SyncQueue.syncing)).
  rewrite Hl'. cbn [ofState syncQueue]. unfold setStatus, ofState. simpl.
  reflexivity.
Qed.



End RejectionsFacts.


(** ** The Markdown codec *)

Module CodecFacts.
Import Codec.

Lemma mapItems_fuel items : mapItems items <> OutOfFuel.
Proof.
  induction items as [|[item|] items IH]; simpl; try discriminate.
  destruct (mapItems items); congruence.
Qed.

Lemma extractRichText_fuel rt : extractRichText rt <> OutOfFuel.
Proof.
  destruct rt as [[|items]|]; simpl; try discriminate.
  pose proof (mapItems_fuel items). destruct (mapItems items); congruence.
Qed.

Lemma extractAnyRichText_fuel block : extractAnyRichText block <> OutOfFuel.
Proof.
  unfold extractAnyRichText.
  induction (props block) as [|[k [b|[rt l c f e cap]]] entries IH]; simpl;
    try discriminate; try assumption.
  destruct rt as [rt|]; [apply (extractRichText_fuel (Some rt))|assumption].
Qed.

Ltac no_fuel :=
  match goal with
  | H : extractRichText _ = OutOfFuel |- _ =>
      exfalso; exact (extractRichText_fuel _ H)
  | H : extractAnyRichText _ = OutOfFuel |- _ =>
      exfalso; exact (extractAnyRichText_fuel _ H)
  end.

Lemma blockToMarkdown_try_fuel block lvl num :
  blockToMarkdown_try block lvl num <> OutOfFuel.
Proof.
  unfold blockToMarkdown_try, withText.
  repeat case_match; try discriminate; no_fuel.
Qed.

(** The [catch] block turns every exception into a line of text. *)
Lemma blockToMarkdown_total block lvl num :
  exists md num', blockToMarkdown block lvl num = Ok (md, num').
Proof.
  unfold blockToMarkdown.
  pose proof (blockToMarkdown_try_fuel block lvl num) as Hf.
  destruct (blockToMarkdown_try block lvl num) as [[md num']|e|]; eauto.
  congruence.
Qed.

Lemma notionBlocksToMarkdown_total blocks lvl : forall num,
  exists md num', notionBlocksToMarkdown blocks lvl num = Ok (md, num').
Proof.
  induction blocks as [|block blocks IH]; intros num; simpl; [eauto|].
  destruct (blockToMarkdown_total block lvl num) as (md & num1 & ->).
  destruct (IH num1) as (md' & num2 & ->). eauto.
Qed.

Lemma notionBlocksToMarkdown_app pre post lvl : forall num md1 num1 md2 num2,
  notionBlocksToMarkdown pre lvl num = Ok (md1, num1) ->
  notionBlocksToMarkdown post lvl num1 = Ok (md2, num2) ->
  notionBlocksToMarkdown (pre ++ post) lvl num = Ok (md1 ++ md2, num2).
Proof.
  induction pre as [|block pre IH]; intros num md1 num1 md2 num2 H1 H2; simpl in *.
  - inversion H1; subst. assumption.
  - destruct (blockToMarkdown block lvl num) as [[md num']|e|]; try discriminate.
    destruct (notionBlocksToMarkdown pre lvl num') as [[md' num'']|e|] eqn:Hpre;
      try discriminate.
    inversion H1; subst.
    rewrite (IH _ _ _ _ _ Hpre H2). now rewrite app_assoc.
Qed.

(** *** The numbering array *)

Lemma currentNumberAt_pos num i : (1 <= currentNumberAt num i)%nat.
Proof. unfold currentNumberAt. repeat case_match; lia. Qed.

Lemma currentNumberAt_assign (num : Numbering) (i v : nat) :
  currentNumberAt (assign num i (S v)) i = S v.
Proof.
  unfold currentNumberAt, assign.
  destruct (Nat.ltb_spec i (length num)) as [Hlt|Hge].
  - now rewrite list_lookup_insert_eq.
  - rewrite lookup_app_r by lia.
    rewrite lookup_app_r by (rewrite length_replicate; lia).
    rewrite length_replicate, Nat.sub_diag. reflexivity.
Qed.

Lemma currentNumberAt_assign_other (num : Numbering) (i j v : nat) :
  i <> j -> currentNumberAt (assign num i v) j = currentNumberAt num j.
Proof.
  intros Hne. unfold currentNumberAt, assign.
  destruct (Nat.ltb_spec i (length num)) as [Hlt|Hge].
  - now rewrite list_lookup_insert_ne.
  - destruct (Nat.lt_ge_cases j (length num)) as [Hj|Hj].
    + now rewrite lookup_app_l.
    + rewrite (lookup_ge_None_2 num j) by lia.
      rewrite lookup_app_r by lia.
      destruct (Nat.lt_ge_cases (j - length num) (i - length num)) as [Hk|Hk].
      * rewrite lookup_app_l by (rewrite length_replicate; lia).
        now rewrite lookup_replicate_2.
      * rewrite lookup_app_r by (rewrite length_replicate; lia).
        rewrite length_replicate.
        destruct (j - length num - (i - length num))%nat as [|k] eqn:Hd; [lia|].
        reflexivity.
Qed.

(** *** Blocks one by one *)

Lemma hasType_only block (t t' : string) :
  hasType block t = true -> lit t <> lit t' -> hasType block t' = false.
Proof.
  unfold hasType. intros H Hne. apply bool_decide_eq_true in H.
  apply bool_decide_eq_false. congruence.
Qed.

Ltac other_type H :=
  rewrite (hasType_only _ _ _ H)
    by (let Heq := fresh in intros Heq; vm_compute in Heq; discriminate Heq).

(** A numbered item takes the number the array holds for its level and
    leaves the next one there. *)
Lemma blockToMarkdown_numbered block lvl num t :
  hasType block "numbered_list_item" = true ->
  extractRichText (richTextOf block (lit "numbered_list_item")) = Ok t ->
  blockToMarkdown block lvl num =
    Ok (indentOf lvl ++ Js.of_nat (currentNumberAt num lvl) ++ lit ". "
          ++ t ++ [newline],
        assign num lvl (currentNumberAt num lvl + 1)).
Proof.
  intros Hty Hrt. unfold blockToMarkdown, blockToMarkdown_try.
  do 5 other_type Hty. rewrite Hty, Hrt. reflexivity.
Qed.

(** Any other block, and a numbered item whose text cannot be read, leave
    the array as it is. *)
Lemma blockToMarkdown_keeps_numbering block lvl num md num' :
  rendersNumber block = false ->
  blockToMarkdown block lvl num = Ok (md, num') -> num' = num.
Proof.
  unfold rendersNumber, blockToMarkdown, blockToMarkdown_try, withText.
  intros Hr H.
  repeat case_match; try discriminate;
    try (inversion H; subst; reflexivity); simpl in Hr; congruence.
Qed.

Lemma blockToMarkdown_counts block lvl num md num' :
  blockToMarkdown block lvl num = Ok (md, num') ->
  currentNumberAt num' lvl
  = (currentNumberAt num lvl + if rendersNumber block then 1 else 0)%nat.
Proof.
  intros H. destruct (rendersNumber block) eqn:Hr.
  - unfold rendersNumber in Hr. apply andb_true_iff in Hr as [Hty Hrt].
    destruct (extractRichText (richTextOf block (lit "numbered_list_item")))
      as [t| |] eqn:Ht; try discriminate.
    rewrite (blockToMarkdown_numbered _ _ _ _ Hty Ht) in H.
    inversion H; subst.
    replace (currentNumberAt num lvl + 1)%nat with (S (currentNumberAt num lvl))
      by lia.
    rewrite currentNumberAt_assign. lia.
  - rewrite (blockToMarkdown_keeps_numbering _ _ _ _ _ Hr H). lia.
Qed.

Lemma notionBlocksToMarkdown_counts blocks lvl : forall num md num',
  notionBlocksToMarkdown blocks lvl num = Ok (md, num') ->
  currentNumberAt num' lvl
  = (currentNumberAt num lvl + renderedNumbers blocks)%nat.
Proof.
  induction blocks as [|block blocks IH]; intros num md num' H; simpl in H.
  - inversion H; subst. unfold renderedNumbers. simpl. lia.
  - destruct (blockToMarkdown block lvl num) as [[md1 num1]|e|] eqn:Hb;
      try discriminate.
    destruct (notionBlocksToMarkdown blocks lvl num1) as [[md2 num2]|e|] eqn:Hbs;
      try discriminate.
    inversion H; subst.
    rewrite (IH _ _ _ Hbs), (blockToMarkdown_counts _ _ _ _ _ Hb).
    unfold renderedNumbers. simpl.
    destruct (rendersNumber block); simpl; lia.
Qed.

Lemma listItem_text kind t :
  extractRichText (richTextOf (listItem kind t) (lit kind)) = Ok t.
Proof.
  unfold richTextOf, payloadOf, listItem. simpl.
  rewrite bool_decide_eq_true_2 by reflexivity. simpl.
  now rewrite app_nil_r.
Qed.

Lemma blockToMarkdown_bulleted block lvl num t :
  hasType block "bulleted_list_item" = true ->
  extractRichText (richTextOf block (lit "bulleted_list_item")) = Ok t ->
  blockToMarkdown block lvl num
  = Ok ((indentOf lvl ++ lit "- ") ++ t ++ [newline], num).
Proof.
  intros Hty Hrt. unfold blockToMarkdown, blockToMarkdown_try, withText.
  do 4 other_type Hty. rewrite Hty, Hrt. reflexivity.
Qed.

Lemma hasType_listItem kind t : hasType (listItem kind t) kind = true.
Proof. unfold hasType. now apply bool_decide_eq_true. Qed.

(** The example of the specification, for any four texts. *)
Lemma example_numbering a b c d :
  notionBlocksToMarkdown [numbered a; numbered b; bulleted c; numbered d] 0 []
  = Ok (lit "1. " ++ a ++ [newline] ++ lit "2. " ++ b ++ [newline]
          ++ lit "- " ++ c ++ [newline] ++ lit "3. " ++ d ++ [newline],
        [4%nat]).
Proof.
  unfold notionBlocksToMarkdown, numbered, bulleted.
  rewrite (blockToMarkdown_numbered _ _ _ a (hasType_listItem _ _)
             (listItem_text _ _)).
  rewrite (blockToMarkdown_numbered _ _ _ b (hasType_listItem _ _)
             (listItem_text _ _)).
  rewrite (blockToMarkdown_bulleted _ _ _ c (hasType_listItem _ _)
             (listItem_text _ _)).
  rewrite (blockToMarkdown_numbered _ _ _ d (hasType_listItem _ _)
             (listItem_text _ _)).
  cbv beta iota. rewrite <- !app_assoc. vm_compute. reflexivity.
Qed.

Lemma legacy_listItem_text kind t :
  Legacy.plainText (richTextOf (listItem kind t) (lit kind)) = Ok t.
Proof.
  unfold richTextOf, payloadOf, listItem. simpl.
  rewrite bool_decide_eq_true_2 by reflexivity. simpl.
  now rewrite app_nil_r.
Qed.

Section LegacyFacts.

Variable getBlockChildren : jsstring -> result (list NotionBlock).
Variable convertTable : NotionBlock -> result jsstring.
Variable render : list NotionBlock -> nat -> Numbering -> result (jsstring * Numbering).

Local Abbreviation legacyBlock :=
  (Legacy.blockToMarkdown getBlockChildren convertTable render).

Lemma legacy_numbered block lvl num t :
  hasType block "numbered_list_item" = true ->
  has_children block = false ->
  Legacy.plainText (richTextOf block (lit "numbered_list_item")) = Ok t ->
  legacyBlock block lvl num
  = Ok ((indentOf lvl ++ Js.of_nat (currentNumberAt num lvl) ++ lit ". ")
          ++ t ++ [newline],
        assign num lvl (currentNumberAt num lvl + 1)).
Proof.
  intros Hty Hch Hrt. unfold Legacy.blockToMarkdown.
  do 5 other_type Hty. rewrite Hty.
  unfold Legacy.withChildren, Legacy.line. now rewrite Hrt, Hch.
Qed.

Lemma legacy_bulleted block lvl num t :
  hasType block "bulleted_list_item" = true ->
  has_children block = false ->
  Legacy.plainText (richTextOf block (lit "bulleted_list_item")) = Ok t ->
  legacyBlock block lvl num
  = Ok ((indentOf lvl ++ lit "- ") ++ t ++ [newline], num).
Proof.
  intros Hty Hch Hrt. unfold Legacy.blockToMarkdown.
  do 4 other_type Hty. rewrite Hty.
  unfold Legacy.withChildren, Legacy.line. now rewrite Hrt, Hch.
Qed.

End LegacyFacts.

Lemma legacy_example_numbering getBlockChildren convertTable depth a b c d :
  Legacy.blocksToMarkdown getBlockChildren convertTable depth
    [numbered a; numbered b; bulleted c; numbered d] 0 []
  = Ok (lit "1. " ++ a ++ [newline] ++ lit "2. " ++ b ++ [newline]
          ++ lit "- " ++ c ++ [newline] ++ lit "3. " ++ d ++ [newline],
        [4%nat]).
Proof.
  destruct depth; unfold Legacy.blocksToMarkdown, Legacy.blocksToMarkdown_each,
    numbered, bulleted;
    rewrite (legacy_numbered _ _ _ _ _ _ a (hasType_listItem _ _) eq_refl
               (legacy_listItem_text _ _));
    rewrite (legacy_numbered _ _ _ _ _ _ b (hasType_listItem _ _) eq_refl
               (legacy_listItem_text _ _));
    rewrite (legacy_bulleted _ _ _ _ _ _ c (hasType_listItem _ _) eq_refl
               (legacy_listItem_text _ _));
    rewrite (legacy_numbered _ _ _ _ _ _ d (hasType_listItem _ _) eq_refl
               (legacy_listItem_text _ _));
    cbv beta iota; rewrite <- !app_assoc; vm_compute; reflexivity.
Qed.

(** C4, as the code has it: the counter of a nesting level is never reset
    during a conversion. A numbered item is written with the number the
    caller's array held for the level plus the number of numbered items
    written before it at that level, whatever blocks stand in between; so
    [numbered, numbered, bulleted, numbered] is written 1., 2., -, 3. by
    both converters. *)
Theorem numbering_never_resets :
  (forall pre block post lvl num t,
      hasType block "numbered_list_item" = true ->
      extractRichText (richTextOf block (lit "numbered_list_item")) = Ok t ->
      exists md1 num1 md2 num2,
        notionBlocksToMarkdown pre lvl num = Ok (md1, num1) /\
        notionBlocksToMarkdown post lvl
          (assign num1 lvl (currentNumberAt num1 lvl + 1)) = Ok (md2, num2) /\
        notionBlocksToMarkdown (pre ++ block :: post) lvl num
        = Ok (md1
                ++ (indentOf lvl
                      ++ Js.of_nat (currentNumberAt num lvl + renderedNumbers pre)
                      ++ lit ". " ++ t ++ [newline])
                ++ md2,
              num2))
  /\ (forall a b c d,
        notionBlocksToMarkdown
          [numbered a; numbered b; bulleted c; numbered d] 0 []
        = Ok (lit "1. " ++ a ++ [newline] ++ lit "2. " ++ b ++ [newline]
                ++ lit "- " ++ c ++ [newline] ++ lit "3. " ++ d ++ [newline],
              [4%nat]))
  /\ (forall getBlockChildren convertTable depth a b c d,
        Legacy.blocksToMarkdown getBlockChildren convertTable depth
          [numbered a; numbered b; bulleted c; numbered d] 0 []
        = Ok (lit "1. " ++ a ++ [newline] ++ lit "2. " ++ b ++ [newline]
                ++ lit "- " ++ c ++ [newline] ++ lit "3. " ++ d ++ [newline],
              [4%nat])).
Proof.
  split; [|split].
  - intros pre block post lvl num t Hty Hrt.
    destruct (notionBlocksToMarkdown_total pre lvl num) as (md1 & num1 & Hpre).
    destruct (notionBlocksToMarkdown_total post lvl
                (assign num1 lvl (currentNumberAt num1 lvl + 1)))
      as (md2 & num2 & Hpost).
    exists md1, num1, md2, num2. split; [assumption|]. split; [assumption|].
    apply (notionBlocksToMarkdown_app _ _ _ _ _ _ _ _ Hpre).
    simpl. rewrite (blockToMarkdown_numbered _ _ _ _ Hty Hrt), Hpost.
    now rewrite (notionBlocksToMarkdown_counts _ _ _ _ _ Hpre).
  - apply example_numbering.
  - apply legacy_example_numbering.
Qed.

Lemma numbering_never_resets_witness :
  exists md1 num1 md2 num2,
    notionBlocksToMarkdown
      [numbered (lit "a"); numbered (lit "b"); bulleted (lit "c")] 0 []
      = Ok (md1, num1) /\
    notionBlocksToMarkdown [] 0 (assign num1 0 (currentNumberAt num1 0 + 1))
      = Ok (md2, num2) /\
    notionBlocksToMarkdown
      ([numbered (lit "a"); numbered (lit "b"); bulleted (lit "c")]
         ++ numbered (lit "d") :: []) 0 []
    = Ok (md1 ++ (indentOf 0 ++ Js.of_nat 3 ++ lit ". " ++ lit "d" ++ [newline])
            ++ md2, num2).
Proof.
  destruct numbering_never_resets as [H _].
  apply (H [numbered (lit "a"); numbered (lit "b"); bulleted (lit "c")]
           (numbered (lit "d")) [] 0%nat [] (lit "d")).
  - vm_compute. reflexivity.
  - vm_compute. reflexivity.
Defined.

(** The claim as it is written fails on its own example: the fourth marker
    is not [1.]. *)
Lemma numbering_reset_counterexample :
  ~ (exists num',
        notionBlocksToMarkdown
          [numbered (lit "a"); numbered (lit "b"); bulleted (lit "c");
           numbered (lit "d")] 0 []
        = Ok (lines ["1. a"; "2. b"; "- c"; "1. d"]%string, num')).
Proof.
  intros [num' H]. rewrite example_numbering in H.
  vm_compute in H. discriminate H.
Qed.

Section Totality.

Variable markdownToBlocks : jsstring -> Error + list NotionBlock.

Lemma unhandled_types block :
  handled block = false ->
  Forall (fun t => hasType block t = false) handledTypes.
Proof.
  unfold handled. intros H. apply List.Forall_forall. intros t Hin.
  destruct (hasType block t) eqn:Ht; [|reflexivity].
  assert (existsb (hasType block) handledTypes = true) as Hex
    by (apply existsb_exists; eauto).
  congruence.
Qed.

Lemma blockToMarkdown_unhandled block lvl num :
  handled block = false ->
  blockToMarkdown block lvl num
  = Ok (match extractAnyRichText block with
        | Ok [] => []
        | Ok fallbackText => indentOf lvl ++ fallbackText ++ [newline]
        | _ => errorLine block lvl
        end, num).
Proof.
  intros H. apply unhandled_types in H. unfold handledTypes in H.
  repeat match goal with
         | H : Forall _ (_ :: _) |- _ => apply Forall_cons in H as [? H]
         end.
  unfold blockToMarkdown, blockToMarkdown_try.
  repeat match goal with
         | E : hasType block _ = false |- _ => rewrite E; clear E
         end.
  pose proof (extractAnyRichText_fuel block) as Hf.
  destruct (extractAnyRichText block) as [[|c t]|e|]; try reflexivity.
  congruence.
Qed.

Lemma nullable_blocks blocks : forall lvl num,
  Nullable.notionBlocksToMarkdown (map Some blocks) lvl num
  = notionBlocksToMarkdown blocks lvl num.
Proof.
  induction blocks as [|block blocks IH]; intros lvl num; [reflexivity|].
  cbn [map Nullable.notionBlocksToMarkdown Nullable.blockToMarkdown
       notionBlocksToMarkdown].
  destruct (blockToMarkdown block lvl num) as [[md num1]|e|]; [|reflexivity..].
  now rewrite IH.
Qed.

Lemma nullable_null_entry entries : forall lvl num,
  In None entries ->
  Nullable.notionBlocksToMarkdown entries lvl num = Throw Nullable.nullBlock.
Proof.
  induction entries as [|[block|] entries IH]; intros lvl num Hin.
  - destruct Hin.
  - destruct Hin as [Hin|Hin]; [discriminate|].
    cbn [Nullable.notionBlocksToMarkdown Nullable.blockToMarkdown].
    destruct (blockToMarkdown_total block lvl num) as (md & num1 & ->).
    now rewrite (IH lvl num1 Hin).
  - reflexivity.
Qed.

(** C9, as the code has it: neither direction of the codec throws on what
    its parameter types admit. Blocks to Markdown: every array whose
    entries are blocks is converted, block after block; a block of a type
    without a case contributes the rich text found in it, or nothing when
    there is none (and the error line of the [catch] block when reading
    that rich text fails). An array with an entry that is [null] or
    [undefined], which the type [NotionBlock[]] excludes, makes the
    conversion throw. Markdown to blocks: when the parser throws, the
    result is the single paragraph block holding the input text. *)
Theorem codec_never_throws_on_blocks :
  (forall blocks lvl num,
      exists md num',
        notionBlocksToMarkdown blocks lvl num = Ok (md, num') /\
        Nullable.notionBlocksToMarkdown (map Some blocks) lvl num = Ok (md, num'))
  /\ (forall entries lvl num,
        In None entries ->
        Nullable.notionBlocksToMarkdown entries lvl num
        = Throw Nullable.nullBlock)
  /\ (forall block blocks lvl num,
        exists md num1 md' num2,
          blockToMarkdown block lvl num = Ok (md, num1) /\
          notionBlocksToMarkdown blocks lvl num1 = Ok (md', num2) /\
          notionBlocksToMarkdown (block :: blocks) lvl num = Ok (md ++ md', num2))
  /\ (forall block lvl num,
        handled block = false ->
        blockToMarkdown block lvl num
        = Ok (match extractAnyRichText block with
              | Ok [] => []
              | Ok fallbackText => indentOf lvl ++ fallbackText ++ [newline]
              | _ => errorLine block lvl
              end, num))
  /\ (forall markdown,
        exists blocks,
          markdownToNotionBlocks markdownToBlocks markdown = Ok blocks /\
          (forall e, markdownToBlocks markdown = inl e ->
                     blocks = [fallbackBlock markdown]) /\
          (forall parsed, markdownToBlocks markdown = inr parsed ->
                          blocks = parsed))
  /\ (forall markdown lvl num,
        notionBlocksToMarkdown [fallbackBlock markdown] lvl num
        = Ok (indentOf lvl ++ markdown ++ [newline], num)).
Proof.
  split; [|split; [|split; [|split; [|split]]]].
  - intros blocks lvl num.
    destruct (notionBlocksToMarkdown_total blocks lvl num) as (md & num' & H).
    exists md, num'. split; [assumption|]. now rewrite nullable_blocks.
  - apply nullable_null_entry.
  - intros block blocks lvl num.
    destruct (blockToMarkdown_total block lvl num) as (md & num1 & Hb).
    destruct (notionBlocksToMarkdown_total blocks lvl num1) as (md' & num2 & Hbs).
    exists md, num1, md', num2. simpl. now rewrite Hb, Hbs.
  - apply blockToMarkdown_unhandled.
  - intros markdown. unfold markdownToNotionBlocks.
    destruct (markdownToBlocks markdown) as [e|parsed]; eexists;
      (split; [reflexivity|]); split; congruence.
  - intros markdown lvl num.
    unfold notionBlocksToMarkdown, blockToMarkdown, blockToMarkdown_try, withText.
    replace (hasType (fallbackBlock markdown) "paragraph") with true
      by (symmetry; now apply bool_decide_eq_true).
    replace (extractRichText (richTextOf (fallbackBlock markdown) (lit "paragraph")))
      with (Ok (A := jsstring) (markdown ++ [])) by reflexivity.
    now rewrite !app_nil_r.
Qed.

End Totality.

Lemma codec_never_throws_on_blocks_witness :
  blockToMarkdown (callout (lit "note")) 1 []
  = Ok (lit "    note" ++ [newline], []) /\
  Nullable.notionBlocksToMarkdown [Some (callout (lit "note")); None] 0 []
  = Throw Nullable.nullBlock.
Proof.
  destruct (codec_never_throws_on_blocks (fun _ => inr []))
    as (_ & Hnull & _ & H & _).
  split.
  - rewrite (H (callout (lit "note")) 1%nat []).
    + vm_compute. reflexivity.
    + vm_compute. reflexivity.
  - apply Hnull. right. now left.
Defined.

(** The claim as it is written fails: an array that holds [null] is an
    input, and its conversion throws. *)
Lemma null_entry_throws_counterexample :
  ~ (exists md num',
        Nullable.notionBlocksToMarkdown [Some (callout (lit "note")); None] 0 []
        = Ok (md, num')).
Proof. intros (md & num' & H). vm_compute in H. discriminate H. Qed.

End CodecFacts.

(** ** The Notion client *)

Module NotionFacts.
Import Codec Notion.

Lemma makeRequest_answer {A : Type} request (reply : list Request -> Reply A)
    sent status msg body :
  reply sent = Answer status msg body -> status < 400 ->
  makeRequest request reply sent
  = (Ok (mkResponse status body), sent ++ [request]).
Proof.
  intros H Hs. unfold makeRequest. rewrite H.
  destruct (Z.leb_spec 400 status); [lia|reflexivity].
Qed.

Lemma makeRequest_sent {A : Type} request (reply : list Request -> Reply A)
    sent r sent' :
  makeRequest request reply sent = (r, sent') -> sent' = sent ++ [request].
Proof.
  unfold makeRequest. intros H.
  destruct (reply sent) as [e|status msg body].
  - now inversion H.
  - destruct (400 <=? status); now inversion H.
Qed.

(** What [makeRequest] returns is what the service answered. *)
Lemma makeRequest_ok {A : Type} request (reply : list Request -> Reply A)
    sent response sent' :
  makeRequest request reply sent = (Ok response, sent') ->
  exists msg, reply sent = Answer (status response) msg (json response).
Proof.
  unfold makeRequest. intros H.
  destruct (reply sent) as [e|status msg body]; [discriminate|].
  destruct (400 <=? status); [discriminate|].
  inversion H; subst. simpl. eauto.
Qed.

Section ClientFacts.

Variable server : Server.

Local Abbreviation getPageBlocks_loop := (getPageBlocks_loop server).
Local Abbreviation queryDatabase_loop := (queryDatabase_loop server).

(** *** The cursor loops *)

Lemma getPageBlocks_loop_complete pageId sent cursor pages sent' :
  follows (fun sent c => listed server sent pageId c) (GET_children pageId)
    sent cursor pages sent' ->
  forall fuel acc, (length pages <= fuel)%nat ->
    getPageBlocks_loop fuel pageId acc cursor sent
    = (Ok (acc ++ concat pages), sent').
Proof.
  induction 1 as [sent cursor rs next msg Hr Hn
                 |sent cursor rs next msg pages sent' Hr Hn _ IH];
    intros fuel acc Hfuel; (destruct fuel as [|fuel]; [simpl in Hfuel; lia|]);
    simpl; unfold bind;
    rewrite (makeRequest_answer _ _ _ _ _ _ Hr) by lia; simpl; rewrite Hn.
  - unfold ret. now rewrite app_nil_r.
  - rewrite IH by (simpl in Hfuel; lia). now rewrite app_assoc.
Qed.

Lemma getPageBlocks_loop_sound pageId fuel : forall acc cursor sent blocks sent',
  getPageBlocks_loop fuel pageId acc cursor sent = (Ok blocks, sent') ->
  exists pages,
    follows (fun sent c => listed server sent pageId c) (GET_children pageId)
      sent cursor pages sent' /\
    blocks = acc ++ concat pages.
Proof.
  induction fuel as [|fuel IH]; intros acc cursor sent blocks sent' H;
    simpl in H; [discriminate|].
  unfold bind in H.
  destruct (makeRequest _ _ sent) as [[response| |] sent1] eqn:Hreq;
    try discriminate.
  pose proof (makeRequest_sent _ _ _ _ _ Hreq) as ->.
  destruct (makeRequest_ok _ _ _ _ _ Hreq) as [msg Hans].
  destruct (Z.eqb_spec (status response) 200) as [Hs|Hs]; [|discriminate].
  rewrite Hs in Hans.
  destruct (json response) as [[[rs|] next]|]; try discriminate.
  destruct (truthy_opt next) eqn:Hn.
  - destruct (IH _ _ _ _ _ H) as (pages & Hf & ->).
    exists (rs :: pages). split.
    + eapply follows_next; eauto.
    + simpl. now rewrite app_assoc.
  - inversion H; subst. exists [rs]. split.
    + eapply follows_last; eauto.
    + simpl. now rewrite app_nil_r.
Qed.

Lemma queryDatabase_loop_complete databaseId sent cursor pages sent' :
  follows (fun sent c => queried server sent databaseId c) (POST_query databaseId)
    sent cursor pages sent' ->
  forall fuel acc, (length pages <= fuel)%nat ->
    queryDatabase_loop fuel databaseId acc cursor sent
    = (Ok (acc ++ List.filter isValidNotionPage (concat pages)), sent').
Proof.
  induction 1 as [sent cursor rs next msg Hr Hn
                 |sent cursor rs next msg pages sent' Hr Hn _ IH];
    intros fuel acc Hfuel; (destruct fuel as [|fuel]; [simpl in Hfuel; lia|]);
    simpl; unfold bind;
    rewrite (makeRequest_answer _ _ _ _ _ _ Hr) by lia; simpl; rewrite Hn.
  - unfold ret. now rewrite app_nil_r.
  - rewrite IH by (simpl in Hfuel; lia).
    now rewrite List.filter_app, app_assoc.
Qed.

Lemma queryDatabase_loop_sound databaseId fuel :
  forall acc cursor sent found sent',
  queryDatabase_loop fuel databaseId acc cursor sent = (Ok found, sent') ->
  exists pages,
    follows (fun sent c => queried server sent databaseId c)
      (POST_query databaseId) sent cursor pages sent' /\
    found = acc ++ List.filter isValidNotionPage (concat pages).
Proof.
  induction fuel as [|fuel IH]; intros acc cursor sent found sent' H;
    simpl in H; [discriminate|].
  unfold bind in H.
  destruct (makeRequest _ _ sent) as [[response| |] sent1] eqn:Hreq;
    try discriminate.
  pose proof (makeRequest_sent _ _ _ _ _ Hreq) as ->.
  destruct (makeRequest_ok _ _ _ _ _ Hreq) as [msg Hans].
  destruct (Z.eqb_spec (status response) 200) as [Hs|Hs]; [|discriminate].
  rewrite Hs in Hans.
  destruct (json response) as [[[rs|] next]|]; try discriminate.
  destruct (truthy_opt next) eqn:Hn.
  - destruct (IH _ _ _ _ _ H) as (pages & Hf & ->).
    exists (rs :: pages). split.
    + eapply follows_next; eauto.
    + simpl. now rewrite List.filter_app, app_assoc.
  - inversion H; subst. exists [rs]. split.
    + eapply follows_last; eauto.
    + simpl. now rewrite app_nil_r.
Qed.

Lemma isValidNotionPage_shape (entry : option Page.NotionPage) :
  isValidNotionPage entry = true <->
  exists p pageId ps n items,
    entry = Some p /\ Page.id p = Some pageId /\ pageId <> [] /\
    Page.properties p = Some ps /\ Page.Name ps = Some n /\
    Page.title n = Some (RichTextArray items).
Proof.
  split.
  - unfold isValidNotionPage. intros H.
    destruct entry as [[pid pps]|]; [|discriminate]. simpl in H.
    destruct pid as [[|c pageId]|]; simpl in H; try discriminate.
    destruct pps as [[nm]|]; try discriminate.
    destruct nm as [[ttl]|]; try discriminate.
    destruct ttl as [[|items]|]; try discriminate.
    do 5 eexists. repeat split; try reflexivity. discriminate.
  - intros (p & pageId & ps & n & items & -> & Hid & Hne & Hps & Hn & Ht).
    unfold isValidNotionPage. rewrite Hid, Hps, Hn, Ht.
    destruct pageId; [congruence|reflexivity].
Qed.

(** C6: [queryDatabase] asks for page after page until an answer carries no
    (truthy) next cursor, and returns the entries of all the pages, in
    order, that pass [isValidNotionPage], the check for an id and a title
    array; what it returns is never less than the whole chain. The same
    holds, without the filter, of [getPageBlocks]. *)
Theorem cursor_loops_return_every_page :
  (forall databaseId sent pages sent' fuel,
      follows (fun sent c => queried server sent databaseId c)
        (POST_query databaseId) sent None pages sent' ->
      (length pages <= fuel)%nat ->
      queryDatabase server fuel databaseId sent
      = (Ok (List.filter isValidNotionPage (concat pages)), sent'))
  /\ (forall databaseId fuel sent found sent',
        queryDatabase server fuel databaseId sent = (Ok found, sent') ->
        exists pages,
          follows (fun sent c => queried server sent databaseId c)
            (POST_query databaseId) sent None pages sent' /\
          found = List.filter isValidNotionPage (concat pages))
  /\ (forall entry,
        isValidNotionPage entry = true <->
        exists p pageId ps n items,
          entry = Some p /\ Page.id p = Some pageId /\ pageId <> [] /\
          Page.properties p = Some ps /\ Page.Name ps = Some n /\
          Page.title n = Some (RichTextArray items))
  /\ (forall pageId sent pages sent' fuel,
        follows (fun sent c => listed server sent pageId c)
          (GET_children pageId) sent None pages sent' ->
        (length pages <= fuel)%nat ->
        getPageBlocks server fuel pageId sent = (Ok (concat pages), sent'))
  /\ (forall pageId fuel sent blocks sent',
        getPageBlocks server fuel pageId sent = (Ok blocks, sent') ->
        exists pages,
          follows (fun sent c => listed server sent pageId c)
            (GET_children pageId) sent None pages sent' /\
          blocks = concat pages).
Proof.
  split; [|split; [|split; [|split]]].
  - intros databaseId sent pages sent' fuel Hf Hfuel.
    apply (queryDatabase_loop_complete _ _ _ _ _ Hf fuel [] Hfuel).
  - intros databaseId fuel sent found sent' H.
    apply (queryDatabase_loop_sound _ _ [] _ _ _ _ H).
  - apply isValidNotionPage_shape.
  - intros pageId sent pages sent' fuel Hf Hfuel.
    apply (getPageBlocks_loop_complete _ _ _ _ _ Hf fuel [] Hfuel).
  - intros pageId fuel sent blocks sent' H.
    apply (getPageBlocks_loop_sound _ _ [] _ _ _ _ H).
Qed.

(** *** Appending in batches *)

Lemma appendBlocks_from_unfold parentId blocks i sent :
  appendBlocks_from server parentId blocks i sent =
    if lt_dec i (length blocks) then
      match makeRequest
              (PATCH_children parentId (slice blocks i (i + batchSize)))
              (fun sent => appended server sent parentId) sent with
      | (Ok response, sent') =>
          if Z.eq_dec (status response) 200
          then appendBlocks_from server parentId blocks (i + batchSize)%nat sent'
          else (Throw (failed "Failed to append blocks: " (status response)), sent')
      | (Throw e, sent') => (Throw e, sent')
      | (OutOfFuel, sent') => (OutOfFuel, sent')
      end
    else (Ok tt, sent).
Proof.
  simp appendBlocks_from.
  destruct (lt_dec i (length blocks)); simpl; [|reflexivity].
  destruct (makeRequest _ _ sent) as [[response|e|] sent']; simpl;
    try reflexivity.
  destruct (Z.eq_dec (status response) 200); reflexivity.
Qed.

Lemma batches_count (n : nat) :
  (0 < n)%nat -> ((n + 9) / 10 = S ((n - 10 + 9) / 10))%nat.
Proof.
  intros Hn. destruct (Nat.le_gt_cases n 10) as [Hle|Hgt].
  - replace (n - 10 + 9)%nat with 9%nat by lia.
    assert (n + 9 = 1 * 10 + (n - 1))%nat as -> by lia.
    rewrite Nat.div_add_l by lia.
    rewrite (Nat.div_small (n - 1) 10) by lia. reflexivity.
  - assert (n + 9 = 1 * 10 + (n - 10 + 9))%nat as -> by lia.
    rewrite Nat.div_add_l by lia. lia.
Qed.

Lemma appendBlocks_from_batches parentId blocks :
  (forall sent, exists msg body,
      appended server sent parentId = Answer 200 msg body) ->
  forall n i sent, n = (length blocks - i)%nat ->
    exists batches,
      appendBlocks_from server parentId blocks i sent
      = (Ok tt, sent ++ map (PATCH_children parentId) batches) /\
      concat batches = drop i blocks /\
      Forall (fun batch => (1 <= length batch <= 10)%nat) batches /\
      length batches = ((n + 9) / 10)%nat.
Proof.
  intros Hok n. induction n as [n IH] using lt_wf_ind. intros i sent Hn.
  rewrite appendBlocks_from_unfold.
  destruct (lt_dec i (length blocks)) as [Hlt|Hge].
  - destruct (Hok sent) as (msg & body & Hans).
    rewrite (makeRequest_answer _ _ _ _ _ _ Hans) by lia. cbn [status].
    destruct (Z.eq_dec 200 200) as [_|Hne]; [|congruence].
    destruct (IH (length blocks - (i + batchSize))%nat
                ltac:(unfold batchSize; lia) (i + batchSize)%nat
                (sent ++ [PATCH_children parentId
                            (slice blocks i (i + batchSize))]) eq_refl)
      as (batches & Hrun & Hcat & Hlen & Hcount).
    exists (slice blocks i (i + batchSize) :: batches).
    rewrite Hrun, <- app_assoc. clear Hrun.
    unfold slice, batchSize in *.
    replace (i + 10 - i)%nat with 10%nat by lia.
    repeat split.
    + simpl. rewrite Hcat, <- drop_drop. apply take_drop.
    + constructor; [|assumption].
      rewrite length_take, length_drop. lia.
    + cbn [length]. rewrite Hcount, (batches_count n) by lia.
      do 3 f_equal. lia.
  - exists []. repeat split.
    + now rewrite app_nil_r.
    + simpl. symmetry. apply drop_ge. lia.
    + constructor.
    + replace n with 0%nat by lia. reflexivity.
Qed.

(** C7: when the service accepts every batch, [appendBlocks] sends the
    blocks in consecutive batches of 1 to 10 blocks, one request each,
    ceiling(n/10) requests in all, whose payloads put together are the list
    it was given; for the empty list it sends nothing. *)
Theorem appendBlocks_sends_batches_of_ten parentId blocks sent :
  (forall sent, exists msg body,
      appended server sent parentId = Answer 200 msg body) ->
  exists batches,
    appendBlocks server parentId blocks sent
    = (Ok tt, sent ++ map (PATCH_children parentId) batches) /\
    concat batches = blocks /\
    Forall (fun batch => (1 <= length batch <= 10)%nat) batches /\
    length batches = ((length blocks + 9) / 10)%nat /\
    (blocks = [] -> batches = []).
Proof.
  intros Hok.
  destruct (appendBlocks_from_batches parentId blocks Hok
              (length blocks - 0)%nat 0%nat sent eq_refl)
    as (batches & Hrun & Hcat & Hlen & Hcount).
  rewrite Nat.sub_0_r in Hcount.
  exists batches. repeat split; try assumption.
  intros ->. destruct batches; [reflexivity|discriminate].
Qed.

(** *** Clearing a page *)

Lemma deleteBlock_sent blockId sent r sent' :
  deleteBlock server blockId sent = (r, sent') ->
  sent' = sent ++ [DELETE_block blockId].
Proof.
  unfold deleteBlock, bind. intros H.
  destruct (makeRequest _ _ sent) as [[response|e|] sent1] eqn:Hreq;
    pose proof (makeRequest_sent _ _ _ _ _ Hreq) as ->.
  - destruct (status response =? 200); now inversion H.
  - now inversion H.
  - now inversion H.
Qed.

Lemma forEach_delete_all (blocks : list NotionBlock) :
  (forall sent blockId, exists msg body,
      deleted server sent blockId = Answer 200 msg body) ->
  forall sent,
    forEach blocks (fun block => deleteBlock server (Codec.id block)) sent
    = (Ok tt, sent ++ map DELETE_block (map Codec.id blocks)).
Proof.
  intros Hok. induction blocks as [|block blocks IH]; intros sent; simpl.
  - unfold ret. now rewrite app_nil_r.
  - unfold bind at 1. unfold deleteBlock at 1. unfold bind at 1.
    destruct (Hok sent (Codec.id block)) as (msg & body & Hans).
    rewrite (makeRequest_answer _ _ _ _ _ _ Hans) by lia. simpl.
    rewrite IH, <- app_assoc. reflexivity.
Qed.

Lemma forEach_delete_prefix (blocks : list NotionBlock) : forall sent,
  exists r k,
    forEach blocks (fun block => deleteBlock server (Codec.id block)) sent
    = (r, sent ++ map DELETE_block (take k (map Codec.id blocks))).
Proof.
  induction blocks as [|block blocks IH]; intros sent; simpl.
  - exists (Ok tt), 0%nat. unfold ret. now rewrite app_nil_r.
  - unfold bind at 1.
    destruct (deleteBlock server (Codec.id block) sent) as [r sent1] eqn:Hdel.
    pose proof (deleteBlock_sent _ _ _ _ Hdel) as ->.
    destruct r as [[]|e|].
    + destruct (IH (sent ++ [DELETE_block (Codec.id block)])) as (r & k & ->).
      exists r, (S k). now rewrite <- app_assoc.
    + exists (Throw e), 1%nat. reflexivity.
    + exists OutOfFuel, 1%nat. reflexivity.
Qed.

(** C8: [clearPageBlocks] first fetches the whole list of children (every
    page of the cursor chain) and only then deletes: one request per child
    fetched, the last child first. A delete that is refused stops it, and
    when the fetch fails nothing is deleted. *)
Theorem clearPageBlocks_deletes_in_reverse fuel pageId sent :
  (forall pages sent1,
      follows (fun sent c => listed server sent pageId c)
        (GET_children pageId) sent None pages sent1 ->
      (length pages <= fuel)%nat ->
      (forall sent blockId, exists msg body,
          deleted server sent blockId = Answer 200 msg body) ->
      clearPageBlocks server fuel pageId sent
      = (Ok tt,
         sent1 ++ map DELETE_block (map Codec.id (rev (concat pages)))))
  /\ (forall blocks sent1,
        getPageBlocks server fuel pageId sent = (Ok blocks, sent1) ->
        exists r k,
          clearPageBlocks server fuel pageId sent
          = (r, sent1 ++ map DELETE_block (take k (map Codec.id (rev blocks)))))
  /\ (forall e sent1,
        getPageBlocks server fuel pageId sent = (Throw e, sent1) ->
        clearPageBlocks server fuel pageId sent = (Throw e, sent1)).
Proof.
  split; [|split].
  - intros pages sent1 Hf Hfuel Hok. unfold clearPageBlocks, bind.
    rewrite (getPageBlocks_loop_complete _ _ _ _ _ Hf fuel [] Hfuel
             : getPageBlocks server fuel pageId sent = _).
    simpl. apply (forEach_delete_all _ Hok).
  - intros blocks sent1 H. unfold clearPageBlocks, bind. rewrite H.
    apply forEach_delete_prefix.
  - intros e sent1 H. unfold clearPageBlocks, bind. now rewrite H.
Qed.

End ClientFacts.

Lemma demo_follows_query :
  follows (fun sent c => queried demoServer sent (lit "db") c)
    (POST_query (lit "db")) [] None
    [[titled "p1" "a.md:a"; None; untitled "p2"]; [titled "p3" "b.md:b"]]
    [POST_query (lit "db") None; POST_query (lit "db") (Some (lit "cursor-2"))].
Proof.
  change [POST_query (lit "db") None; POST_query (lit "db") (Some (lit "cursor-2"))]
    with (([] ++ [POST_query (lit "db") (sentCursor None)])
            ++ [POST_query (lit "db") (sentCursor (Some (lit "cursor-2")))]).
  eapply follows_next; [reflexivity|reflexivity|].
  eapply follows_last; reflexivity.
Defined.

Lemma demo_follows_children :
  follows (fun sent c => listed demoServer sent (lit "page") c)
    (GET_children (lit "page")) [] None
    [[child "b1"; child "b2"]; [child "b3"]]
    [GET_children (lit "page") None;
     GET_children (lit "page") (Some (lit "cursor-2"))].
Proof.
  change [GET_children (lit "page") None;
          GET_children (lit "page") (Some (lit "cursor-2"))]
    with (([] ++ [GET_children (lit "page") (sentCursor None)])
            ++ [GET_children (lit "page") (sentCursor (Some (lit "cursor-2")))]).
  eapply follows_next; [reflexivity|reflexivity|].
  eapply follows_last; reflexivity.
Defined.

Lemma cursor_loops_return_every_page_witness :
  queryDatabase demoServer 2 (lit "db") []
  = (Ok [titled "p1" "a.md:a"; titled "p3" "b.md:b"],
     [POST_query (lit "db") None; POST_query (lit "db") (Some (lit "cursor-2"))]).
Proof.
  destruct (cursor_loops_return_every_page demoServer) as [H _].
  apply (H (lit "db") [] _ _ 2%nat demo_follows_query).
  simpl. lia.
Defined.

Lemma appendBlocks_sends_batches_of_ten_witness :
  exists batches,
    appendBlocks demoServer (lit "page") (replicate 23 (child "b")) []
    = (Ok tt, [] ++ map (PATCH_children (lit "page")) batches) /\
    concat batches = replicate 23 (child "b") /\
    Forall (fun batch => (1 <= length batch <= 10)%nat) batches /\
    length batches = ((length (replicate 23 (child "b")) + 9) / 10)%nat /\
    (replicate 23 (child "b") = [] -> batches = []).
Proof.
  apply (appendBlocks_sends_batches_of_ten demoServer (lit "page")
           (replicate 23 (child "b")) []).
  intros sent. simpl. eauto.
Defined.

Lemma clearPageBlocks_deletes_in_reverse_witness :
  clearPageBlocks demoServer 2 (lit "page") []
  = (Ok tt,
     [GET_children (lit "page") None;
      GET_children (lit "page") (Some (lit "cursor-2"));
      DELETE_block (lit "b3"); DELETE_block (lit "b2"); DELETE_block (lit "b1")]).
Proof.
  destruct (clearPageBlocks_deletes_in_reverse demoServer 2 (lit "page") [])
    as [H _].
  apply (H _ _ demo_follows_children).
  - simpl. lia.
  - intros sent blockId. simpl. eauto.
Defined.

End NotionFacts.

(** ** Download and upload *)

Module ServicesFacts.
Import Codec Notion Services.

(** *** Titles *)

Lemma lastIndexOf_from_absent c s : forall i found,
  ~ In c s -> lastIndexOf_from c s i found = found.
Proof.
  induction s as [|x s IH]; intros i found Hnot; simpl; [reflexivity|].
  destruct (N.eqb_spec x c) as [->|Hne].
  - exfalso. apply Hnot. now left.
  - apply IH. intros Hin. apply Hnot. now right.
Qed.

Lemma lastIndexOf_from_last c p b : forall i found,
  ~ In c b ->
  lastIndexOf_from c (p ++ c :: b) i found = i + Z.of_nat (length p).
Proof.
  induction p as [|x p IH]; intros i found Hnot; simpl length; simpl app.
  - simpl. rewrite N.eqb_refl. rewrite lastIndexOf_from_absent by assumption.
    lia.
  - simpl. rewrite IH by assumption. lia.
Qed.

Lemma clamp_inside (s : jsstring) (n : nat) :
  (n <= length s)%nat -> clamp s (Z.of_nat n) = n.
Proof. intros H. unfold clamp. lia. Qed.

Lemma substring_prefix (p rest : jsstring) :
  substring (p ++ rest) 0 (Z.of_nat (length p)) = p.
Proof.
  unfold substring.
  rewrite (clamp_inside _ 0) by lia.
  rewrite clamp_inside by (rewrite length_app; lia).
  rewrite Nat.max_r, Nat.min_l, Nat.sub_0_r by lia.
  rewrite drop_0. now rewrite take_app_length.
Qed.

Lemma substring_from_suffix (p rest : jsstring) :
  substring_from (p ++ rest) (Z.of_nat (length p)) = rest.
Proof.
  unfold substring_from, substring.
  rewrite clamp_inside by (rewrite length_app; lia).
  rewrite (clamp_inside _ (length (p ++ rest))) by lia.
  rewrite length_app.
  rewrite Nat.max_r, Nat.min_l by lia.
  rewrite drop_app_length.
  replace (length p + length rest - length p)%nat with (length rest) by lia.
  apply firstn_all.
Qed.

Lemma splitTitle_titleOf (file : SyncQueue.TFile) :
  ~ In colon (SyncQueue.basename file) ->
  lastIndexOf colon (titleOf file) = Z.of_nat (length (SyncQueue.path file)) /\
  substring (titleOf file) 0 (lastIndexOf colon (titleOf file))
    = SyncQueue.path file /\
  substring_from (titleOf file) (lastIndexOf colon (titleOf file) + 1)
    = SyncQueue.basename file.
Proof.
  intros Hnot.
  assert (Hidx : lastIndexOf colon (titleOf file)
                 = Z.of_nat (length (SyncQueue.path file))).
  { unfold lastIndexOf, titleOf. simpl app.
    rewrite lastIndexOf_from_last by assumption. lia. }
  rewrite Hidx. split; [reflexivity|]. split.
  - apply substring_prefix.
  - unfold titleOf.
    replace (SyncQueue.path file ++ [colon] ++ SyncQueue.basename file)
      with ((SyncQueue.path file ++ [colon]) ++ SyncQueue.basename file)
      by now rewrite <- app_assoc.
    replace (Z.of_nat (length (SyncQueue.path file)) + 1)
      with (Z.of_nat (length (SyncQueue.path file ++ [colon])))
      by (rewrite length_app; simpl; lia).
    apply substring_from_suffix.
Qed.

(** *** Requests are only ever added *)

Lemma extends_ret {A : Type} (a : A) : extends (ret a).
Proof. intros sent. exists []. simpl. now rewrite app_nil_r. Qed.

Lemma extends_throw {A : Type} (e : Error) : extends (throw (A := A) e).
Proof. intros sent. exists []. simpl. now rewrite app_nil_r. Qed.

Lemma extends_outOfFuel {A : Type} : extends (outOfFuel (A := A)).
Proof. intros sent. exists []. simpl. now rewrite app_nil_r. Qed.

Lemma extends_makeRequest {A : Type} request (reply : list Request -> Reply A) :
  extends (makeRequest request reply).
Proof.
  intros sent. exists [request].
  destruct (makeRequest request reply sent) as [r sent'] eqn:H.
  apply NotionFacts.makeRequest_sent in H. now subst.
Qed.

Lemma extends_bind {A B : Type} (m : M A) (k : A -> M B) :
  extends m -> (forall a, extends (k a)) -> extends (bind m k).
Proof.
  intros Hm Hk sent. unfold bind. destruct (Hm sent) as [more Hmore].
  destruct (m sent) as [[a|e|] sent1]; simpl in Hmore; subst.
  - destruct (Hk a (sent ++ more)) as [more' ->].
    exists (more ++ more'). now rewrite app_assoc.
  - now exists more.
  - now exists more.
Qed.

Lemma extends_tryCatch {A : Type} (m : M A) (handler : Error -> M A) :
  extends m -> (forall e, extends (handler e)) -> extends (tryCatch m handler).
Proof.
  intros Hm Hh sent. unfold tryCatch. destruct (Hm sent) as [more Hmore].
  destruct (m sent) as [[a|e|] sent1]; simpl in Hmore; subst.
  - now exists more.
  - destruct (Hh e (sent ++ more)) as [more' ->].
    exists (more ++ more'). now rewrite app_assoc.
  - now exists more.
Qed.

Lemma extends_forEach {A : Type} (l : list A) (body : A -> M unit) :
  (forall a, extends (body a)) -> extends (forEach l body).
Proof.
  intros Hb. induction l as [|x l IH]; simpl.
  - apply extends_ret.
  - apply extends_bind; [apply Hb|]. intros _. apply IH.
Qed.

(** What follows a computation starts from the requests it left. *)
Lemma bind_continues {A B : Type} (m : M A) (k : A -> M B) sent r sent1 :
  m sent = (r, sent1) -> (forall a, extends (k a)) ->
  exists more, (bind m k sent).2 = sent1 ++ more.
Proof.
  intros Hm Hk. unfold bind. rewrite Hm. destruct r as [a|e|].
  - apply Hk.
  - exists []. simpl. now rewrite app_nil_r.
  - exists []. simpl. now rewrite app_nil_r.
Qed.

Section SyncFacts.

Variable server : Server.
Variable vault : Vault.
Variable normalizePath : jsstring -> jsstring.
Variable stringifyYaml : list (jsstring * jsstring) -> jsstring.
Variable now : jsstring.
Variable markdownToBlocks : jsstring -> Error + list NotionBlock.
Variable stringify : list NotionBlock -> jsstring.
Variable databaseID : jsstring.

Local Abbreviation downloadPage :=
  (downloadPage server vault normalizePath stringifyYaml now).
Local Abbreviation uploadFile :=
  (uploadFile server now markdownToBlocks stringify databaseID).

(** C3: the title of a file is its path, a colon and its basename. Split
    at its last colon it gives back the path and the basename, whenever the
    basename has no colon; [downloadPage] then goes on with that path when
    the path passes [validateFilePath]. A title without any colon is
    refused: the page is reported as failed, nothing is requested and
    nothing is written to the vault. *)
Theorem title_parses_back_and_colonless_is_skipped :
  (forall file,
      ~ In colon (SyncQueue.path file) ->
      ~ In colon (SyncQueue.basename file) ->
      lastIndexOf colon (titleOf file) = Z.of_nat (length (SyncQueue.path file)) /\
      substring (titleOf file) 0 (lastIndexOf colon (titleOf file))
        = SyncQueue.path file /\
      substring_from (titleOf file) (lastIndexOf colon (titleOf file) + 1)
        = SyncQueue.basename file /\
      (validateFilePath (SyncQueue.path file) = true ->
       splitTitle (titleOf file)
       = Ok (SyncQueue.path file, SyncQueue.basename file)))
  /\ (forall fullTitle,
        ~ In colon fullTitle ->
        splitTitle fullTitle
        = Throw (newError (lit "Page title does not contain path separator")))
  /\ (forall fuel page fullTitle sent written,
        fullTitleOf page = Ok fullTitle ->
        ~ In colon fullTitle ->
        downloadPage fuel page sent written
        = (Ok (downloadFailure
                 (newError (lit "Page title does not contain path separator"))),
           sent, written)).
Proof.
  assert (Hsplit : forall fullTitle, ~ In colon fullTitle ->
            splitTitle fullTitle
            = Throw (newError (lit "Page title does not contain path separator"))).
  { intros fullTitle Hnot. unfold splitTitle, lastIndexOf.
    now rewrite lastIndexOf_from_absent. }
  split; [|split].
  - intros file _ Hbase.
    destruct (splitTitle_titleOf file Hbase) as (Hidx & Hpath & Hname).
    repeat split; try assumption.
    intros Hvalid. unfold splitTitle. rewrite Hpath, Hname, Hvalid, Hidx.
    destruct (Z.eqb_spec (Z.of_nat (length (SyncQueue.path file))) (-1));
      [lia|reflexivity].
  - exact Hsplit.
  - intros fuel page fullTitle sent written Htitle Hnot.
    unfold Services.downloadPage, downloadPage_try.
    now rewrite Htitle, (Hsplit _ Hnot).
Qed.

(** *** Uploading *)

Lemma extends_getPageBlocks_loop fuel pageId : forall acc cursor,
  extends (getPageBlocks_loop server fuel pageId acc cursor).
Proof.
  induction fuel as [|fuel IH]; intros acc cursor; simpl.
  - apply extends_outOfFuel.
  - apply extends_bind; [apply extends_makeRequest|].
    intros response.
    destruct (status response =? 200); [|apply extends_throw].
    destruct (json response) as [[[rs|] next]|]; try apply extends_throw.
    destruct (truthy_opt next); [apply IH|apply extends_ret].
Qed.

Lemma extends_deleteBlock blockId : extends (deleteBlock server blockId).
Proof.
  apply extends_bind; [apply extends_makeRequest|].
  intros response.
  destruct (status response =? 200); [apply extends_ret|apply extends_throw].
Qed.

Lemma extends_clearPageBlocks fuel pageId :
  extends (clearPageBlocks server fuel pageId).
Proof.
  apply extends_bind; [apply extends_getPageBlocks_loop|].
  intros blocks. apply extends_forEach. intros block. apply extends_deleteBlock.
Qed.

Lemma extends_appendBlocks parentId blocks :
  extends (appendBlocks server parentId blocks).
Proof.
  unfold appendBlocks.
  assert (H : forall n i sent, n = (length blocks - i)%nat ->
            exists more,
              (appendBlocks_from server parentId blocks i sent).2 = sent ++ more).
  { intros n. induction n as [n IH] using lt_wf_ind. intros i sent Hn.
    rewrite NotionFacts.appendBlocks_from_unfold.
    destruct (lt_dec i (length blocks)) as [Hlt|Hge].
    - destruct (makeRequest _ _ sent) as [[response|e|] sent1] eqn:Hreq;
        apply NotionFacts.makeRequest_sent in Hreq; subst sent1.
      + destruct (Z.eq_dec (status response) 200).
        * destruct (IH (length blocks - (i + batchSize))%nat
                      ltac:(unfold batchSize; lia) (i + batchSize)%nat
                      (sent ++ [PATCH_children parentId
                                  (slice blocks i (i + batchSize))]) eq_refl)
            as [more ->].
          rewrite <- app_assoc. eauto.
        * simpl. eauto.
      + simpl. eauto.
      + simpl. eauto.
    - exists []. simpl. now rewrite app_nil_r. }
  intros sent. apply (H _ 0%nat sent eq_refl).
Qed.

Lemma extends_updateSyncMetadata fuel note notionId :
  extends (updateSyncMetadata server now stringify fuel note notionId).
Proof.
  apply extends_bind.
  - apply extends_tryCatch.
    + apply extends_bind; [apply extends_getPageBlocks_loop|].
      intros blocks. apply extends_ret.
    + intros e. apply extends_ret.
  - intros data. apply extends_ret.
Qed.

(** The [try] of [updatePage] only reads. *)
Lemma pageSchema_reads pageId sent :
  exists schema before,
    pageSchema server pageId sent = (Ok schema, sent ++ before) /\
    Forall (fun request => mutates request = false) before.
Proof.
  unfold pageSchema, tryCatch, bind, getDatabaseSchema, bind, makeRequest,
    ret, throw.
  destruct (page server sent pageId) as [e|st msg body].
  - exists None, [GET_page pageId]. split; [reflexivity|]. now repeat constructor.
  - destruct (400 <=? st).
    + exists None, [GET_page pageId]. split; [reflexivity|].
      now repeat constructor.
    + simpl.
      destruct body as [[pid [[|c databaseId]|]]|]; simpl;
        try (exists None, [GET_page pageId]; split; [reflexivity|];
             now repeat constructor).
      destruct (database server (sent ++ [GET_page pageId]) (c :: databaseId))
        as [e|st' msg' body'].
      * exists None, [GET_page pageId; GET_database (c :: databaseId)].
        rewrite <- app_assoc. split; [reflexivity|]. now repeat constructor.
      * destruct (400 <=? st'); simpl.
        -- exists None, [GET_page pageId; GET_database (c :: databaseId)].
           rewrite <- app_assoc. split; [reflexivity|]. now repeat constructor.
        -- destruct (st' =? 200); simpl;
             [destruct body' as [db|]; simpl|];
             eexists; exists [GET_page pageId; GET_database (c :: databaseId)];
             rewrite <- app_assoc; (split; [reflexivity|]);
             now repeat constructor.
Qed.

(** [updatePage] sends the new title, whatever it could read before. *)
Lemma updatePage_sends_title pageId title sent :
  exists r before titleProperty,
    updatePage server pageId title sent
    = (r, sent ++ before ++ [PATCH_page_title pageId titleProperty title]) /\
    Forall (fun request => mutates request = false) before.
Proof.
  destruct (pageSchema_reads pageId sent) as (schema & before & Hs & Hread).
  unfold updatePage. unfold bind at 1. rewrite Hs.
  unfold bind.
  destruct (makeRequest (PATCH_page_title pageId (titlePropertyOf schema) title)
              (fun sent0 => updated server sent0 pageId) (sent ++ before))
    as [r sent1] eqn:Hreq.
  pose proof (NotionFacts.makeRequest_sent _ _ _ _ _ Hreq) as ->.
  rewrite <- app_assoc.
  destruct r as [response|e|].
  - destruct (status response =? 200); eauto.
  - eauto.
  - eauto.
Qed.

(** [uploadFile] of the sync manager is the executor of an upload; it
    compares no hash and no path itself. For a note bound to a remote page
    it sends the title of the file to that page, after nothing but reads,
    and goes on to clear and refill the page; the requests it sends are the
    same for two notes that agree on [notionID] and on the body, whatever
    checksum or path they store. *)
Lemma uploadFile_sends_whatever_is_stored :
  (forall fuel file note sent c existing,
      field (frontmatter note) (lit "notionID") = Some (c :: existing) ->
      exists before titleProperty after,
        (uploadFile fuel file note sent).2
        = sent ++ before
            ++ PATCH_page_title (c :: existing) titleProperty (titleOf file)
            :: after /\
        Forall (fun request => mutates request = false) before)
  /\ (forall fuel file note note' sent,
        field (frontmatter note) (lit "notionID")
          = field (frontmatter note') (lit "notionID") ->
        noteContent note = noteContent note' ->
        (uploadFile fuel file note sent).2
        = (uploadFile fuel file note' sent).2).
Proof.
  split.
  - intros fuel file note sent c existing Hid.
    unfold Services.uploadFile. rewrite Hid.
    destruct (updatePage_sends_title (c :: existing) (titleOf file) sent)
      as (r & before & titleProperty & Hup & Hread).
    exists before, titleProperty.
    match goal with
    | |- context [bind (bind ?m ?k1) ?k2] =>
        destruct (bind_continues m k1 sent r _ Hup) as [more1 Hmore1];
        [|destruct (bind (bind m k1) k2 sent) as [r2 sent2] eqn:Hall]
    end.
    + intros _. apply extends_bind; [apply extends_clearPageBlocks|].
      intros _. apply extends_bind; [apply extends_appendBlocks|].
      intros _. apply extends_ret.
    + match type of Hall with
      | bind ?m ?k ?s = _ =>
          destruct (m s) as [r1 sent1] eqn:Hfirst;
          destruct (bind_continues m k s r1 sent1 Hfirst) as [more2 Hmore2]
      end.
      * intros notionId. apply extends_updateSyncMetadata.
      * rewrite Hall in Hmore2. simpl in Hmore1, Hmore2. subst.
        exists (more1 ++ more2). split; [|assumption].
        rewrite <- !app_assoc. reflexivity.
  - intros fuel file note note' sent Hid Hbody.
    unfold Services.uploadFile. rewrite Hid, Hbody.
    unfold bind at 1. unfold bind at 4.
    match goal with
    | |- context [match ?m sent with _ => _ end] =>
        destruct (m sent) as [[notionId|e|] sent1]
    end; try reflexivity.
    unfold updateSyncMetadata, bind. rewrite Hbody.
    destruct (getNotionPageData server fuel notionId sent1) as [[data|e|] sent2];
      reflexivity.
Qed.

End SyncFacts.

Lemma title_parses_back_and_colonless_is_skipped_witness :
  titleOf projectFile = lit "projects/x.md:x" /\
  splitTitle (lit "projects/x.md:x") = Ok (lit "projects/x.md", lit "x") /\
  splitTitle (lit "notitle")
  = Throw (newError (lit "Page title does not contain path separator")).
Proof.
  destruct (title_parses_back_and_colonless_is_skipped demoServer
              emptyVault (fun p => p) yamlLines timestamp) as (H1 & H2 & _).
  split; [reflexivity|]. split.
  - destruct (H1 projectFile) as (_ & _ & _ & H).
    + vm_compute. intuition discriminate.
    + vm_compute. intuition discriminate.
    + apply H. vm_compute. reflexivity.
  - apply H2. vm_compute. intuition discriminate.
Defined.

(** What [uploadFile] sends for that note: the title, three deletions and
    the body, among the reads. *)
Lemma syncedNote_requests :
  (uploadFile demoServer timestamp oneParagraph countBlocks
     (lit "db") 2 SyncQueue.demoFile syncedNote []).2
  = [GET_page (lit "page");
     PATCH_page_title (lit "page") (lit "Name") (lit "notes/a.md:a");
     GET_children (lit "page") None;
     GET_children (lit "page") (Some (lit "cursor-2"));
     DELETE_block (lit "b3"); DELETE_block (lit "b2"); DELETE_block (lit "b1");
     PATCH_children (lit "page") [listItem "paragraph" (lit "hello")];
     GET_children (lit "page") None;
     GET_children (lit "page") (Some (lit "cursor-2"))].
Proof. vm_compute. reflexivity. Qed.

End ServicesFacts.

(** ** More on the sync queue *)

Module QueueRunsFacts.
Import SyncQueue QueueRuns SyncQueueFacts.

Lemma reported_app (l1 l2 : list Event) :
  reported (l1 ++ l2) = reported l1 ++ reported l2.
Proof.
  induction l1 as [|[op o|op] l1 IH]; simpl; [reflexivity|assumption|].
  now rewrite IH.
Qed.

Section Runs.

Variable executeOperation : list Event -> SyncOperation -> Outcome.

Local Abbreviation processLoop := (processLoop executeOperation).
Local Abbreviation processQueue := (processQueue executeOperation).
Local Abbreviation onlineHandler := (onlineHandler executeOperation).
Local Abbreviation queueOperations := (queueOperations executeOperation).

Lemma processLoop_all_resolve (q : list SyncOperation) : forall fuel st,
  syncQueue st = q -> isOnline st = true ->
  (forall h op, In op q -> executeOperation h op = Resolved) ->
  (length q <= fuel)%nat ->
  exists s,
    processLoop fuel st
    = Some {| syncQueue := []; isOnline := true; status := s;
              log := log st ++ map (fun op => Executed op Resolved) q |}.
Proof.
  induction q as [|op q IH]; intros fuel st Hq Ho Hres Hfuel.
  - exists (status st). destruct st as [sq on s l]. simpl in *. subst.
    rewrite app_nil_r. destruct fuel; reflexivity.
  - destruct fuel as [|fuel]; [simpl in Hfuel; lia|].
    rewrite (processLoop_unfold _ _ _ op q Hq Ho).
    unfold iteration. rewrite (Hres (log st) op (or_introl eq_refl)).
    destruct (IH fuel
                {| syncQueue := q; isOnline := isOnline st;
                   status := statusAfterExecute q;
                   log := log st ++ [Executed op Resolved] |})
      as [s Hs]; simpl; auto.
    + intros h op' Hin. apply Hres. now right.
    + simpl in Hfuel. lia.
    + exists s. rewrite Hs. simpl. now rewrite <- app_assoc.
Qed.

Lemma processQueue_all_resolve fuel st :
  isOnline st = true ->
  (forall h op, In op (syncQueue st) -> executeOperation h op = Resolved) ->
  (length (syncQueue st) <= fuel)%nat ->
  processQueue fuel st
  = Some {| syncQueue := []; isOnline := true; status := synced;
            log := log st ++ map (fun op => Executed op Resolved) (syncQueue st) |}.
Proof.
  intros Ho Hres Hfuel. unfold SyncQueue.processQueue.
  destruct (syncQueue st) as [|op q] eqn:Hq.
  - destruct st as [sq on s l]. simpl in *. subst. now rewrite app_nil_r.
  - destruct (processLoop_all_resolve (op :: q) fuel (setStatus st syncing))
      as [s Hs]; simpl; auto.
    rewrite Hs. reflexivity.
Qed.

(** X1. While every execution resolves, the operations are executed once
    each, in the order of the queue, and the queue ends empty and synced. *)
Theorem resolving_queue_is_processed_in_order fuel st :
  isOnline st = true ->
  (forall h op, In op (syncQueue st) -> executeOperation h op = Resolved) ->
  (length (syncQueue st) <= fuel)%nat ->
  processQueue fuel st
  = Some {| syncQueue := []; isOnline := true; status := synced;
            log := log st ++ map (fun op => Executed op Resolved) (syncQueue st) |}.
Proof. apply processQueue_all_resolve. Qed.

Lemma queueOperations_offline (calls : list Enqueue) : forall fuel st,
  isOnline st = false ->
  queueOperations fuel st calls
  = Some {| syncQueue := syncQueue st ++ map operationOf calls;
            isOnline := false; status := status st; log := log st |}.
Proof.
  induction calls as [|e calls IH]; intros fuel st Hoff; simpl.
  - destruct st as [sq on s l]. simpl in *. subst. now rewrite app_nil_r.
  - unfold queueOperation. simpl. rewrite Hoff.
    rewrite IH by reflexivity. simpl. now rewrite <- app_assoc.
Qed.

(** X2. Offline, [queueOperation] executes nothing: the operations wait in the
    order of the calls, behind those already queued. When connectivity
    returns and every execution resolves, they are all executed in that
    order. *)
Theorem offline_calls_wait_in_order fuel st calls :
  isOnline st = false ->
  exists waiting,
    queueOperations fuel st calls = Some waiting /\
    syncQueue waiting = syncQueue st ++ map operationOf calls /\
    isOnline waiting = false /\
    log waiting = log st /\
    forall fuel',
      (forall h op, In op (syncQueue waiting) ->
                    executeOperation h op = Resolved) ->
      (length (syncQueue waiting) <= fuel')%nat ->
      onlineHandler fuel' waiting
      = Some {| syncQueue := []; isOnline := true; status := synced;
                log := log st ++ map (fun op => Executed op Resolved)
                                   (syncQueue st ++ map operationOf calls) |}.
Proof.
  intros Hoff. eexists. split; [apply (queueOperations_offline _ _ _ Hoff)|].
  simpl. repeat split.
  intros fuel' Hres Hfuel. unfold SyncQueue.onlineHandler.
  rewrite processQueue_all_resolve; simpl; auto.
Qed.

(** *** The retry counter of a waiting operation *)

Lemma turn_retries st op rest st' stop :
  syncQueue st = op :: rest ->
  turn executeOperation st op rest st' stop ->
  Forall (fun o => (retries o <= 2)%nat) (syncQueue st) ->
  Forall (fun o => (retries o <= 2)%nat) (syncQueue st') /\
  exists evs, log st' = log st ++ evs /\
              Forall (fun o => retries o = 3%nat) (reported evs).
Proof.
  intros Hq Ht Hall. rewrite Hq in Hall. inversion Hall as [|? ? Hop Hrest]; subst.
  inversion Ht as [Hex|e Hex Hnet|e Hex Hnet Hlt|e Hex Hnet Hge]; subst; simpl.
  - split; [assumption|]. eexists. split; [reflexivity|]. constructor.
  - split; [now constructor|]. eexists. split; [reflexivity|]. constructor.
  - split.
    + apply Forall_app. split; [assumption|].
      constructor; [simpl; lia|constructor].
    + eexists. split; [reflexivity|]. constructor.
  - split; [assumption|]. eexists. split; [reflexivity|].
    simpl. constructor; [simpl; lia|constructor].
Qed.

Lemma runs_retries st st' :
  runs executeOperation st st' ->
  Forall (fun o => (retries o <= 2)%nat) (syncQueue st) ->
  Forall (fun o => (retries o <= 2)%nat) (syncQueue st') /\
  exists evs, log st' = log st ++ evs /\
              Forall (fun o => retries o = 3%nat) (reported evs).
Proof.
  induction 1 as [st _|st op rest st' Hq _ Ht|st op rest st1 st' Hq _ Ht _ IH];
    intros Hall.
  - split; [assumption|]. exists []. rewrite app_nil_r. split; [reflexivity|].
    constructor.
  - eapply turn_retries; eauto.
  - destruct (turn_retries _ _ _ _ _ Hq Ht Hall) as (Hall1 & evs1 & Hl1 & Hr1).
    destruct (IH Hall1) as (Hall' & evs & Hl & Hr).
    split; [assumption|]. exists (evs1 ++ evs).
    rewrite Hl, Hl1, <- app_assoc. split; [reflexivity|].
    rewrite reported_app. apply Forall_app. now split.
Qed.

(** X3. An operation that waits in the queue has failed at most twice, and an
    operation is reported as a terminal failure with its counter at exactly
    3: both hold after [processQueue] when the first holds before. *)
Theorem waiting_operations_failed_at_most_twice fuel st st' :
  Forall (fun o => (retries o <= 2)%nat) (syncQueue st) ->
  processQueue fuel st = Some st' ->
  Forall (fun o => (retries o <= 2)%nat) (syncQueue st') /\
  exists evs, log st' = log st ++ evs /\
              Forall (fun o => retries o = 3%nat) (reported evs).
Proof.
  intros Hall H.
  destruct (processQueue_runs _ _ _ _ H) as (st1 & Hrun & Hq & _ & Hlog).
  rewrite Hq, Hlog. apply (runs_retries _ _ Hrun Hall).
Qed.

End Runs.

Lemma resolving_queue_is_processed_in_order_witness :
  processQueue (fun _ _ => Resolved) 2 (demoState [demoOp; withRetries demoOp 1])
  = Some {| syncQueue := []; isOnline := true; status := synced;
            log := [Executed demoOp Resolved;
                    Executed (withRetries demoOp 1) Resolved] |}.
Proof.
  apply (resolving_queue_is_processed_in_order (fun _ _ => Resolved) 2
           (demoState [demoOp; withRetries demoOp 1])).
  - reflexivity.
  - intros h op _. reflexivity.
  - simpl. lia.
Defined.

Lemma offline_calls_wait_in_order_witness :
  exists waiting,
    queueOperations (fun _ _ => Resolved) 0
      (offlineHandler (demoState [demoOp]))
      [mkEnqueue download demoFile None 7] = Some waiting /\
    syncQueue waiting = [demoOp; newOperation download demoFile None 7] /\
    isOnline waiting = false /\ log waiting = [].
Proof.
  destruct (offline_calls_wait_in_order (fun _ _ => Resolved) 0
              (offlineHandler (demoState [demoOp]))
              [mkEnqueue download demoFile None 7]) as (w & H1 & H2 & H3 & H4 & _).
  - reflexivity.
  - exists w. repeat split; assumption.
Defined.

Lemma waiting_operations_failed_at_most_twice_witness :
  exists st',
    processQueue (fun _ _ => Rejected refused) 3 (demoState [demoOp]) = Some st' /\
    Forall (fun o => (retries o <= 2)%nat) (syncQueue st') /\
    reported (log st') = [withRetries demoOp 3].
Proof.
  eassert (Hrun : processQueue (fun _ _ => Rejected refused) 3
                    (demoState [demoOp]) = Some _) by (vm_compute; reflexivity).
  eexists. split; [exact Hrun|]. split.
  - eapply (waiting_operations_failed_at_most_twice
              (fun _ _ => Rejected refused) 3 (demoState [demoOp]) _).
    + constructor; [simpl; lia|constructor].
    + exact Hrun.
  - vm_compute. reflexivity.
Defined.

End QueueRunsFacts.

(** ** Hashes and the classification of errors *)

Module CriteriaFacts.
Import Notion Services Criteria.

(** *** [simpleHash] *)

Lemma toInt32_mod z : toInt32 z mod 2 ^ 32 = z mod 2 ^ 32.
Proof.
  unfold toInt32. destruct (z mod 2 ^ 32 <? 2 ^ 31).
  - apply Z.mod_mod. lia.
  - rewrite Zminus_mod, Z_mod_same_full, Z.sub_0_r, !Z.mod_mod by lia.
    reflexivity.
Qed.

Lemma toInt32_congr a b : a mod 2 ^ 32 = b mod 2 ^ 32 -> toInt32 a = toInt32 b.
Proof. intros H. unfold toInt32. now rewrite H. Qed.

Lemma toInt32_range z : - 2 ^ 31 <= toInt32 z < 2 ^ 31.
Proof.
  unfold toInt32. pose proof (Z.mod_pos_bound z (2 ^ 32) ltac:(lia)).
  destruct (Z.ltb_spec (z mod 2 ^ 32) (2 ^ 31)); lia.
Qed.

Lemma simpleHash_step_poly H c :
  simpleHash_step (toInt32 H) c = toInt32 (polyHash_step H c).
Proof.
  unfold simpleHash_step, polyHash_step. apply toInt32_congr.
  rewrite Zplus_mod, Zminus_mod, toInt32_mod.
  rewrite <- Zminus_mod, <- Zplus_mod.
  replace (toInt32 H * 32 - toInt32 H + Z.of_N c)
    with (31 * toInt32 H + Z.of_N c) by lia.
  rewrite Zplus_mod, Zmult_mod, toInt32_mod, <- Zmult_mod, <- Zplus_mod.
  reflexivity.
Qed.

Lemma fold_simpleHash_poly str : forall H,
  fold_left simpleHash_step str (toInt32 H)
  = toInt32 (fold_left polyHash_step str H).
Proof.
  induction str as [|c str IH]; intros H; simpl; [reflexivity|].
  now rewrite simpleHash_step_poly, IH.
Qed.

Lemma fold_polyHash_congr str : forall a b,
  a mod 2 ^ 32 = b mod 2 ^ 32 ->
  fold_left polyHash_step str a mod 2 ^ 32
  = fold_left polyHash_step str b mod 2 ^ 32.
Proof.
  induction str as [|c str IH]; intros a b H; simpl; [assumption|].
  apply IH. unfold polyHash_step.
  rewrite Zplus_mod, Zmult_mod, H, <- Zmult_mod, <- Zplus_mod. reflexivity.
Qed.

Lemma fold_polyHash_shift str : forall a,
  fold_left polyHash_step str a
  = 31 ^ Z.of_nat (length str) * a + fold_left polyHash_step str 0.
Proof.
  induction str as [|c str IH]; intros a.
  - simpl. lia.
  - cbn [fold_left length].
    rewrite (IH (polyHash_step a c)), (IH (polyHash_step 0 c)).
    rewrite Nat2Z.inj_succ, Z.pow_succ_r by lia.
    unfold polyHash_step. ring.
Qed.

Lemma simpleHash_poly str : simpleHash str = Js.of_Z (toInt32 (polyHash str)).
Proof.
  unfold simpleHash, polyHash. f_equal.
  change 0 with (toInt32 0) at 1. apply fold_simpleHash_poly.
Qed.

(** X4. [simpleHash] prints, in decimal, the polynomial of the code units
    with base 31 reduced to a signed 32-bit integer; the number printed
    lies between -2^31 and 2^31 - 1. *)
Theorem simpleHash_is_polynomial_hash str :
  simpleHash str = Js.of_Z (toInt32 (polyHash str)) /\
  - 2 ^ 31 <= toInt32 (polyHash str) < 2 ^ 31.
Proof. split; [apply simpleHash_poly|apply toInt32_range]. Qed.

(** X5. Two texts that differ in a part of the same length have the same hash
    when the polynomials of the two parts agree modulo 2^32; the hash does
    not tell such texts apart, wherever the part stands. *)
Theorem simpleHash_collides_on_congruent_parts (p a b s : jsstring) :
  length a = length b ->
  polyHash a mod 2 ^ 32 = polyHash b mod 2 ^ 32 ->
  simpleHash (p ++ a ++ s) = simpleHash (p ++ b ++ s).
Proof.
  intros Hlen Hpoly.
  rewrite !simpleHash_poly.
  f_equal. apply toInt32_congr. unfold polyHash.
  rewrite !fold_left_app. apply fold_polyHash_congr.
  rewrite (fold_polyHash_shift a), (fold_polyHash_shift b), Hlen.
  fold (polyHash a). fold (polyHash b).
  rewrite Zplus_mod, Hpoly, <- Zplus_mod. reflexivity.
Qed.

Lemma simpleHash_collides_on_congruent_parts_witness :
  simpleHash (lit "note " ++ lit "Aa" ++ lit " end")
  = simpleHash (lit "note " ++ lit "BB" ++ lit " end").
Proof.
  apply (simpleHash_collides_on_congruent_parts
           (lit "note ") (lit "Aa") (lit "BB") (lit " end")).
  - reflexivity.
  - reflexivity.
Defined.

(** *** [includes] *)

Lemma startsWith_before p c : forall a b,
  ~ In c p -> startsWith p (a ++ c :: b) = startsWith p a.
Proof.
  induction p as [|x p IH]; intros a b Hnot; [now destruct a|].
  destruct a as [|y a]; simpl.
  - destruct (N.eqb_spec x c) as [->|]; [|reflexivity].
    exfalso. apply Hnot. now left.
  - rewrite IH; [reflexivity|]. intros Hin. apply Hnot. now right.
Qed.

Lemma includes_nil x p : includes (x :: p) [] = false.
Proof. reflexivity. Qed.

Lemma includes_split x p c b : forall a,
  ~ In c (x :: p) ->
  includes (x :: p) (a ++ c :: b) = includes (x :: p) a || includes (x :: p) b.
Proof.
  intros a Hnot. induction a as [|y a IH].
  - cbn [app]. rewrite includes_nil. cbn [orb].
    change (includes (x :: p) (c :: b))
      with (startsWith (x :: p) (c :: b) || includes (x :: p) b)%bool.
    pose proof (startsWith_before (x :: p) c [] b Hnot) as Hs.
    cbn [app] in Hs. rewrite Hs. reflexivity.
  - change (includes (x :: p) ((y :: a) ++ c :: b))
      with (startsWith (x :: p) ((y :: a) ++ c :: b)
            || includes (x :: p) (a ++ c :: b))%bool.
    change (includes (x :: p) (y :: a))
      with (startsWith (x :: p) (y :: a) || includes (x :: p) a)%bool.
    pose proof (startsWith_before (x :: p) c (y :: a) b Hnot) as Hs.
    rewrite Hs, IH. now rewrite orb_assoc.
Qed.

Lemma includes_absent_head x p s : ~ In x s -> includes (x :: p) s = false.
Proof.
  induction s as [|y s IH]; intros Hnot; [reflexivity|].
  change (includes (x :: p) (y :: s))
    with (startsWith (x :: p) (y :: s) || includes (x :: p) s)%bool.
  rewrite IH by (intros Hin; apply Hnot; now right).
  simpl. destruct (N.eqb_spec x y) as [->|]; [|reflexivity].
  exfalso. apply Hnot. now left.
Qed.

(** *** The digits of a status *)

Lemma digits_fuel_small fuel : forall n acc,
  Forall (fun c => (c <= 57)%N) acc ->
  Forall (fun c => (c <= 57)%N) (digits_fuel fuel n acc).
Proof.
  induction fuel as [|fuel IH]; intros n acc Hacc; simpl; [assumption|].
  assert (Hd : Forall (fun c => (c <= 57)%N) (digit (n mod 10) :: acc)).
  { constructor; [|assumption]. unfold digit.
    pose proof (N.mod_upper_bound n 10 ltac:(lia)). lia. }
  destruct (n / 10 =? 0)%N; [assumption|]. now apply IH.
Qed.

Lemma of_Z_small z : Forall (fun c => (c <= 57)%N) (Js.of_Z z).
Proof.
  unfold Js.of_Z, of_N. destruct (z <? 0).
  - constructor; [lia|]. apply digits_fuel_small. constructor.
  - apply digits_fuel_small. constructor.
Qed.

Lemma includes_of_Z x p z : (57 < x)%N -> includes (x :: p) (Js.of_Z z) = false.
Proof.
  intros Hx. apply includes_absent_head. intros Hin.
  pose proof (of_Z_small z) as Hall. rewrite List.Forall_forall in Hall.
  specialize (Hall x Hin). simpl in Hall. lia.
Qed.

Lemma networkWords_of_Z z : networkWords (Js.of_Z z) = false.
Proof.
  unfold networkWords.
  rewrite (includes_of_Z 110 (lit "etwork")), (includes_of_Z 102 (lit "etch")),
    (includes_of_Z 116 (lit "imeout")) by lia.
  reflexivity.
Qed.

Lemma networkWords_split (a b : jsstring) (c : N) :
  (c < 97)%N ->
  networkWords (a ++ c :: b) = networkWords a || networkWords b.
Proof.
  intros Hc. unfold networkWords.
  rewrite (includes_split 110 (lit "etwork")), (includes_split 102 (lit "etch")),
    (includes_split 116 (lit "imeout")).
  - change (lit "network") with (110%N :: lit "etwork").
    change (lit "fetch") with (102%N :: lit "etch").
    change (lit "timeout") with (116%N :: lit "imeout").
    repeat match goal with
           | |- context [includes ?p ?s] => destruct (includes p s)
           end; reflexivity.
  - vm_compute. intros H. repeat (destruct H as [H|H]; [lia|]). exact H.
  - vm_compute. intros H. repeat (destruct H as [H|H]; [lia|]). exact H.
  - vm_compute. intros H. repeat (destruct H as [H|H]; [lia|]). exact H.
Qed.

Lemma isNetworkError_newError msg :
  SyncQueue.isNetworkError (newError msg) = networkWords msg.
Proof.
  unfold SyncQueue.isNetworkError, networkWords, newError. simpl.
  now rewrite orb_false_r.
Qed.

(** X6. An error status from the service (400 or more) is thrown by
    [makeRequest] with the message of the service in it, and is a network
    error for the queue exactly when that message contains network, fetch
    or timeout: the status itself plays no part. *)
Theorem http_error_is_classified_by_its_message {A : Type}
    (request : Request) (reply : list Request -> Reply A)
    (sent : list Request) status errorMessage json :
  reply sent = Answer status errorMessage json ->
  400 <= status ->
  exists e,
    makeRequest request reply sent = (Throw e, sent ++ [request]) /\
    SyncQueue.isNetworkError e = networkWords errorMessage.
Proof.
  intros Hreply Hstatus. unfold makeRequest. rewrite Hreply.
  destruct (Z.leb_spec 400 status) as [_|]; [|lia].
  eexists. split; [reflexivity|].
  rewrite isNetworkError_newError.
  change (lit "Request failed, status " ++ Js.of_Z status ++ lit ": " ++ errorMessage)
    with (lit "Request failed, status" ++ 32%N :: (Js.of_Z status ++ 58%N :: 32%N :: errorMessage)).
  rewrite networkWords_split by lia.
  rewrite (networkWords_split (Js.of_Z status)) by lia.
  rewrite networkWords_of_Z.
  change (32%N :: errorMessage) with ([] ++ 32%N :: errorMessage).
  rewrite (networkWords_split [] errorMessage 32%N) by lia.
  reflexivity.
Qed.

Lemma http_error_is_classified_by_its_message_witness :
  exists e,
    makeRequest (PATCH_archive (lit "page"))
      (fun _ => Answer 504 (lit "Gateway timeout") (None : option unit)) []
    = (Throw e, [PATCH_archive (lit "page")]) /\
    SyncQueue.isNetworkError e = true.
Proof.
  apply (http_error_is_classified_by_its_message
           (PATCH_archive (lit "page"))
           (fun _ => Answer 504 (lit "Gateway timeout") (None : option unit))
           [] 504 (lit "Gateway timeout") None).
  - reflexivity.
  - lia.
Defined.

(** X7. The errors the client raises itself, when an answer is not the one it
    expects, are never network errors, whatever the status: the queue
    counts them against the three attempts. *)
Theorem client_failures_are_not_network_errors (what : string) (status : Z) :
  In what clientFailures ->
  SyncQueue.isNetworkError (failed what status) = false.
Proof.
  intros Hin. unfold failed. rewrite isNetworkError_newError.
  assert (Hsplit : exists a, lit what = a ++ [32%N] /\ networkWords a = false).
  { unfold clientFailures in Hin. simpl in Hin.
    repeat (destruct Hin as [<-|Hin];
            [match goal with
             | |- exists a, lit ?w = _ /\ _ => exists (removelast (lit w))
             end; split; vm_compute; reflexivity|]).
    destruct Hin. }
  destruct Hsplit as (a & -> & Ha).
  rewrite <- app_assoc. cbn [app].
  rewrite networkWords_split by lia.
  now rewrite Ha, networkWords_of_Z.
Qed.

Lemma client_failures_are_not_network_errors_witness :
  SyncQueue.isNetworkError (failed "Failed to archive page: " 204) = false.
Proof.
  apply (client_failures_are_not_network_errors "Failed to archive page: " 204).
  unfold clientFailures. simpl. tauto.
Defined.

End CriteriaFacts.

(** ** The requests of a computation *)

Module TraceFacts.
Import Codec Notion Services Criteria.

Lemma sendsOnly_impl {A : Type} (P Q : Request -> Prop) (m : M A) :
  (forall r, P r -> Q r) -> sendsOnly P m -> sendsOnly Q m.
Proof.
  intros HPQ Hm sent. destruct (Hm sent) as (more & Heq & Hall).
  exists more. split; [assumption|]. eapply Forall_impl; eauto.
Qed.

Lemma sendsOnly_ret {A : Type} P (a : A) : sendsOnly P (ret a).
Proof. intros sent. exists []. simpl. now rewrite app_nil_r. Qed.

Lemma sendsOnly_throw {A : Type} P e : sendsOnly P (@throw A e).
Proof. intros sent. exists []. simpl. now rewrite app_nil_r. Qed.

Lemma sendsOnly_outOfFuel {A : Type} P : sendsOnly P (@outOfFuel A).
Proof. intros sent. exists []. simpl. now rewrite app_nil_r. Qed.

Lemma sendsOnly_makeRequest {A : Type} (P : Request -> Prop) request
    (reply : list Request -> Reply A) :
  P request -> sendsOnly P (makeRequest request reply).
Proof.
  intros HP sent. exists [request]. split; [|now repeat constructor].
  unfold makeRequest. destruct (reply sent) as [e|status msg body];
    [reflexivity|]. now destruct (400 <=? status).
Qed.

Lemma sendsOnly_bind {A B : Type} P (m : M A) (k : A -> M B) :
  sendsOnly P m -> (forall a, sendsOnly P (k a)) -> sendsOnly P (bind m k).
Proof.
  intros Hm Hk sent. unfold bind. destruct (Hm sent) as (more & Hmore & Hall).
  destruct (m sent) as [[a|e|] sent1]; simpl in Hmore; subst.
  - destruct (Hk a (sent ++ more)) as (more' & -> & Hall').
    exists (more ++ more'). rewrite app_assoc. split; [reflexivity|].
    apply Forall_app. now split.
  - now exists more.
  - now exists more.
Qed.

Lemma sendsOnly_tryCatch {A : Type} P (m : M A) (handler : Error -> M A) :
  sendsOnly P m -> (forall e, sendsOnly P (handler e)) ->
  sendsOnly P (tryCatch m handler).
Proof.
  intros Hm Hh sent. unfold tryCatch. destruct (Hm sent) as (more & Hmore & Hall).
  destruct (m sent) as [[a|e|] sent1]; simpl in Hmore; subst.
  - now exists more.
  - destruct (Hh e (sent ++ more)) as (more' & -> & Hall').
    exists (more ++ more'). rewrite app_assoc. split; [reflexivity|].
    apply Forall_app. now split.
  - now exists more.
Qed.

Lemma sendsOnly_forEach {A : Type} P (l : list A) (body : A -> M unit) :
  (forall a, In a l -> sendsOnly P (body a)) -> sendsOnly P (forEach l body).
Proof.
  induction l as [|x l IH]; intros Hb; simpl.
  - apply sendsOnly_ret.
  - apply sendsOnly_bind; [apply Hb; now left|].
    intros _. apply IH. intros a Ha. apply Hb. now right.
Qed.

(** A handler that returns a value leaves no exception. *)
Lemma tryCatch_ret_never_throws {A : Type} (m : M A) (a : A) sent e sent' :
  tryCatch m (fun _ => ret a) sent <> (Throw e, sent').
Proof.
  unfold tryCatch. destruct (m sent) as [[x|e'|] sent1]; discriminate.
Qed.

Section Client.

Variable server : Server.

Lemma sendsOnly_getPageBlocks_loop P pageId fuel :
  (forall c, P (GET_children pageId c)) ->
  forall acc cursor, sendsOnly P (getPageBlocks_loop server fuel pageId acc cursor).
Proof.
  intros HP. induction fuel as [|fuel IH]; intros acc cursor; simpl.
  - apply sendsOnly_outOfFuel.
  - apply sendsOnly_bind; [apply sendsOnly_makeRequest, HP|].
    intros response. destruct (status response =? 200);
      [|apply sendsOnly_throw].
    destruct (json response) as [[[rs|] next]|]; try apply sendsOnly_throw.
    destruct (truthy_opt next); [apply IH|apply sendsOnly_ret].
Qed.

Lemma sendsOnly_getPageBlocks P pageId fuel :
  (forall c, P (GET_children pageId c)) ->
  sendsOnly P (getPageBlocks server fuel pageId).
Proof. intros HP. now apply sendsOnly_getPageBlocks_loop. Qed.

Lemma sendsOnly_queryDatabase_loop P databaseId fuel :
  (forall c, P (POST_query databaseId c)) ->
  forall acc cursor,
    sendsOnly P (queryDatabase_loop server fuel databaseId acc cursor).
Proof.
  intros HP. induction fuel as [|fuel IH]; intros acc cursor; simpl.
  - apply sendsOnly_outOfFuel.
  - apply sendsOnly_bind; [apply sendsOnly_makeRequest, HP|].
    intros response. destruct (status response =? 200);
      [|apply sendsOnly_throw].
    destruct (json response) as [[[rs|] next]|]; try apply sendsOnly_throw.
    destruct (truthy_opt next); [apply IH|apply sendsOnly_ret].
Qed.

Lemma sendsOnly_deletePage P pageId :
  P (PATCH_archive pageId) -> sendsOnly P (deletePage server pageId).
Proof.
  intros HP. unfold deletePage.
  apply sendsOnly_bind; [now apply sendsOnly_makeRequest|].
  intros response. destruct (status response =? 200);
    [apply sendsOnly_ret|apply sendsOnly_throw].
Qed.

Lemma sendsOnly_deleteBlock P blockId :
  P (DELETE_block blockId) -> sendsOnly P (deleteBlock server blockId).
Proof.
  intros HP. unfold deleteBlock.
  apply sendsOnly_bind; [now apply sendsOnly_makeRequest|].
  intros response. destruct (status response =? 200);
    [apply sendsOnly_ret|apply sendsOnly_throw].
Qed.

Lemma sendsOnly_getDatabaseSchema P databaseId :
  P (GET_database databaseId) -> sendsOnly P (getDatabaseSchema server databaseId).
Proof.
  intros HP. unfold getDatabaseSchema.
  apply sendsOnly_bind; [now apply sendsOnly_makeRequest|].
  intros response. destruct (status response =? 200);
    [|apply sendsOnly_throw].
  destruct (json response); [apply sendsOnly_ret|apply sendsOnly_throw].
Qed.

Lemma sendsOnly_pageSchema P pageId :
  (forall r, reads r -> P r) -> sendsOnly P (pageSchema server pageId).
Proof.
  intros HP. unfold pageSchema.
  apply sendsOnly_tryCatch; [|intros; apply sendsOnly_ret].
  apply sendsOnly_bind; [apply sendsOnly_makeRequest, HP; reflexivity|].
  intros response. destruct (json response) as [[i [databaseId|]]|];
    try apply sendsOnly_ret.
  destruct (truthy databaseId); [|apply sendsOnly_ret].
  apply sendsOnly_bind; [|intros; apply sendsOnly_ret].
  apply sendsOnly_getDatabaseSchema, HP. reflexivity.
Qed.

(** Pages that [queryDatabase] returns have passed [isValidNotionPage]. *)
Lemma queryDatabase_loop_valid databaseId fuel :
  forall acc cursor sent found sent',
  Forall (fun p => isValidNotionPage p = true) acc ->
  queryDatabase_loop server fuel databaseId acc cursor sent = (Ok found, sent') ->
  Forall (fun p => isValidNotionPage p = true) found.
Proof.
  intros acc cursor sent found sent' Hacc H.
  destruct (NotionFacts.queryDatabase_loop_sound server _ _ _ _ _ _ _ H)
    as (pages & _ & ->).
  apply Forall_app. split; [assumption|].
  apply List.Forall_forall. intros p Hin.
  apply List.filter_In in Hin. tauto.
Qed.

End Client.

End TraceFacts.

(** ** The manual passes *)

Module MainFacts.
Import Codec Notion Services Criteria Main TraceFacts.

(** *** Fields of a header *)

Lemma field_setField_same fm key value :
  field (setField fm key value) key = Some value.
Proof.
  induction fm as [|[k v] fm IH]; simpl.
  - now rewrite bool_decide_eq_true_2.
  - destruct (bool_decide (k = key)) eqn:Hk; simpl; rewrite Hk;
      [reflexivity|assumption].
Qed.

Lemma field_setField_other fm key value key' :
  key <> key' -> field (setField fm key value) key' = field fm key'.
Proof.
  intros Hne. induction fm as [|[k v] fm IH]; simpl.
  - now rewrite bool_decide_eq_false_2.
  - destruct (bool_decide (k = key)) eqn:Hk; simpl.
    + apply bool_decide_eq_true_1 in Hk. subst k.
      now rewrite bool_decide_eq_false_2.
    + destruct (bool_decide (k = key')); [reflexivity|assumption].
Qed.

Ltac other_key :=
  rewrite field_setField_other by (vm_compute; discriminate).

(** *** The upload filter *)

Lemma filterFilesForUpload_from_acc files : forall acc,
  filterFilesForUpload_from files acc = acc ++ filterFilesForUpload files.
Proof.
  unfold filterFilesForUpload.
  induction files as [|f files IH]; intros acc; simpl.
  - now rewrite app_nil_r.
  - destruct (readNote f) as [note|]; [|apply IH].
    destruct (needsUpload (tfile f) note); [|apply IH].
    rewrite (IH (acc ++ [tfile f])), (IH [tfile f]).
    now rewrite <- app_assoc.
Qed.

Lemma filterFilesForUpload_app l1 l2 :
  filterFilesForUpload (l1 ++ l2)
  = filterFilesForUpload l1 ++ filterFilesForUpload l2.
Proof.
  induction l1 as [|f l1 IH]; [reflexivity|].
  unfold filterFilesForUpload in *. simpl.
  destruct (readNote f) as [note|]; [|assumption].
  destruct (needsUpload (tfile f) note); [|assumption].
  rewrite (filterFilesForUpload_from_acc (l1 ++ l2)),
    (filterFilesForUpload_from_acc l1).
  unfold filterFilesForUpload. now rewrite IH, <- app_assoc.
Qed.

(** Every file of the list to upload is a file of the vault. *)
Lemma filterFilesForUpload_listed files : forall t,
  In t (filterFilesForUpload files) -> exists g, In g files /\ tfile g = t.
Proof.
  induction files as [|f files IH]; intros t Hin; [destruct Hin|].
  change (f :: files) with ([f] ++ files) in Hin.
  rewrite filterFilesForUpload_app in Hin. apply in_app_or in Hin as [Hin|Hin].
  - exists f. split; [now left|].
    unfold filterFilesForUpload in Hin. simpl in Hin.
    destruct (readNote f) as [note|]; [|destruct Hin].
    destruct (needsUpload (tfile f) note); [|destruct Hin].
    destruct Hin as [Hin|[]]. assumption.
  - destruct (IH t Hin) as (g & Hg & Heq). exists g. split; [now right|assumption].
Qed.

Lemma needsUpload_unchanged file note notionID :
  field (frontmatter note) (lit "notionID") = Some notionID ->
  notionID <> [] ->
  field (frontmatter note) (lit "contentHash")
    = Some (calculateContentHash (noteContent note)) ->
  field (frontmatter note) (lit "filePath") = Some (SyncQueue.path file) ->
  needsUpload file note = false.
Proof.
  intros Hid Hne Hhash Hpath.
  unfold needsUpload. rewrite Hid, Hhash, Hpath. simpl.
  destruct notionID; [contradiction|]. simpl.
  now rewrite !bool_decide_eq_true_2.
Qed.

Lemma needsUpload_changed file note :
  truthy_opt (field (frontmatter note) (lit "notionID")) = false \/
  field (frontmatter note) (lit "contentHash")
    <> Some (calculateContentHash (noteContent note)) \/
  field (frontmatter note) (lit "filePath") <> Some (SyncQueue.path file) ->
  needsUpload file note = true.
Proof.
  intros Hchanged. unfold needsUpload.
  destruct Hchanged as [H|[H|H]].
  - now rewrite H.
  - destruct (truthy_opt _); [|reflexivity]. simpl.
    now rewrite bool_decide_eq_false_2.
  - destruct (truthy_opt _); [|reflexivity]. simpl.
    destruct (bool_decide (field _ (lit "contentHash") = _)); [|reflexivity].
    simpl. now rewrite bool_decide_eq_false_2.
Qed.

(** X8. A file whose header carries a remote id, the hash of its present
    body and its present path is left out by [filterFilesForUpload]: the
    list of files to upload is the one obtained without it. *)
Theorem unchanged_file_is_not_uploaded before f after note notionID :
  readNote f = Some note ->
  field (frontmatter note) (lit "notionID") = Some notionID ->
  notionID <> [] ->
  field (frontmatter note) (lit "contentHash")
    = Some (calculateContentHash (noteContent note)) ->
  field (frontmatter note) (lit "filePath") = Some (SyncQueue.path (tfile f)) ->
  filterFilesForUpload (before ++ f :: after)
  = filterFilesForUpload (before ++ after).
Proof.
  intros Hread Hid Hne Hhash Hpath.
  rewrite !filterFilesForUpload_app. f_equal.
  change (f :: after) with ([f] ++ after).
  rewrite filterFilesForUpload_app.
  unfold filterFilesForUpload at 1. simpl.
  now rewrite Hread, (needsUpload_unchanged _ _ _ Hid Hne Hhash Hpath).
Qed.

Lemma unchanged_file_is_not_uploaded_witness :
  filterFilesForUpload ([draft] ++ kept :: [])
  = filterFilesForUpload ([draft] ++ []).
Proof.
  apply (unchanged_file_is_not_uploaded [draft] kept [] syncedNote (lit "page")).
  - reflexivity.
  - reflexivity.
  - discriminate.
  - vm_compute. reflexivity.
  - reflexivity.
Defined.

(** X9. A readable file without a remote id, or whose stored hash is not
    the hash of its present body, or whose stored path is not its present
    path, is in the list of files to upload, once, at its place. *)
Theorem changed_file_is_uploaded before f after note :
  readNote f = Some note ->
  truthy_opt (field (frontmatter note) (lit "notionID")) = false \/
  field (frontmatter note) (lit "contentHash")
    <> Some (calculateContentHash (noteContent note)) \/
  field (frontmatter note) (lit "filePath") <> Some (SyncQueue.path (tfile f)) ->
  filterFilesForUpload (before ++ f :: after)
  = filterFilesForUpload before ++ tfile f :: filterFilesForUpload after.
Proof.
  intros Hread Hchanged.
  rewrite filterFilesForUpload_app. f_equal.
  change (f :: after) with ([f] ++ after).
  rewrite filterFilesForUpload_app.
  unfold filterFilesForUpload at 1. simpl. rewrite Hread.
  replace (needsUpload (tfile f) note) with true; [reflexivity|].
  unfold needsUpload.
  destruct Hchanged as [H|[H|H]].
  - now rewrite H.
  - destruct (truthy_opt _); [|reflexivity]. simpl.
    now rewrite bool_decide_eq_false_2.
  - destruct (truthy_opt _); [|reflexivity]. simpl.
    destruct (bool_decide (field _ (lit "contentHash") = _)); [|reflexivity].
    simpl. now rewrite bool_decide_eq_false_2.
Qed.

Lemma changed_file_is_uploaded_witness :
  filterFilesForUpload ([kept] ++ draft :: [kept])
  = filterFilesForUpload [kept] ++ projectFile :: filterFilesForUpload [kept].
Proof.
  apply (changed_file_is_uploaded [kept] draft [kept]
           {| frontmatter := []; noteContent := lit "hello" |}).
  - reflexivity.
  - left. reflexivity.
Defined.

Section PassesFacts.

Variable server : Server.
Variable now : jsstring.
Variable markdownToBlocks : jsstring -> Error + list NotionBlock.
Variable databaseID : jsstring.

(** *** The removal of orphaned pages *)

Lemma sendsOnly_bind_post {A B : Type} P (Q : A -> Prop) (m : M A)
    (k : A -> M B) :
  sendsOnly P m ->
  (forall sent a sent1, m sent = (Ok a, sent1) -> Q a) ->
  (forall a, Q a -> sendsOnly P (k a)) ->
  sendsOnly P (bind m k).
Proof.
  intros Hm HQ Hk sent. unfold bind.
  destruct (Hm sent) as (more & Hmore & Hall).
  destruct (m sent) as [[a|e|] sent1] eqn:Hrun; simpl in Hmore; subst.
  - destruct (Hk a (HQ _ _ _ Hrun) (sent ++ more)) as (more' & -> & Hall').
    exists (more ++ more'). rewrite app_assoc. split; [reflexivity|].
    apply Forall_app. now split.
  - now exists more.
  - now exists more.
Qed.

Lemma pagesToDelete_unbound ids : forall pages orphaned,
  Forall (fun p => isValidNotionPage p = true) pages ->
  pagesToDelete ids pages = Ok orphaned ->
  Forall (fun notionId => notionId ∉ ids) orphaned.
Proof.
  induction pages as [|[page|] pages IH]; intros orphaned Hvalid H; simpl in H.
  - inversion H. constructor.
  - inversion Hvalid as [|? ? Hp Hrest]; subst.
    destruct (pagesToDelete ids pages) as [rest| |]; try discriminate.
    specialize (IH rest Hrest eq_refl).
    destruct (Page.id page) as [notionId|] eqn:Hid.
    + destruct (bool_decide (notionId ∈ ids)) eqn:Hin; inversion H; subst;
        [assumption|].
      constructor; [|assumption]. now apply bool_decide_eq_false in Hin.
    + simpl in Hp. rewrite Hid in Hp. discriminate.
  - discriminate.
Qed.

Lemma cleanupDeletedFiles_sends fuel (currentFiles : list VaultFile) :
  sendsOnly
    (fun r => (exists cursor, r = POST_query databaseID cursor) \/
              (exists pageId, r = PATCH_archive pageId /\
                              pageId ∉ currentNotionIds currentFiles))
    (cleanupDeletedFiles server databaseID fuel currentFiles).
Proof.
  unfold cleanupDeletedFiles.
  apply sendsOnly_tryCatch; [|intros; apply sendsOnly_ret].
  apply (sendsOnly_bind_post _ (Forall (fun p => isValidNotionPage p = true))).
  - apply sendsOnly_queryDatabase_loop. intros c. left. now exists c.
  - intros sent pages sent1 Hrun.
    apply (queryDatabase_loop_valid server _ _ _ _ _ _ _
             (List.Forall_nil _) Hrun).
  - intros pages Hvalid.
    destruct (pagesToDelete _ pages) as [orphaned|e|] eqn:Horph;
      [|apply sendsOnly_throw|apply sendsOnly_outOfFuel].
    pose proof (pagesToDelete_unbound _ _ _ Hvalid Horph) as Hun.
    apply sendsOnly_forEach. intros notionId Hin.
    apply sendsOnly_tryCatch; [|intros; apply sendsOnly_ret].
    apply sendsOnly_deletePage. right. exists notionId. split; [reflexivity|].
    rewrite List.Forall_forall in Hun. now apply Hun.
Qed.

(** X10. [cleanupDeletedFiles] never throws. Every request it sends is a
    query of the database or archives a page whose id no readable local
    file carries. *)
Theorem cleanup_archives_only_unbound_pages fuel (currentFiles : list VaultFile) :
  sendsOnly
    (fun r => (exists cursor, r = POST_query databaseID cursor) \/
              (exists pageId, r = PATCH_archive pageId /\
                              pageId ∉ currentNotionIds currentFiles))
    (cleanupDeletedFiles server databaseID fuel currentFiles) /\
  forall sent e sent',
    cleanupDeletedFiles server databaseID fuel currentFiles sent
    <> (Throw e, sent').
Proof.
  split; [apply cleanupDeletedFiles_sends|].
  intros. apply tryCatch_ret_never_throws.
Qed.

Lemma pagesToDelete_total ids : forall pages,
  Forall (fun p => isValidNotionPage p = true) pages ->
  exists orphaned, pagesToDelete ids pages = Ok orphaned.
Proof.
  induction pages as [|[page|] pages IH]; intros Hvalid; simpl.
  - eauto.
  - inversion Hvalid as [|? ? Hp Hrest]; subst.
    destruct (IH Hrest) as [rest ->].
    destruct (Page.id page) as [notionId|]; [|eauto].
    destruct (bool_decide (notionId ∈ ids)); eauto.
  - inversion Hvalid as [|? ? Hp Hrest]; subst. discriminate Hp.
Qed.

Lemma forEach_archive (orphaned : list jsstring) : forall sent,
  forEach orphaned
    (fun notionId => tryCatch (deletePage server notionId) (fun _ => ret tt)) sent
  = (Ok tt, sent ++ map PATCH_archive orphaned).
Proof.
  induction orphaned as [|notionId orphaned IH]; intros sent; simpl.
  - unfold ret. now rewrite app_nil_r.
  - unfold bind at 1.
    assert (Hone : tryCatch (deletePage server notionId) (fun _ => ret tt) sent
                   = (Ok tt, sent ++ [PATCH_archive notionId])).
    { unfold tryCatch, deletePage, bind, makeRequest.
      destruct (archived server sent notionId) as [e|status msg body];
        [reflexivity|].
      destruct (400 <=? status); [reflexivity|]. simpl.
      destruct (status =? 200); reflexivity. }
    rewrite Hone, IH. now rewrite <- app_assoc.
Qed.

Lemma pagesToDelete_valid ids : forall pages,
  Forall (fun p => isValidNotionPage p = true) pages ->
  pagesToDelete ids pages = Ok (map idOf (unbound ids pages)).
Proof.
  unfold unbound.
  induction pages as [|[[[notionId|] props]|] pages IH]; intros Hvalid;
    inversion Hvalid as [|? ? Hp Hrest]; subst; try discriminate Hp;
    [reflexivity|].
  cbn [pagesToDelete]. rewrite (IH Hrest). cbn [Page.id List.filter idOf].
  rewrite Hp. cbn [andb].
  destruct (bool_decide (notionId ∈ ids)); reflexivity.
Qed.

Lemma unbound_filter ids (pages : list (option Page.NotionPage)) :
  unbound ids (List.filter isValidNotionPage pages) = unbound ids pages.
Proof.
  unfold unbound. induction pages as [|p pages IH]; [reflexivity|].
  cbn [List.filter]. destruct (isValidNotionPage p) eqn:Hp.
  - cbn [List.filter]. rewrite Hp, IH. reflexivity.
  - rewrite IH. reflexivity.
Qed.

(** X11. When the query of the database can be followed to its last page,
    [cleanupDeletedFiles] returns, and after the query it has sent exactly
    one archive request for each entry of the answers that is a valid page
    whose id no readable local file carries, in the order of the query and
    with that id, whatever the service answers to them. *)
Theorem cleanup_archives_every_orphan fuel (currentFiles : list VaultFile)
    sent pages sent1 :
  follows (fun sent c => queried server sent databaseID c)
    (POST_query databaseID) sent None pages sent1 ->
  (length pages <= fuel)%nat ->
  cleanupDeletedFiles server databaseID fuel currentFiles sent
  = (Ok tt,
     sent1 ++ map (fun page => PATCH_archive (idOf page))
                (List.filter
                   (fun page =>
                      isValidNotionPage page &&
                      negb (bool_decide
                              (idOf page ∈ currentNotionIds currentFiles)))
                   (concat pages))).
Proof.
  intros Hfollows Hfuel.
  unfold cleanupDeletedFiles, tryCatch, bind, queryDatabase.
  rewrite (NotionFacts.queryDatabase_loop_complete server _ _ _ _ _ Hfollows
             fuel [] Hfuel).
  cbn [app]. rewrite pagesToDelete_valid.
  - rewrite forEach_archive, unbound_filter, map_map. reflexivity.
  - apply List.Forall_forall. intros p Hin.
    apply List.filter_In in Hin. exact (proj2 Hin).
Qed.

Lemma currentNotionIds_bound (files : list VaultFile) f note notionID :
  In f files -> readNote f = Some note ->
  field (frontmatter note) (lit "notionID") = Some notionID ->
  truthy notionID = true ->
  notionID ∈ currentNotionIds files.
Proof.
  intros Hin Hread Hid Htruthy.
  induction files as [|g files IH]; [destruct Hin|].
  destruct Hin as [->|Hin]; simpl.
  - rewrite Hread, Hid, Htruthy. apply list_elem_of_here.
  - destruct (readNote g) as [n|]; [|now apply IH].
    destruct (field (frontmatter n) (lit "notionID")) as [i|]; [|now apply IH].
    destruct (truthy i); [|now apply IH].
    apply list_elem_of_further. now apply IH.
Qed.

(** X12. The page of a file that is in the vault is never archived by
    [cleanupDeletedFiles]: no request of it archives the page whose id a
    readable file carries as [notionID]. *)
Theorem page_of_a_vault_file_is_never_archived fuel (currentFiles : list VaultFile)
    f note notionID :
  In f currentFiles -> readNote f = Some note ->
  field (frontmatter note) (lit "notionID") = Some notionID ->
  truthy notionID = true ->
  sendsOnly (fun r => r <> PATCH_archive notionID)
    (cleanupDeletedFiles server databaseID fuel currentFiles).
Proof.
  intros Hin Hread Hid Htruthy.
  eapply sendsOnly_impl;
    [|apply (cleanupDeletedFiles_sends fuel currentFiles)].
  intros r [[cursor ->]|(pageId & -> & Hnot)]; [discriminate|].
  intros Heq. inversion Heq; subst. apply Hnot.
  eapply currentNotionIds_bound; eauto.
Qed.

(** C5. The upload pass ([uploadToNotion]) skips a document that is bound
    and unchanged. For a readable file whose header carries a remote id,
    the hash of its present body as [contentHash] and its present path as
    [filePath], the three tests of [filterFilesForUpload] all fail: the
    list of files the pass hands to [uploadSingleFile] is the one obtained
    without the file and, the file being listed once in the vault, does
    not hold it. [cleanupDeletedFiles], which makes the only other remote
    calls of the pass, sends no request that archives its page. The pass
    has no download. The skip is decided by these three fields: the same
    file with a header that lacks the remote id, or stores another hash or
    another path, is handed to the upload. *)
Theorem unchanged_document_is_skipped fuel before f after note notionID :
  readNote f = Some note ->
  field (frontmatter note) (lit "notionID") = Some notionID ->
  notionID <> [] ->
  field (frontmatter note) (lit "contentHash")
    = Some (calculateContentHash (noteContent note)) ->
  field (frontmatter note) (lit "filePath") = Some (SyncQueue.path (tfile f)) ->
  needsUpload (tfile f) note = false /\
  filterFilesForUpload (before ++ f :: after)
  = filterFilesForUpload (before ++ after) /\
  (Forall (fun g => tfile g <> tfile f) (before ++ after) ->
   ~ In (tfile f) (filterFilesForUpload (before ++ f :: after))) /\
  sendsOnly (fun r => r <> PATCH_archive notionID)
    (cleanupDeletedFiles server databaseID fuel (before ++ f :: after)) /\
  (forall changed,
      truthy_opt (field (frontmatter changed) (lit "notionID")) = false \/
      field (frontmatter changed) (lit "contentHash")
        <> Some (calculateContentHash (noteContent changed)) \/
      field (frontmatter changed) (lit "filePath")
        <> Some (SyncQueue.path (tfile f)) ->
      filterFilesForUpload
        (before ++ {| tfile := tfile f; readNote := Some changed |} :: after)
      = filterFilesForUpload before ++ tfile f :: filterFilesForUpload after).
Proof.
  intros Hread Hid Hne Hhash Hpath.
  pose proof (needsUpload_unchanged _ _ _ Hid Hne Hhash Hpath) as Hskip.
  assert (Hsame : filterFilesForUpload (before ++ f :: after)
                  = filterFilesForUpload (before ++ after)).
  { rewrite !filterFilesForUpload_app. f_equal.
    change (f :: after) with ([f] ++ after).
    rewrite filterFilesForUpload_app.
    unfold filterFilesForUpload at 1. simpl. now rewrite Hread, Hskip. }
  split; [assumption|]. split; [assumption|]. split; [|split].
  - intros Hothers Hin. rewrite Hsame in Hin.
    apply filterFilesForUpload_listed in Hin as (g & Hg & Heq).
    rewrite List.Forall_forall in Hothers. now apply (Hothers g Hg).
  - eapply sendsOnly_impl;
      [|apply (cleanupDeletedFiles_sends fuel (before ++ f :: after))].
    intros r [[cursor ->]|(pageId & -> & Hnot)]; [discriminate|].
    intros Heq. inversion Heq; subst. apply Hnot.
    apply (currentNotionIds_bound _ f note); [| assumption | assumption |].
    + apply in_or_app. right. now left.
    + destruct notionID; [contradiction|reflexivity].
  - intros changed Hchanged.
    rewrite filterFilesForUpload_app. f_equal.
    change (?g :: after) with ([g] ++ after).
    rewrite filterFilesForUpload_app.
    unfold filterFilesForUpload at 1. simpl.
    now rewrite (needsUpload_changed _ _ Hchanged).
Qed.

(** *** The upload of one file *)

Lemma createPage_truthy title blocks sent newId sent' :
  createPage server databaseID title blocks sent = (Ok newId, sent') ->
  truthy newId = true.
Proof.
  unfold createPage, bind. intros H.
  destruct (tryCatch _ _ sent) as [[schema|e|] sent1]; try discriminate.
  destruct (makeRequest _ _ sent1) as [[response|e|] sent2]; try discriminate.
  destruct (status response =? 200); [|discriminate].
  destruct (json response) as [[[i|] parent]|]; try discriminate.
  destruct (truthy i) eqn:Hi; [|discriminate].
  inversion H; subst. assumption.
Qed.



(** *** The pull *)

Lemma sendsOnly_checkForDownload fuel f :
  sendsOnly (fun r => exists pageId cursor, r = GET_children pageId cursor)
    (checkForDownload server fuel f).
Proof.
  unfold checkForDownload.
  destruct (readNote f) as [note|]; [|apply sendsOnly_ret].
  destruct (field _ _) as [[|c notionID]|]; try apply sendsOnly_ret.
  apply sendsOnly_tryCatch; [|intros; apply sendsOnly_ret].
  apply sendsOnly_bind; [apply sendsOnly_getPageBlocks; eauto|].
  intros blocks. destruct (notionBlocksToMarkdown _ _ _) as [[md nb]|e|];
    [|apply sendsOnly_throw|apply sendsOnly_outOfFuel].
  destruct (needsDownload _ _); apply sendsOnly_ret.
Qed.

Lemma sendsOnly_filterFilesForDownload fuel files :
  sendsOnly (fun r => exists pageId cursor, r = GET_children pageId cursor)
    (filterFilesForDownload server fuel files).
Proof.
  induction files as [|f files IH]; simpl; [apply sendsOnly_ret|].
  apply sendsOnly_bind; [apply sendsOnly_checkForDownload|].
  intros found. apply sendsOnly_bind; [apply IH|].
  intros rest. apply sendsOnly_ret.
Qed.

(** X14. The pull only reads: every request it sends lists the blocks of a
    page, none changes the remote side. *)
Theorem pull_only_lists_blocks fuel markdownFiles confirmed :
  sendsOnly (fun r => (exists pageId cursor, r = GET_children pageId cursor)
                      /\ mutates r = false)
    (pullFromNotion server now fuel markdownFiles confirmed).
Proof.
  unfold pullFromNotion. apply sendsOnly_bind.
  - eapply sendsOnly_impl; [|apply sendsOnly_filterFilesForDownload].
    intros r (pageId & cursor & ->). split; [eauto|reflexivity].
  - intros filesToUpdate. destruct (_ =? _)%nat; [apply sendsOnly_ret|].
    destruct (negb confirmed); apply sendsOnly_ret.
Qed.

Lemma checkForDownload_found fuel f d sent sent' :
  checkForDownload server fuel f sent = (Ok (Some d), sent') ->
  file d = tfile f /\ readNote f = Some (localNote d) /\
  field (frontmatter (localNote d)) (lit "notionID") = Some (notionId d) /\
  truthy (notionId d) = true /\
  needsDownload (localNote d) (notionContent d) = true.
Proof.
  unfold checkForDownload. intros H.
  destruct (readNote f) as [note|]; [|discriminate].
  destruct (field _ _) as [[|c notionID]|] eqn:Hid; try discriminate.
  unfold tryCatch, bind in H.
  destruct (getPageBlocks _ _ _ sent) as [[blocks|e|] s1]; try discriminate.
  destruct (notionBlocksToMarkdown _ _ _) as [[md nb]|e|]; try discriminate.
  destruct (needsDownload note md) eqn:Hneed; [|discriminate].
  inversion H; subst. simpl. auto.
Qed.

Lemma filterFilesForDownload_found fuel : forall files sent found sent',
  filterFilesForDownload server fuel files sent = (Ok found, sent') ->
  Forall (fun d =>
            exists f, In f files /\ file d = tfile f /\
                      readNote f = Some (localNote d) /\
                      field (frontmatter (localNote d)) (lit "notionID")
                        = Some (notionId d) /\
                      truthy (notionId d) = true /\
                      needsDownload (localNote d) (notionContent d) = true)
         found.
Proof.
  induction files as [|f files IH]; intros sent found sent' H; simpl in H.
  - inversion H. constructor.
  - unfold bind in H.
    destruct (checkForDownload _ _ _ sent) as [[d| |] s1] eqn:Hd;
      try discriminate.
    destruct (filterFilesForDownload _ _ _ s1) as [[rest| |] s2] eqn:Hrest;
      try discriminate.
    specialize (IH _ _ _ Hrest).
    assert (Hrest' : Forall (fun d =>
              exists f0, In f0 (f :: files) /\ file d = tfile f0 /\
                      readNote f0 = Some (localNote d) /\
                      field (frontmatter (localNote d)) (lit "notionID")
                        = Some (notionId d) /\
                      truthy (notionId d) = true /\
                      needsDownload (localNote d) (notionContent d) = true)
              rest).
    { eapply Forall_impl; [exact IH|]. intros d' (f0 & Hin & Hrest0).
      exists f0. split; [now right|assumption]. }
    destruct d as [d|]; inversion H; subst; [|assumption].
    constructor; [|assumption].
    exists f. split; [now left|]. eapply checkForDownload_found; eauto.
Qed.

Lemma needsDownload_pulledNote d :
  needsDownload (pulledNote now d) (notionContent d) = false.
Proof.
  unfold needsDownload, pulledNote. cbn [frontmatter noteContent].
  now rewrite field_setField_same, bool_decide_eq_true_2.
Qed.

Lemma needsUpload_pulledNote d :
  truthy_opt (field (frontmatter (localNote d)) (lit "notionID")) = true ->
  field (frontmatter (localNote d)) (lit "filePath")
    = Some (SyncQueue.path (file d)) ->
  needsUpload (file d) (pulledNote now d) = false.
Proof.
  intros Hid Hpath.
  unfold needsUpload, pulledNote. cbn [frontmatter noteContent].
  do 2 other_key. rewrite Hid. simpl.
  rewrite field_setField_same, bool_decide_eq_true_2 by reflexivity. simpl.
  do 2 other_key. now rewrite Hpath, bool_decide_eq_true_2.
Qed.

(** X15. Every file the pull writes was read from the vault with a remote
    id; what is written carries the hash of the body written, so that,
    taken as written, the file passes the test of the next pull against
    the same rendering, and the tests of the next upload when the header
    had the path of the file. *)
Theorem pulled_file_is_up_to_date fuel markdownFiles confirmed sent writes sent' :
  pullFromNotion server now fuel markdownFiles confirmed sent
  = (Ok writes, sent') ->
  Forall (fun w =>
            exists f local,
              In f markdownFiles /\ w.1 = tfile f /\ readNote f = Some local /\
              truthy_opt (field (frontmatter local) (lit "notionID")) = true /\
              needsDownload w.2 (noteContent w.2) = false /\
              (field (frontmatter local) (lit "filePath")
                 = Some (SyncQueue.path (tfile f)) ->
               needsUpload (tfile f) w.2 = false))
         writes.
Proof.
  unfold pullFromNotion, bind. intros H.
  destruct (filterFilesForDownload _ _ _ sent) as [[found| |] s1] eqn:Hfound;
    try discriminate.
  pose proof (filterFilesForDownload_found _ _ _ _ _ Hfound) as Hall.
  destruct (_ =? _)%nat; [inversion H; constructor|].
  destruct (negb confirmed); [inversion H; constructor|].
  inversion H; subst. clear H Hfound.
  induction Hall as [|d found (f & Hin & Hf & Hread & Hid & Ht & Hneed) _ IH];
    simpl; [constructor|]. constructor; [|assumption].
  exists f, (localNote d). simpl. repeat split; try assumption.
  - now rewrite Hid.
  - apply needsDownload_pulledNote.
  - intros Hpath. rewrite <- Hf. apply needsUpload_pulledNote.
    + now rewrite Hid.
    + now rewrite Hf.
Qed.

End PassesFacts.

Lemma unchanged_document_is_skipped_witness :
  needsUpload (tfile kept) syncedNote = false /\
  filterFilesForUpload ([draft] ++ kept :: []) = [projectFile] /\
  ~ In (tfile kept) (filterFilesForUpload ([draft] ++ kept :: [])) /\
  sendsOnly (fun r => r <> PATCH_archive (lit "page"))
    (cleanupDeletedFiles demoServer (lit "db") 2 ([draft] ++ kept :: [])).
Proof.
  destruct (unchanged_document_is_skipped demoServer (lit "db") 2 [draft] kept []
              syncedNote (lit "page")) as (Hskip & Hsame & Hout & Hkeep & _).
  - reflexivity.
  - reflexivity.
  - discriminate.
  - vm_compute. reflexivity.
  - reflexivity.
  - split; [exact Hskip|]. split; [exact Hsame|]. split; [|exact Hkeep].
    apply Hout. constructor; [|constructor]. vm_compute. discriminate.
Defined.

Lemma cleanup_archives_only_unbound_pages_witness :
  cleanupDeletedFiles demoServer (lit "db") 2 [kept] []
  <> (Throw typeError, []).
Proof.
  apply (cleanup_archives_only_unbound_pages demoServer (lit "db") 2 [kept]).
Defined.

Lemma page_of_a_vault_file_is_never_archived_witness :
  sendsOnly (fun r => r <> PATCH_archive (lit "page"))
    (cleanupDeletedFiles demoServer (lit "db") 2 [draft; kept]).
Proof.
  apply (page_of_a_vault_file_is_never_archived demoServer (lit "db") 2
           [draft; kept] kept syncedNote (lit "page")).
  - right. now left.
  - reflexivity.
  - reflexivity.
  - reflexivity.
Defined.

Lemma cleanup_archives_every_orphan_witness :
  cleanupDeletedFiles demoServer (lit "db") 2 [kept] []
  = (Ok tt,
     [POST_query (lit "db") None; POST_query (lit "db") (Some (lit "cursor-2"));
      PATCH_archive (lit "p1"); PATCH_archive (lit "p3")]).
Proof.
  apply (cleanup_archives_every_orphan demoServer (lit "db") 2 [kept] []
           [[titled "p1" "a.md:a"; None; untitled "p2"]; [titled "p3" "b.md:b"]]
           [POST_query (lit "db") None;
            POST_query (lit "db") (Some (lit "cursor-2"))]).
  - apply NotionFacts.demo_follows_query.
  - simpl. lia.
Defined.


Lemma pulled_file_is_up_to_date_witness :
  Forall (fun w =>
            exists f local,
              In f [kept] /\ w.1 = tfile f /\ readNote f = Some local /\
              truthy_opt (field (frontmatter local) (lit "notionID")) = true /\
              needsDownload w.2 (noteContent w.2) = false /\
              (field (frontmatter local) (lit "filePath")
                 = Some (SyncQueue.path (tfile f)) ->
               needsUpload (tfile f) w.2 = false))
    [(SyncQueue.demoFile,
      pulledNote timestamp
        {| file := SyncQueue.demoFile; localNote := syncedNote;
           notionId := lit "page"; notionContent := [newline; newline; newline] |})].
Proof.
  apply (pulled_file_is_up_to_date demoServer timestamp 2 [kept] true []
           [(SyncQueue.demoFile,
             pulledNote timestamp
               {| file := SyncQueue.demoFile; localNote := syncedNote;
                  notionId := lit "page";
                  notionContent := [newline; newline; newline] |})]
           [GET_children (lit "page") None;
            GET_children (lit "page") (Some (lit "cursor-2"))]).
  vm_compute. reflexivity.
Defined.

End MainFacts.

(** ** The header as text *)

Module YamlFacts.
Import Codec Notion Services Main Yaml.

(** *** [split] and [join] *)

Lemma split_cons sep s : exists w ws, split sep s = w :: ws.
Proof.
  induction s as [|c s (w & ws & IH)]; simpl; [eauto|].
  destruct (N.eqb c sep); [eauto|]. rewrite IH. eauto.
Qed.

Lemma split_without sep s : without sep s = true -> split sep s = [s].
Proof.
  unfold without. induction s as [|c s IH]; simpl; [reflexivity|].
  rewrite N.eqb_sym. destruct (N.eqb c sep); simpl; [discriminate|].
  intros H. now rewrite (IH H).
Qed.

Lemma split_at sep k rest :
  without sep k = true -> split sep (k ++ sep :: rest) = k :: split sep rest.
Proof.
  unfold without. induction k as [|c k IH]; simpl.
  - now rewrite N.eqb_refl.
  - rewrite N.eqb_sym. destruct (N.eqb c sep); simpl; [discriminate|].
    intros H. now rewrite (IH H).
Qed.

Lemma join_split sep s : join [sep] (split sep s) = s.
Proof.
  induction s as [|c s IH]; simpl; [reflexivity|].
  destruct (N.eqb_spec c sep) as [->|Hne].
  - destruct (split_cons sep s) as (w & ws & Hs). rewrite Hs in *.
    change (join [sep] ([] :: w :: ws)) with (sep :: join [sep] (w :: ws)).
    now rewrite IH.
  - destruct (split_cons sep s) as (w & ws & Hs). rewrite Hs in *.
    rewrite <- IH. now destruct ws.
Qed.

Lemma split_join sep (ls : list jsstring) :
  ls <> [] -> Forall (fun l => without sep l = true) ls ->
  split sep (join [sep] ls) = ls.
Proof.
  induction ls as [|x ls IH]; intros Hne Hall; [contradiction|].
  inversion Hall as [|? ? Hx Hls]; subst.
  destruct ls as [|y ls].
  - simpl. now apply split_without.
  - change (join [sep] (x :: y :: ls)) with (x ++ sep :: join [sep] (y :: ls)).
    rewrite split_at by assumption. f_equal. now apply IH.
Qed.

(** *** [trim] *)

Lemma trimStart_tight c s : isSpace c = false -> trimStart (c :: s) = c :: s.
Proof. intros H. simpl. now rewrite H. Qed.

Lemma trim_tight s : tight s = true -> trim s = s.
Proof.
  unfold tight, trim. intros H. apply andb_true_iff in H as [Hhead Hlast].
  destruct s as [|c s]; [reflexivity|].
  apply negb_true_iff in Hhead. rewrite (trimStart_tight _ _ Hhead).
  destruct (rev (c :: s)) as [|d r] eqn:Hrev.
  - apply (f_equal (@length N)) in Hrev. rewrite List.length_rev in Hrev.
    discriminate.
  - apply negb_true_iff in Hlast. rewrite (trimStart_tight _ _ Hlast).
    now rewrite <- Hrev, rev_involutive.
Qed.

Lemma tight_app (a b : jsstring) :
  a <> [] -> b <> [] -> tight a = true -> tight b = true ->
  forall m, tight (a ++ m ++ b) = true.
Proof.
  intros Ha Hb Hta Htb m. unfold tight in *.
  apply andb_true_iff in Hta as [Hhead _].
  apply andb_true_iff in Htb as [_ Hlast].
  apply andb_true_iff. split.
  - destruct a; [contradiction|]. assumption.
  - rewrite !rev_app_distr.
    destruct (rev b) as [|d r] eqn:Hrev.
    + apply (f_equal (@rev N)) in Hrev. rewrite rev_involutive in Hrev.
      contradiction.
    + assumption.
Qed.

Lemma trimStart_In c s : In c (trimStart s) -> In c s.
Proof.
  induction s as [|x s IH]; simpl; [tauto|].
  destruct (isSpace x); [intros H; right; now apply IH|tauto].
Qed.

Lemma trim_In c s : In c (trim s) -> In c s.
Proof.
  unfold trim. intros H. apply in_rev in H.
  apply trimStart_In in H. apply in_rev in H. now apply trimStart_In.
Qed.

Lemma without_In c s : without c s = true <-> ~ In c s.
Proof.
  unfold without. rewrite negb_true_iff. split.
  - intros H Hin. apply not_true_iff_false in H. apply H.
    apply existsb_exists. exists c. split; [assumption|apply N.eqb_refl].
  - intros H. apply not_true_iff_false. intros Hex.
    apply existsb_exists in Hex as (x & Hin & Heq).
    apply N.eqb_eq in Heq. subst. contradiction.
Qed.

Lemma includes_unit c s : includes [c] s = existsb (N.eqb c) s.
Proof.
  induction s as [|x s IH]; [reflexivity|].
  change (includes [c] (x :: s))
    with (startsWith [c] (x :: s) || includes [c] s)%bool.
  rewrite IH. simpl. now rewrite andb_true_r.
Qed.

Lemma unquote_plain s :
  without 39%N s = true -> without 34%N s = true -> unquote s = s.
Proof.
  unfold without, unquote. induction s as [|c s IH]; intros H1 H2;
    [reflexivity|].
  cbn [existsb List.filter] in *. rewrite negb_orb in H1, H2.
  apply andb_true_iff in H1 as [Hc1 Hs1]. apply andb_true_iff in H2 as [Hc2 Hs2].
  apply negb_true_iff in Hc1, Hc2.
  rewrite (N.eqb_sym c 39), (N.eqb_sym c 34), Hc1, Hc2. cbn [orb negb].
  f_equal. now apply IH.
Qed.

Lemma without_app c (a b : jsstring) :
  without c (a ++ b) = without c a && without c b.
Proof. unfold without. now rewrite existsb_app, negb_orb. Qed.

(** *** One line of a header *)

Lemma parseLine_trimmed result line k rest :
  plainKey k = true ->
  trim line = k ++ colon :: rest ->
  parseLine result line =
    let value := trim rest in
    if startsWith (lit "[") value && endsWith (lit "]") value then
      setEntry result k
        (Items (map (fun v => unquote (trim v)) (split 44%N (inner value))))
    else setEntry result k (Scalar (unquote value)).
Proof.
  unfold plainKey. intros Hk Htrim.
  repeat (apply andb_true_iff in Hk as [Hk ?]).
  unfold parseLine. rewrite Htrim.
  replace (truthy (k ++ colon :: rest)) with true by now destruct k.
  rewrite includes_unit, existsb_app. cbn [existsb]. rewrite N.eqb_refl.
  rewrite orb_true_r. cbn [andb orb].
  rewrite split_at by assumption. rewrite join_split.
  rewrite (trim_tight k) by assumption.
  unfold assignKey.
  destruct (bool_decide (k = lit "__proto__")); [discriminate|].
  reflexivity.
Qed.

Lemma trim_after_space v : trim (32%N :: v) = trim v.
Proof. reflexivity. Qed.

Lemma tight_nonempty_last (k : jsstring) c :
  k <> [] -> tight k = true -> isSpace c = false -> tight (k ++ [c]) = true.
Proof.
  intros Hne Hk Hc. unfold tight in *. apply andb_true_iff in Hk as [Hhead _].
  apply andb_true_iff. split.
  - destruct k; [contradiction|assumption].
  - rewrite rev_app_distr. simpl. now rewrite Hc.
Qed.

Lemma plainKey_nonempty k : plainKey k = true -> k <> [] /\ tight k = true.
Proof.
  unfold plainKey. intros Hk. repeat (apply andb_true_iff in Hk as [Hk ?]).
  split; [|assumption]. now destruct k.
Qed.

Lemma plainScalar_parts v :
  plainScalar v = true ->
  tight v = true /\
  startsWith (lit "[") v && endsWith (lit "]") v = false.
Proof.
  unfold plainScalar. intros Hv.
  apply andb_true_iff in Hv as [Hv Hbr]. apply andb_true_iff in Hv as [Hv _].
  apply negb_true_iff in Hbr. auto.
Qed.

Lemma parseLine_scalar result k v :
  plainKey k = true -> plainScalar v = true ->
  parseLine result (k ++ lit ": " ++ v)
  = setEntry result k (Scalar (unquote v)).
Proof.
  intros Hk Hv. destruct (plainKey_nonempty k Hk) as [Hne Htk].
  destruct (plainScalar_parts v Hv) as (Htv & Hbr).
  assert (Htrim : trim (k ++ lit ": " ++ v)
                  = k ++ colon :: (if truthy v then 32%N :: v else [])).
  { destruct v as [|c v].
    - change (k ++ lit ": " ++ []) with (k ++ [58%N; 32%N]).
      unfold trim. destruct k as [|a k]; [contradiction|].
      unfold tight in Htk. apply andb_true_iff in Htk as [Hhead _].
      apply negb_true_iff in Hhead.
      change ((a :: k) ++ [58%N; 32%N]) with (a :: (k ++ [58%N; 32%N])).
      rewrite (trimStart_tight _ _ Hhead).
      change (a :: (k ++ [58%N; 32%N])) with ((a :: k) ++ [58%N; 32%N]).
      rewrite rev_app_distr.
      change (rev [58%N; 32%N] ++ rev (a :: k))
        with (32%N :: 58%N :: rev (a :: k)).
      change (trimStart (32%N :: 58%N :: rev (a :: k)))
        with (58%N :: rev (a :: k)).
      change (58%N :: rev (a :: k)) with ([58%N] ++ rev (a :: k)).
      rewrite rev_app_distr, rev_involutive. reflexivity.
    - change (k ++ lit ": " ++ c :: v) with (k ++ [58%N; 32%N] ++ c :: v).
      rewrite trim_tight; [reflexivity|].
      apply tight_app; try assumption. discriminate. }
  rewrite (parseLine_trimmed result _ k _ Hk Htrim). cbv zeta.
  assert (Hval : trim (if truthy v then 32%N :: v else []) = v).
  { destruct v as [|c v]; [reflexivity|]. simpl truthy. cbv iota.
    rewrite trim_after_space. now apply trim_tight. }
  now rewrite Hval, Hbr.
Qed.

Lemma parseLine_items_key result k :
  plainKey k = true ->
  parseLine result (k ++ lit ":") = setEntry result k (Scalar []).
Proof.
  intros Hk. destruct (plainKey_nonempty k Hk) as [Hne Htk].
  assert (Htrim : trim (k ++ lit ":") = k ++ colon :: []).
  { apply trim_tight. now apply tight_nonempty_last. }
  rewrite (parseLine_trimmed result _ k _ Hk Htrim). reflexivity.
Qed.

Lemma parseLine_item result item :
  without colon item = true ->
  parseLine result (lit "  - " ++ item) = result.
Proof.
  intros Hitem. unfold parseLine.
  replace (includes [colon] (trim (lit "  - " ++ item))) with false;
    [now rewrite andb_false_r|].
  symmetry. rewrite includes_unit. apply not_true_iff_false. intros Hex.
  apply existsb_exists in Hex as (x & Hin & Heq).
  apply N.eqb_eq in Heq. subst x. apply trim_In in Hin.
  apply in_app_or in Hin as [Hin|Hin].
  - vm_compute in Hin. repeat (destruct Hin as [Hin|Hin]; [discriminate|]).
    exact Hin.
  - apply without_In in Hitem. contradiction.
Qed.

Lemma parse_entryLines result kv :
  plainKey kv.1 = true -> plainValue kv.2 = true ->
  fold_left parseLine (entryLines kv) result
  = setEntry result kv.1 (readBack kv.2).
Proof.
  destruct kv as [k [v|items]]; unfold entryLines;
    cbn [fst snd readBack plainValue fold_left]; intros Hk Hv.
  - now apply parseLine_scalar.
  - rewrite parseLine_items_key by assumption.
    generalize (setEntry result k (Scalar [])).
    induction items as [|item items IH]; intros acc; [reflexivity|].
    cbn [forallb] in Hv. apply andb_true_iff in Hv as [Hitem Hitems].
    apply andb_true_iff in Hitem as [Hcolon _].
    cbn [map fold_left]. rewrite parseLine_item by assumption. now apply IH.
Qed.

Lemma parse_lines (h : Header) : forall result,
  forallb (fun kv => plainKey kv.1 && plainValue kv.2) h = true ->
  fold_left parseLine (concat (map entryLines h)) result
  = fold_left (fun acc kv => setEntry acc kv.1 (readBack kv.2)) h result.
Proof.
  induction h as [|kv h IH]; intros result Hall; [reflexivity|].
  simpl in Hall. apply andb_true_iff in Hall as [Hkv Hall].
  apply andb_true_iff in Hkv as [Hk Hv].
  cbn [map concat]. rewrite fold_left_app, parse_entryLines by assumption.
  simpl. now apply IH.
Qed.

Lemma setEntry_fresh (h : Header) key value :
  ~ In key (map fst h) -> setEntry h key value = h ++ [(key, value)].
Proof.
  induction h as [|[k v] h IH]; simpl; intros Hnot; [reflexivity|].
  rewrite bool_decide_eq_false_2 by (intros ->; apply Hnot; now left).
  f_equal. apply IH. intros Hin. apply Hnot. now right.
Qed.

Lemma setEntries_fresh (h : Header) : forall result,
  List.NoDup (map fst result ++ map fst h) ->
  fold_left (fun acc kv => setEntry acc kv.1 (readBack kv.2)) h result
  = result ++ map (fun kv => (kv.1, readBack kv.2)) h.
Proof.
  induction h as [|[k v] h IH]; intros result Hnd; simpl.
  - now rewrite app_nil_r.
  - simpl in Hnd. rewrite setEntry_fresh.
    + rewrite IH; [now rewrite <- app_assoc|].
      rewrite map_app. simpl. rewrite <- app_assoc. exact Hnd.
    + apply List.NoDup_remove_2 in Hnd. intros Hin. apply Hnd.
      apply in_or_app. now left.
Qed.

Lemma lines_without_newline (h : Header) :
  forallb (fun kv => plainKey kv.1 && plainValue kv.2) h = true ->
  Forall (fun l => without newline l = true) (concat (map entryLines h)).
Proof.
  induction h as [|[k v] h IH]; intros Hall; [constructor|].
  simpl in Hall. apply andb_true_iff in Hall as [Hkv Hall].
  apply andb_true_iff in Hkv as [Hk Hv].
  cbn [map concat]. apply Forall_app. split; [|now apply IH].
  unfold plainKey in Hk. repeat (apply andb_true_iff in Hk as [Hk ?]).
  destruct v as [v|items]; unfold entryLines; cbn [fst snd plainValue] in *.
  - constructor; [|constructor]. rewrite !without_app.
    unfold plainScalar in Hv. repeat (apply andb_true_iff in Hv as [Hv ?]).
    repeat (apply andb_true_iff; split); try assumption; reflexivity.
  - constructor.
    + rewrite without_app. apply andb_true_iff. now split.
    + induction items as [|item items IHi]; [constructor|].
      cbn [forallb] in Hv. apply andb_true_iff in Hv as [Hitem Hitems].
      apply andb_true_iff in Hitem as [_ Hnl].
      cbn [map]. constructor; [|now apply IHi].
      rewrite without_app. apply andb_true_iff. now split.
Qed.

Lemma parse_stringify (h : Header) :
  List.NoDup (map fst h) ->
  forallb (fun kv => plainKey kv.1 && plainValue kv.2) h = true ->
  parseSimpleYaml (stringifyYaml h) = map (fun kv => (kv.1, readBack kv.2)) h.
Proof.
  intros Hnd Hall. unfold parseSimpleYaml, stringifyYaml.
  destruct h as [|kv h]; [reflexivity|].
  rewrite split_join.
  - rewrite parse_lines by assumption. now rewrite setEntries_fresh.
  - destruct kv as [k [v|items]]; discriminate.
  - now apply lines_without_newline.
Qed.

Lemma entry_readBack (h : Header) key :
  entry (map (fun kv => (kv.1, readBack kv.2)) h) key
  = option_map readBack (entry h key).
Proof.
  induction h as [|[k v] h IH]; simpl; [reflexivity|].
  destruct (bool_decide (k = key)); [reflexivity|assumption].
Qed.

(** X16. A header written by [stringifyYaml] and read by [parseSimpleYaml]
    gives, for every key, the string that was written less its apostrophes
    and double quotes, and the empty string where a list was written: lists
    do not survive. The keys are those of an object, without white space
    around them, colon or line break; the strings are without white space
    around them or line break, and not in brackets; the items are without
    colon or line break. *)
Theorem header_is_read_back_without_lists (h : Header) (key : jsstring) :
  List.NoDup (map fst h) ->
  forallb (fun kv => plainKey kv.1 && plainValue kv.2) h = true ->
  entry (parseSimpleYaml (stringifyYaml h)) key
  = option_map readBack (entry h key).
Proof.
  intros Hnd Hall. rewrite parse_stringify by assumption.
  apply entry_readBack.
Qed.

Lemma header_is_read_back_without_lists_witness :
  entry (parseSimpleYaml (stringifyYaml taggedHeader)) (lit "tags")
  = option_map readBack (entry taggedHeader (lit "tags")).
Proof.
  apply (header_is_read_back_without_lists taggedHeader (lit "tags")).
  - unfold taggedHeader. simpl.
    repeat (constructor; [vm_compute; intuition discriminate|]). constructor.
  - vm_compute. reflexivity.
Defined.

(** *** The text on disk and the upload filter *)

(** The strings of a header. *)
Lemma headerOf_readBack (fm : list (jsstring * jsstring)) :
  map (fun kv => (kv.1, readBack kv.2)) (headerOf fm)
  = headerOf (map (fun kv => (kv.1, unquote kv.2)) fm).
Proof.
  unfold headerOf. rewrite !map_map. reflexivity.
Qed.

Lemma strings_headerOf (fm : list (jsstring * jsstring)) :
  strings (headerOf fm) = fm.
Proof.
  induction fm as [|[k v] fm IH]; simpl; [reflexivity|]. now rewrite IH.
Qed.

Lemma field_unquoted (fm : list (jsstring * jsstring)) key :
  field (map (fun kv => (kv.1, unquote kv.2)) fm) key
  = option_map unquote (field fm key).
Proof.
  induction fm as [|[k v] fm IH]; simpl; [reflexivity|].
  destruct (bool_decide (k = key)); [reflexivity|assumption].
Qed.

Lemma unquote_quoted s :
  without 39%N s && without 34%N s = false -> unquote s <> s.
Proof.
  intros Hq Heq.
  assert (Hin : In 39%N s \/ In 34%N s).
  { unfold without in Hq.
    apply andb_false_iff in Hq as [Hq|Hq]; [left|right];
      apply negb_false_iff, existsb_exists in Hq as (x & Hin & Hx);
      apply N.eqb_eq in Hx; now subst x. }
  rewrite <- Heq in Hin. unfold unquote in Hin.
  destruct Hin as [Hin|Hin]; apply List.filter_In in Hin as [_ Hin];
    discriminate Hin.
Qed.

(** X17. A file whose path has an apostrophe or a double quote is never up to
    date: in the header that [updateFileMetadata] writes and
    [parseSimpleYaml] reads back, [filePath] has lost the quotes, so the
    third test of [filterFilesForUpload] sends the file to the upload
    again. *)
Theorem quoted_path_is_uploaded_again now file notionId fm content :
  let written := updateFileMetadata now file notionId fm content in
  List.NoDup (map fst (frontmatter written)) ->
  forallb (fun kv => plainKey kv.1 && plainValue kv.2)
    (headerOf (frontmatter written)) = true ->
  without 39%N (SyncQueue.path file) && without 34%N (SyncQueue.path file)
    = false ->
  needsUpload file
    {| frontmatter :=
         strings (parseSimpleYaml (stringifyYaml (headerOf (frontmatter written))));
       noteContent := content |} = true.
Proof.
  intros written Hnd Hplain Hquote.
  rewrite parse_stringify; [|unfold headerOf; now rewrite map_map|assumption].
  rewrite headerOf_readBack, strings_headerOf.
  unfold needsUpload. cbn [frontmatter noteContent].
  rewrite !field_unquoted.
  destruct (negb (truthy_opt _)); [reflexivity|].
  destruct (negb (bool_decide (option_map unquote
                                 (field _ (lit "contentHash")) = _)));
    [reflexivity|].
  replace (field (frontmatter written) (lit "filePath"))
    with (Some (SyncQueue.path file)).
  - simpl. rewrite bool_decide_eq_false_2; [reflexivity|].
    intros Heq. inversion Heq as [Hp]. now apply unquote_quoted in Hp.
  - unfold written, updateFileMetadata. cbn [frontmatter].
    rewrite MainFacts.field_setField_other by (vm_compute; discriminate).
    now rewrite MainFacts.field_setField_same.
Qed.

Lemma quoted_path_is_uploaded_again_witness :
  needsUpload quotedFile
    {| frontmatter :=
         strings (parseSimpleYaml (stringifyYaml (headerOf (frontmatter
           (updateFileMetadata timestamp quotedFile (lit "new") [] (lit "hello"))))));
       noteContent := lit "hello" |} = true.
Proof.
  apply (quoted_path_is_uploaded_again timestamp quotedFile (lit "new") []
           (lit "hello")).
  - simpl. repeat (constructor; [vm_compute; intuition discriminate|]).
    constructor.
  - vm_compute. reflexivity.
  - vm_compute. reflexivity.
Defined.

(** *** Unbinding *)











(** *** The lines of a header of strings *)








(** *** What [updateSyncMetadata] writes and [removeSyncMetadata] reads *)





















End YamlFacts.

(** ** File names *)

Module ValidationFacts.
Import Services Validation Yaml YamlFacts.

Lemma replaceInvalid_valid fileName : Forall valid (replaceInvalid fileName).
Proof.
  unfold replaceInvalid. induction fileName as [|c s IH]; cbn [map];
    constructor; try assumption.
  unfold valid. destruct (existsb (N.eqb c) invalidChars) eqn:Hc;
    [reflexivity|assumption].
Qed.

Lemma collapseSpaces_valid s : forall inRun,
  Forall valid s -> Forall valid (collapseSpaces inRun s).
Proof.
  induction s as [|c s IH]; intros inRun Hall; simpl; [constructor|].
  inversion Hall as [|? ? Hc Hs]; subst.
  destruct (isSpace c).
  - destruct inRun; [now apply IH|]. constructor; [reflexivity|now apply IH].
  - constructor; [assumption|now apply IH].
Qed.

Lemma trim_valid s : Forall valid s -> Forall valid (trim s).
Proof.
  intros Hall. apply List.Forall_forall. intros c Hin.
  apply trim_In in Hin. rewrite List.Forall_forall in Hall. now apply Hall.
Qed.

Lemma startsWith_app p : forall s, startsWith p (p ++ s) = true.
Proof.
  induction p as [|c p IH]; intros s; [now destruct s|].
  simpl. now rewrite N.eqb_refl, IH.
Qed.

Lemma sanitizeFileName_valid fileName : Forall valid (sanitizeFileName fileName).
Proof.
  unfold sanitizeFileName.
  apply trim_valid, collapseSpaces_valid, replaceInvalid_valid.
Qed.

Lemma existsb_valid s :
  Forall valid s ->
  existsb (fun c => existsb (N.eqb c) invalidChars) s = false.
Proof.
  induction 1 as [|c s Hc _ IH]; [reflexivity|].
  cbn [existsb]. now rewrite Hc, IH.
Qed.

(** X23. A sanitized name with the extension [.md] passes [validateFilePath],
    whatever the name was. *)
Theorem sanitized_name_is_a_valid_path fileName :
  validateFilePath (sanitizeFileName fileName ++ lit ".md") = true.
Proof.
  unfold validateFilePath. apply andb_true_iff. split.
  - rewrite existsb_app, (existsb_valid _ (sanitizeFileName_valid fileName)).
    reflexivity.
  - unfold endsWith. rewrite rev_app_distr. apply startsWith_app.
Qed.

(** *** Sanitizing twice *)

Lemma single_collapseSpaces s : forall inRun,
  single inRun (collapseSpaces inRun s) = true.
Proof.
  induction s as [|c s IH]; intros inRun; [reflexivity|].
  cbn [collapseSpaces]. destruct (isSpace c) eqn:Hc.
  - destruct inRun; [apply IH|].
    change (single false (32%N :: collapseSpaces true s))
      with (single true (collapseSpaces true s)). apply IH.
  - cbn [single]. rewrite Hc. apply IH.
Qed.

Lemma collapseSpaces_single s : forall prev,
  single prev s = true -> collapseSpaces prev s = s.
Proof.
  induction s as [|c s IH]; intros prev H; [reflexivity|].
  cbn [single collapseSpaces] in *. destruct (isSpace c).
  - apply andb_true_iff in H as [H Hs]. apply andb_true_iff in H as [Hc Hp].
    apply N.eqb_eq in Hc. subst c. destruct prev; [discriminate|].
    now rewrite (IH true Hs).
  - now rewrite (IH false H).
Qed.

Lemma single_weaken s : single true s = true -> single false s = true.
Proof.
  destruct s as [|c s]; [reflexivity|]. cbn [single].
  destruct (isSpace c); [|tauto].
  intros H. apply andb_true_iff in H as [H _].
  apply andb_true_iff in H as [_ H]. discriminate.
Qed.

Lemma single_trimStart s : forall prev,
  single prev s = true -> single false (trimStart s) = true.
Proof.
  induction s as [|c s IH]; intros prev H; [reflexivity|].
  cbn [trimStart]. destruct (isSpace c) eqn:Hc.
  - cbn [single] in H. rewrite Hc in H.
    apply andb_true_iff in H as [_ H]. now apply (IH true).
  - cbn [single] in *. now rewrite Hc in *.
Qed.

Lemma single_prefix p : forall prev q,
  single prev (p ++ q) = true -> single prev p = true.
Proof.
  induction p as [|c p IH]; intros prev q H; [reflexivity|].
  cbn [app single] in *. destruct (isSpace c).
  - apply andb_true_iff in H as [H Hs]. rewrite H. now apply (IH true q).
  - now apply (IH false q).
Qed.

Lemma trimStart_suffix s : exists p, s = p ++ trimStart s.
Proof.
  induction s as [|c s [p IH]]; [now exists []|].
  cbn [trimStart]. destruct (isSpace c).
  - exists (c :: p). simpl. now f_equal.
  - now exists [].
Qed.

Lemma trimStart_head s :
  match trimStart s with [] => true | c :: _ => negb (isSpace c) end = true.
Proof.
  induction s as [|c s IH]; [reflexivity|].
  cbn [trimStart]. destruct (isSpace c) eqn:Hc; [assumption|].
  now rewrite Hc.
Qed.

Lemma trim_prefix s : exists q, trimStart s = trim s ++ q.
Proof.
  unfold trim. destruct (trimStart_suffix (rev (trimStart s))) as [p Hp].
  exists (rev p). apply (f_equal (@rev N)) in Hp.
  now rewrite rev_involutive, rev_app_distr in Hp.
Qed.

Lemma single_trim s prev : single prev s = true -> single false (trim s) = true.
Proof.
  intros H. apply single_trimStart in H.
  destruct (trim_prefix s) as [q Hq]. rewrite Hq in H.
  now apply single_prefix in H.
Qed.

Lemma tight_trim s : tight (trim s) = true.
Proof.
  unfold tight. apply andb_true_iff. split.
  - destruct (trim_prefix s) as [q Hq].
    pose proof (trimStart_head s) as Hhead. rewrite Hq in Hhead.
    destruct (trim s); [reflexivity|assumption].
  - unfold trim. rewrite rev_involutive. apply trimStart_head.
Qed.

Lemma replaceInvalid_valid_id s : Forall valid s -> replaceInvalid s = s.
Proof.
  unfold replaceInvalid. induction 1 as [|c s Hc _ IH]; [reflexivity|].
  cbn [map]. now rewrite Hc, IH.
Qed.

(** X24. [sanitizeFileName] changes nothing in a name it has produced. *)
Theorem sanitizeFileName_is_idempotent fileName :
  sanitizeFileName (sanitizeFileName fileName) = sanitizeFileName fileName.
Proof.
  unfold sanitizeFileName at 1.
  rewrite (replaceInvalid_valid_id _ (sanitizeFileName_valid fileName)).
  rewrite collapseSpaces_single.
  - apply trim_tight. unfold sanitizeFileName. apply tight_trim.
  - unfold sanitizeFileName. apply (single_trim _ false).
    apply single_collapseSpaces.
Qed.

End ValidationFacts.

(** ** The list of operations shown to the user *)

Module StatusModalFacts.
Import StatusModal.

Lemma updateOperation_names operations name s e :
  map fileName (updateOperation operations name s e) = map fileName operations.
Proof.
  induction operations as [|op operations IH]; simpl; [reflexivity|].
  destruct (bool_decide (fileName op = name)); simpl; [reflexivity|].
  now rewrite IH.
Qed.

Lemma updateOperation_hit operations name s e later :
  In name (map fileName operations) ->
  updateOperation (operations ++ later) name s e
  = updateOperation operations name s e ++ later.
Proof.
  induction operations as [|op operations IH]; simpl; [tauto|].
  intros Hin. destruct (bool_decide (fileName op = name)) eqn:Hop;
    [reflexivity|].
  apply bool_decide_eq_false_1 in Hop.
  destruct Hin as [Heq|Hin]; [contradiction|]. now rewrite IH.
Qed.

Lemma updateOperation_miss operations name s e later :
  ~ In name (map fileName operations) ->
  updateOperation (operations ++ later) name s e
  = operations ++ updateOperation later name s e.
Proof.
  induction operations as [|op operations IH]; simpl; [reflexivity|].
  intros Hnot. rewrite bool_decide_eq_false_2 by (intros Heq; apply Hnot; now left).
  rewrite IH; [reflexivity|]. intros Hin. apply Hnot. now right.
Qed.

Lemma pendingCount_last operations op :
  isPending op = true ->
  (1 <= pendingCount (getCurrentStatus (operations ++ [op])))%nat.
Proof.
  intros Hop. unfold getCurrentStatus.
  rewrite List.filter_app. cbn [List.filter]. rewrite Hop.
  rewrite length_app. cbn [length].
  destruct (Nat.ltb_spec 0 (length (List.filter isPending operations) + 1));
    [cbn [pendingCount]|]; lia.
Qed.

(** When no entry of the list has the name of the file, the entry that
    [executeOperation] adds for the operation is the one it marks: the list
    grows by one entry, completed or failed. *)
Lemma first_execution_marks_its_own_entry operations op outcome :
  ~ In (SyncQueue.name (SyncQueue.file op)) (map fileName operations) ->
  exists s e,
    executeOperation operations op outcome
    = operations ++ [{| type := SyncQueue.type op;
                        fileName := SyncQueue.name (SyncQueue.file op);
                        status := s; error := e |}] /\
    (s = completed \/ s = failed).
Proof.
  intros Hnot. unfold executeOperation, addOperation.
  rewrite (updateOperation_miss _ _ _ _ _ Hnot).
  cbn [updateOperation fileName]. rewrite bool_decide_eq_true_2 by reflexivity.
  destruct outcome as [|e];
    rewrite (updateOperation_miss _ _ _ _ _ Hnot);
    cbn [updateOperation fileName];
    rewrite bool_decide_eq_true_2 by reflexivity;
    do 2 eexists; (split; [reflexivity|]); auto.
Qed.

(** X25. When an entry of the list has the name of the file (the file was
    executed before, as in a retry), the marks of [executeOperation] go to
    the first such entry: the entry added for this execution stays pending,
    the status keeps counting it as syncing, and [cleanupOldOperations]
    keeps it. *)
Theorem second_execution_of_a_file_stays_pending operations op outcome :
  In (SyncQueue.name (SyncQueue.file op)) (map fileName operations) ->
  exists marked,
    executeOperation operations op outcome
    = marked ++ [{| type := SyncQueue.type op;
                    fileName := SyncQueue.name (SyncQueue.file op);
                    status := pending; error := None |}] /\
    map fileName marked = map fileName operations /\
    (1 <= pendingCount (getCurrentStatus
                         (executeOperation operations op outcome)))%nat /\
    (1 <= pendingCount (getCurrentStatus
                         (cleanupOldOperations
                            (executeOperation operations op outcome))))%nat.
Proof.
  intros Hin. unfold executeOperation, addOperation.
  set (name := SyncQueue.name (SyncQueue.file op)) in *.
  set (added := {| type := SyncQueue.type op; fileName := name;
                   status := pending; error := None |}).
  rewrite (updateOperation_hit _ _ _ _ _ Hin).
  assert (Hin' : In name (map fileName
                   (updateOperation operations name processing None)))
    by now rewrite updateOperation_names.
  assert (Hrun : exists marked,
             match outcome with
             | SyncQueue.Resolved =>
                 updateOperation
                   (updateOperation operations name processing None ++ [added])
                   name completed None
             | SyncQueue.Rejected e =>
                 updateOperation
                   (updateOperation operations name processing None ++ [added])
                   name failed (Some (message e))
             end = marked ++ [added] /\
             map fileName marked = map fileName operations).
  { destruct outcome as [|e]; rewrite (updateOperation_hit _ _ _ _ _ Hin');
      eexists; (split; [reflexivity|]); now rewrite !updateOperation_names. }
  destruct Hrun as (marked & -> & Hnames).
  exists marked. repeat split; try assumption.
  - now apply pendingCount_last.
  - unfold cleanupOldOperations. rewrite List.filter_app.
    cbn [List.filter]. now apply pendingCount_last.
Qed.

Lemma second_execution_of_a_file_stays_pending_witness :
  exists marked,
    executeOperation
      (executeOperation [] SyncQueue.demoOp (SyncQueue.Rejected SyncQueue.refused))
      (SyncQueue.withRetries SyncQueue.demoOp 1) SyncQueue.Resolved
    = marked ++ [{| type := SyncQueue.upload; fileName := lit "a.md";
                    status := pending; error := None |}] /\
    map fileName marked = [lit "a.md"].
Proof.
  destruct (second_execution_of_a_file_stays_pending
              (executeOperation [] SyncQueue.demoOp
                 (SyncQueue.Rejected SyncQueue.refused))
              (SyncQueue.withRetries SyncQueue.demoOp 1) SyncQueue.Resolved)
    as (marked & Hrun & Hnames & _).
  - vm_compute. now left.
  - exists marked. split; [exact Hrun|]. rewrite Hnames.
    vm_compute. reflexivity.
Defined.

End StatusModalFacts.

(** ** The uploader of the first version *)

Module LegacyUploadFacts.
Import Codec Notion LegacyUpload.

Section UploaderFacts.

Variable server : Server.
Hypothesis Haccepting : accepting server.

Lemma forEach_delete (blocks : list NotionBlock) : forall sent,
  forEach blocks
    (fun block =>
       _ <- requestUrl (DELETE_block (Codec.id block))
              (fun sent => deleted server sent (Codec.id block)) ;;
       ret tt) sent
  = (Ok tt, sent ++ map (fun block => DELETE_block (Codec.id block)) blocks).
Proof.
  induction blocks as [|block blocks IH]; intros sent; simpl.
  - unfold ret. now rewrite app_nil_r.
  - unfold bind at 1 2, requestUrl.
    destruct (proj1 Haccepting sent (Codec.id block)) as (s & msg & body & ->).
    unfold ret at 1. rewrite IH. now rewrite <- app_assoc.
Qed.

(** [appendChildrenBlocks] sends one request for each block, in the order
    of the blocks, each with that block alone. *)
Lemma legacy_append_sends_each_block_alone block_id blocks sent :
  appendChildrenBlocks server block_id blocks sent
  = (Ok tt, sent ++ map (fun block => PATCH_children block_id [block]) blocks).
Proof.
  unfold appendChildrenBlocks. revert sent.
  induction blocks as [|block blocks IH]; intros sent; simpl.
  - unfold ret. now rewrite app_nil_r.
  - unfold bind at 1 2, requestUrl.
    destruct (proj2 Haccepting sent block_id) as (s & msg & body & ->).
    unfold ret at 1. rewrite IH. now rewrite <- app_assoc.
Qed.

(** X26. [clearChildrenBlocks] asks for the children once, without a cursor, and
    deletes the blocks of that first answer in the order received; it never
    asks for a further page, whatever cursor the answer carries. *)
Theorem legacy_clear_stops_at_the_first_page block_id sent status msg blocks next :
  listed server sent block_id None
  = Answer status msg (Some (mkList (Some blocks) next)) ->
  clearChildrenBlocks server block_id sent
  = (Ok tt,
     sent ++ GET_children block_id None
          :: map (fun block => DELETE_block (Codec.id block)) blocks).
Proof.
  intros Hfirst. unfold clearChildrenBlocks, bind at 1, requestUrl.
  rewrite Hfirst. cbn [json]. rewrite forEach_delete.
  now rewrite <- app_assoc.
Qed.

End UploaderFacts.

Lemma demo_accepting : accepting demoServer.
Proof. split; intros; simpl; eauto. Qed.

Lemma legacy_clear_stops_at_the_first_page_witness :
  clearChildrenBlocks demoServer (lit "page") []
  = (Ok tt,
     [] ++ GET_children (lit "page") None
        :: map (fun block => DELETE_block (Codec.id block))
             [child "b1"; child "b2"]).
Proof.
  apply (legacy_clear_stops_at_the_first_page demoServer demo_accepting
           (lit "page") [] 200 [] [child "b1"; child "b2"]
           (Some (lit "cursor-2"))).
  reflexivity.
Defined.

End LegacyUploadFacts.

(** ** The count of a batch upload *)

Module BatchesFacts.
Import Notion Services Batches.

Lemma count_step stats result :
  totalFiles (count stats result) = totalFiles stats /\
  (successful (count stats result) + failed (count stats result)
   = successful stats + failed stats + 1)%nat /\
  (length (errors (count stats result)) + failed stats
   = length (errors stats) + failed (count stats result))%nat.
Proof.
  destruct result as [syncResult|reason]; simpl.
  - destruct (success syncResult); simpl; rewrite ?length_app; simpl; lia.
  - rewrite length_app. simpl. lia.
Qed.

Lemma count_all results : forall stats,
  totalFiles (fold_left count results stats) = totalFiles stats /\
  (successful (fold_left count results stats)
   + failed (fold_left count results stats)
   = successful stats + failed stats + length results)%nat /\
  (length (errors (fold_left count results stats)) + failed stats
   = length (errors stats) + failed (fold_left count results stats))%nat.
Proof.
  induction results as [|result results IH]; intros stats; simpl.
  - lia.
  - destruct (IH (count stats result)) as (Ht & Hs & He).
    destruct (count_step stats result) as (Ht1 & Hs1 & He1). lia.
Qed.

Section UploadAllFacts.

Variable allSettled : nat -> list SyncQueue.TFile -> list Settled.

Hypothesis HallSettled :
  forall i batch, length (allSettled i batch) = length batch.

Lemma uploadAllFiles_from_unfold files i stats :
  uploadAllFiles_from allSettled files i stats =
    if lt_dec i (length files) then
      uploadAllFiles_from allSettled files (i + batchSize)
        (fold_left count (allSettled i (slice files i (i + batchSize))) stats)
    else stats.
Proof.
  rewrite uploadAllFiles_from_equation_1.
  destruct (lt_dec i (length files)); reflexivity.
Qed.

Lemma uploadAllFiles_from_counts files :
  forall n i stats, n = (length files - i)%nat ->
    let final := uploadAllFiles_from allSettled files i stats in
    totalFiles final = totalFiles stats /\
    (successful final + failed final = successful stats + failed stats + n)%nat /\
    (length (errors final) + failed stats
     = length (errors stats) + failed final)%nat.
Proof.
  intros n. induction n as [n IH] using lt_wf_ind. intros i stats Hn.
  cbv zeta. rewrite uploadAllFiles_from_unfold.
  destruct (lt_dec i (length files)) as [Hlt|Hge]; [|lia].
  pose proof (count_all (allSettled i (slice files i (i + batchSize))) stats)
    as (Ht & Hs & He).
  assert (Hlen : length (slice files i (i + batchSize))
                 = Nat.min batchSize (length files - i)).
  { unfold slice. rewrite length_take, length_drop. lia. }
  rewrite HallSettled, Hlen in Hs.
  destruct (IH (length files - (i + batchSize))%nat
              ltac:(unfold batchSize; lia) (i + batchSize)%nat
              (fold_left count (allSettled i (slice files i (i + batchSize))) stats)
              eq_refl) as (Ht' & Hs' & He').
  unfold batchSize in *. lia.
Qed.

(** X27. Every file is counted once by [uploadAllFiles]: the successes and the
    failures add up to the number of files, which is [totalFiles], and
    there is one error text for each failure. *)
Theorem uploadAllFiles_counts_every_file_once files :
  let stats := uploadAllFiles allSettled files in
  totalFiles stats = length files /\
  (successful stats + failed stats = length files)%nat /\
  length (errors stats) = failed stats.
Proof.
  cbv zeta. unfold uploadAllFiles.
  destruct (uploadAllFiles_from_counts files (length files - 0) 0
              {| totalFiles := length files; successful := 0; failed := 0;
                 errors := [] |} eq_refl) as (Ht & Hs & He).
  cbn [totalFiles successful failed errors length] in *. lia.
Qed.

End UploadAllFacts.

Lemma uploadAllFiles_counts_every_file_once_witness :
  let stats :=
    uploadAllFiles
      (fun i batch => map (fun f => RejectedWith (SyncQueue.path f)) batch)
      (replicate 7 projectFile) in
  totalFiles stats = 7%nat /\
  (successful stats + failed stats = 7)%nat /\
  length (errors stats) = failed stats.
Proof.
  apply (uploadAllFiles_counts_every_file_once
           (fun i batch => map (fun f => RejectedWith (SyncQueue.path f)) batch)).
  intros i batch. apply length_map.
Defined.

End BatchesFacts.

(** ** More on the codec *)

Module CodecMoreFacts.
Import Codec CodecFacts.

Lemma closed_app (a b : jsstring) :
  closed a -> closed b -> closed (a ++ b).
Proof.
  intros [->|[t ->]] [->|[u ->]].
  - now left.
  - right. now exists u.
  - right. exists t. now rewrite app_nil_r.
  - right. exists ((t ++ [newline]) ++ u). now rewrite app_assoc.
Qed.

Lemma ends_newline : exists t, [newline] = t ++ [newline].
Proof. now exists []. Qed.

Lemma ends_cons c (s : jsstring) :
  (exists t, s = t ++ [newline]) -> exists t, c :: s = t ++ [newline].
Proof. intros [t ->]. now exists (c :: t). Qed.

Lemma ends_app (p s : jsstring) :
  (exists t, s = t ++ [newline]) -> exists t, p ++ s = t ++ [newline].
Proof. intros [t ->]. exists (p ++ t). now rewrite app_assoc. Qed.

Ltac close_line :=
  right;
  repeat first [exact ends_newline | apply ends_cons | apply ends_app].

Lemma blockToMarkdown_try_closed block lvl num r :
  blockToMarkdown_try block lvl num = Ok r -> closed r.1.
Proof.
  unfold blockToMarkdown_try, withText, convertTableToMarkdown.
  intros H.
  repeat case_match; try discriminate; injection H as <-; cbn [fst];
    try (now left); close_line.
Qed.

Lemma blockToMarkdown_closed block lvl num md num' :
  blockToMarkdown block lvl num = Ok (md, num') -> closed md.
Proof.
  unfold blockToMarkdown. intros H.
  destruct (blockToMarkdown_try block lvl num) as [[md0 num0]|e|] eqn:Htry;
    try discriminate; inversion H; subst.
  - apply (blockToMarkdown_try_closed _ _ _ _ Htry).
  - unfold errorLine. close_line.
Qed.

(** X28. The rendering of a list of blocks is made of whole lines: it is empty
    or ends with a line break, so that renderings can be put one after the
    other without joining two lines. *)
Theorem rendering_is_made_of_whole_lines blocks lvl : forall num md num',
  notionBlocksToMarkdown blocks lvl num = Ok (md, num') -> closed md.
Proof.
  induction blocks as [|block blocks IH]; intros num md num' H; simpl in H.
  - inversion H. now left.
  - destruct (blockToMarkdown block lvl num) as [[md1 num1]|e|] eqn:Hb;
      try discriminate.
    destruct (notionBlocksToMarkdown blocks lvl num1) as [[md2 num2]|e|] eqn:Hbs;
      try discriminate.
    inversion H; subst. apply closed_app.
    + eapply blockToMarkdown_closed; eauto.
    + eapply IH; eauto.
Qed.

Lemma rendering_is_made_of_whole_lines_witness :
  closed (lines ["1. a"; "- b"]%string).
Proof.
  apply (rendering_is_made_of_whole_lines
           [numbered (lit "a"); bulleted (lit "b")] 0 [] (lines ["1. a"; "- b"]%string)
           [2%nat]).
  vm_compute. reflexivity.
Defined.

(** X29. When the converter of the package fails on a text, the block that
    [markdownToNotionBlocks] falls back to is rendered by
    [notionBlocksToMarkdown] as that text and a line break: the text
    survives the two conversions as it is. *)
Theorem fallback_block_renders_the_text
    (markdownToBlocks : jsstring -> Error + list NotionBlock) markdown e :
  markdownToBlocks markdown = inl e ->
  exists blocks,
    markdownToNotionBlocks markdownToBlocks markdown = Ok blocks /\
    notionBlocksToMarkdown blocks 0 [] = Ok (markdown ++ [newline], []).
Proof.
  intros Hfail. unfold markdownToNotionBlocks. rewrite Hfail.
  eexists. split; [reflexivity|].
  cbn [notionBlocksToMarkdown]. unfold blockToMarkdown, blockToMarkdown_try.
  replace (hasType (fallbackBlock markdown) "paragraph") with true
    by (symmetry; apply bool_decide_eq_true_2; reflexivity).
  unfold withText, richTextOf, payloadOf, fallbackBlock. cbn [props prop].
  rewrite bool_decide_eq_false_2 by (vm_compute; discriminate).
  rewrite bool_decide_eq_true_2 by reflexivity.
  cbn. now rewrite !app_nil_r.
Qed.

Lemma fallback_block_renders_the_text_witness :
  exists blocks,
    markdownToNotionBlocks (fun _ => inl typeError) (lit "# title") = Ok blocks /\
    notionBlocksToMarkdown blocks 0 [] = Ok (lit "# title" ++ [newline], []).
Proof.
  apply (fallback_block_renders_the_text (fun _ => inl typeError)
           (lit "# title") typeError).
  reflexivity.
Defined.

End CodecMoreFacts.

(** ** The property that receives the title *)

Module SchemaFacts.
Import Codec Notion.







End SchemaFacts.

(** ** What an upload and a download touch *)

Module TouchFacts.
Import Codec Notion Services Criteria Main TraceFacts MainFacts.

Section Touch.

Variable server : Server.
Variable now : jsstring.
Variable markdownToBlocks : jsstring -> Error + list NotionBlock.
Variable databaseID : jsstring.

Lemma sendsOnly_appendBlocks P parentId blocks :
  (forall children, P (PATCH_children parentId children)) ->
  sendsOnly P (appendBlocks server parentId blocks).
Proof.
  intros HP. unfold appendBlocks.
  assert (H : forall n i sent, n = (length blocks - i)%nat ->
            exists more,
              (appendBlocks_from server parentId blocks i sent).2 = sent ++ more
              /\ Forall P more).
  { intros n. induction n as [n IH] using lt_wf_ind. intros i sent Hn.
    rewrite NotionFacts.appendBlocks_from_unfold.
    destruct (lt_dec i (length blocks)) as [Hlt|Hge].
    - destruct (makeRequest _ _ sent) as [[response|e|] sent1] eqn:Hreq;
        apply NotionFacts.makeRequest_sent in Hreq; subst sent1.
      + destruct (Z.eq_dec (status response) 200).
        * destruct (IH (length blocks - (i + batchSize))%nat
                      ltac:(unfold batchSize; lia) (i + batchSize)%nat
                      (sent ++ [PATCH_children parentId
                                  (slice blocks i (i + batchSize))]) eq_refl)
            as (more & -> & Hall).
          rewrite <- app_assoc. eexists. split; [reflexivity|].
          constructor; [apply HP|assumption].
        * simpl. eexists. split; [reflexivity|]. constructor; [apply HP|constructor].
      + simpl. eexists. split; [reflexivity|]. constructor; [apply HP|constructor].
      + simpl. eexists. split; [reflexivity|]. constructor; [apply HP|constructor].
    - exists []. simpl. rewrite app_nil_r. split; [reflexivity|constructor]. }
  intros sent. apply (H _ 0%nat sent eq_refl).
Qed.

Lemma sendsOnly_updatePage P pageId title :
  (forall r, reads r -> P r) ->
  (forall titleProperty, P (PATCH_page_title pageId titleProperty title)) ->
  sendsOnly P (updatePage server pageId title).
Proof.
  intros Hr Hp. unfold updatePage.
  apply sendsOnly_bind; [now apply sendsOnly_pageSchema|].
  intros schema. apply sendsOnly_bind; [apply sendsOnly_makeRequest, Hp|].
  intros response. destruct (status response =? 200);
    [apply sendsOnly_ret|apply sendsOnly_throw].
Qed.

Lemma sendsOnly_clearPageBlocks P fuel pageId :
  (forall r, reads r -> P r) ->
  (forall blockId, P (DELETE_block blockId)) ->
  sendsOnly P (clearPageBlocks server fuel pageId).
Proof.
  intros Hr Hd. unfold clearPageBlocks.
  apply sendsOnly_bind.
  - apply sendsOnly_getPageBlocks. intros c. apply Hr. reflexivity.
  - intros blocks. apply sendsOnly_forEach. intros block _.
    apply sendsOnly_deleteBlock, Hd.
Qed.

(** X19. Uploading a note that is bound to a page changes that page only: apart
    from reads, every request of [uploadSingleFile] sets the title of the
    page to the title of the file, deletes a block, or appends blocks to
    the page. No page is created and none is archived. *)
Theorem upload_of_a_bound_note_changes_its_page_only fuel file note c existing :
  field (frontmatter note) (lit "notionID") = Some (c :: existing) ->
  sendsOnly
    (fun r => reads r \/
              (exists titleProperty,
                  r = PATCH_page_title (c :: existing) titleProperty (titleOf file)) \/
              (exists blockId, r = DELETE_block blockId) \/
              (exists children, r = PATCH_children (c :: existing) children))
    (uploadSingleFile server now markdownToBlocks databaseID fuel file note).
Proof.
  intros Hid. unfold uploadSingleFile. rewrite Hid.
  apply sendsOnly_tryCatch; [|intros; apply sendsOnly_ret].
  apply sendsOnly_bind; [|intros; apply sendsOnly_ret].
  apply sendsOnly_bind.
  { apply sendsOnly_updatePage; [now left|]. intros p. right. left. now exists p. }
  intros _. apply sendsOnly_bind.
  { apply sendsOnly_clearPageBlocks; [now left|].
    intros b. right. right. left. now exists b. }
  intros _. apply sendsOnly_bind; [|intros; apply sendsOnly_ret].
  apply sendsOnly_appendBlocks. intros children. right. right. right.
  now exists children.
Qed.


(** *** The download of one page *)

Ltac quiet_download :=
  split; [intros ? ?; discriminate|];
  exists []; rewrite app_nil_r; split; [reflexivity|constructor].

Ltac listed_download Hall :=
  split; [intros ? ?; discriminate|];
  eexists; split; [reflexivity|exact Hall].

Variable vault : Vault.
Variable normalizePath : jsstring -> jsstring.
Variable stringifyYaml : list (jsstring * jsstring) -> jsstring.

(** X21. [downloadPage] never throws and never changes the remote side:
    every request it sends lists the child blocks of a block. *)
Theorem download_never_throws_and_only_reads fuel page sent written :
  let run := downloadPage server vault normalizePath stringifyYaml now
               fuel page sent written in
  (forall e, run.1.1 <> Throw e) /\
  (exists more, run.1.2 = sent ++ more /\
                Forall (fun r => exists blockId cursor,
                            r = GET_children blockId cursor) more).
Proof.
  cbv zeta. unfold downloadPage, downloadPage_try.
  destruct (fullTitleOf page) as [fullTitle|e|]; cbn [fst snd];
    try quiet_download.
  destruct (splitTitle fullTitle) as [[filePath fileName]|e|]; cbn [fst snd];
    try quiet_download.
  match goal with
  | |- context [getPageBlocks server fuel ?pid sent] =>
      destruct (sendsOnly_getPageBlocks server
                  (fun r => exists blockId cursor, r = GET_children blockId cursor)
                  pid fuel ltac:(intros c; now exists pid, c) sent)
        as (more & Hmore & Hall);
      destruct (getPageBlocks server fuel pid sent) as [[blocks|e|] sent1]
  end; cbn [fst snd] in *; subst sent1; try (listed_download Hall).
  destruct (notionBlocksToMarkdown blocks 0 []) as [[content num]|e|];
    try (listed_download Hall).
  destruct (Page.id page) as [pageId|]; cbn [fst snd];
    listed_download Hall.
Qed.

End Touch.

Lemma upload_of_a_bound_note_changes_its_page_only_witness :
  sendsOnly
    (fun r => reads r \/
              (exists titleProperty,
                  r = PATCH_page_title (lit "page") titleProperty
                        (titleOf SyncQueue.demoFile)) \/
              (exists blockId, r = DELETE_block blockId) \/
              (exists children, r = PATCH_children (lit "page") children))
    (uploadSingleFile demoServer timestamp oneParagraph (lit "db") 2
       SyncQueue.demoFile syncedNote).
Proof.
  apply (upload_of_a_bound_note_changes_its_page_only demoServer timestamp
           oneParagraph (lit "db") 2 SyncQueue.demoFile syncedNote
           112%N (lit "age")).
  reflexivity.
Defined.


End TouchFacts.

(** ** What the queued upload leaves in the note *)

Module BindingFacts.
Import Codec Notion Services Main Yaml MainFacts.

(** X22. When [SyncManager.uploadFile] returns, the note it has written has the
    body it read; its header binds it to a page (a non-empty [notionID] and
    the link made from it), carries the hash of the body as
    [localChecksum] and the time of the upload, and keeps every other field
    as it was. *)
Theorem uploadFile_binds_the_note (server : Server) now markdownToBlocks
    stringify databaseID fuel file note sent bound sent' :
  uploadFile server now markdownToBlocks stringify databaseID fuel file note sent
  = (Ok bound, sent') ->
  noteContent bound = noteContent note /\
  (exists notionId,
      truthy notionId = true /\
      field (frontmatter bound) (lit "notionID") = Some notionId /\
      field (frontmatter bound) (lit "link") = Some (linkOf notionId)) /\
  field (frontmatter bound) (lit "localChecksum")
    = Some (simpleHash (noteContent note)) /\
  field (frontmatter bound) (lit "lastSync") = Some now /\
  forall key, ~ In key syncKeys ->
    field (frontmatter bound) key = field (frontmatter note) key.
Proof.
  unfold Services.uploadFile. unfold bind at 1. intros Hrun.
  match type of Hrun with
  | match ?m sent with _ => _ end = _ =>
      destruct (m sent) as [[notionId|e|] sent1] eqn:Hid; try discriminate
  end.
  assert (Htruthy : truthy notionId = true).
  { destruct (field (frontmatter note) (lit "notionID")) as [[|c existing]|];
      try (eapply createPage_truthy; eassumption).
    unfold bind in Hid.
    destruct (updatePage _ _ _ sent) as [[u|e|] s1]; try discriminate.
    destruct (clearPageBlocks _ _ _ s1) as [[u'|e|] s2]; try discriminate.
    destruct (appendBlocks _ _ _ s2) as [[u''|e|] s3]; try discriminate.
    inversion Hid; subst. reflexivity. }
  unfold updateSyncMetadata, bind in Hrun.
  destruct (getNotionPageData _ _ _ sent1) as [[notionData| |] s2];
    try discriminate.
  inversion Hrun; subst. clear Hrun. cbn [frontmatter noteContent].
  split; [reflexivity|]. split; [|split; [|split]].
  - exists notionId. split; [assumption|]. split.
    + do 4 (rewrite field_setField_other by (vm_compute; discriminate)).
      apply field_setField_same.
    + apply field_setField_same.
  - do 2 (rewrite field_setField_other by (vm_compute; discriminate)).
    apply field_setField_same.
  - do 3 (rewrite field_setField_other by (vm_compute; discriminate)).
    apply field_setField_same.
  - intros key Hkey. unfold syncKeys in Hkey. simpl in Hkey.
    rewrite !field_setField_other; [reflexivity|..];
      intros Heq; apply Hkey; rewrite <- Heq; tauto.
Qed.

Lemma uploadFile_binds_the_note_witness :
  exists bound,
    (uploadFile demoServer timestamp oneParagraph countBlocks (lit "db") 2
       projectFile {| frontmatter := [(lit "tags", lit "work")];
                      noteContent := lit "hello" |} []).1 = Ok bound /\
    field (frontmatter bound) (lit "localChecksum") = Some (lit "99162322") /\
    field (frontmatter bound) (lit "tags") = Some (lit "work").
Proof.
  eassert (Hrun : uploadFile demoServer timestamp oneParagraph countBlocks
                    (lit "db") 2 projectFile
                    {| frontmatter := [(lit "tags", lit "work")];
                       noteContent := lit "hello" |} [] = (Ok _, _))
    by (vm_compute; reflexivity).
  destruct (uploadFile_binds_the_note _ _ _ _ _ _ _ _ _ _ _ Hrun)
    as (_ & _ & Hhash & _ & Hkeep).
  eexists. split; [rewrite Hrun; reflexivity|]. split.
  - exact Hhash.
  - apply (Hkeep (lit "tags")). vm_compute. intuition discriminate.
Defined.

End BindingFacts.
